(** * Sketched federated SGD: a model of [fed_sketched_classes.py]

    The development follows the layout of the Python module:

    - [Py]: the few Python / numpy primitives the coordinator relies on
      (float to int truncation, negative indexing, fancy indexing, sampling
      without replacement);
    - [Torch]: one-dimensional tensors as lists over an abstract scalar
      type, with the indexing and reduction primitives the worker uses;
    - [Worker]: the state of a [FedSketchedWorker] and its methods
      [compute_grad], [all_reduce_sketched], [_apply_update], [_topk];
    - [Ray], [FedSketchedModel], [FedSketchedOptimizer],
      [FedSketchedLoss]: the coordinator objects, with the remote
      invocations they issue recorded in order;
    - [Cluster]: the effect of the issued invocations on the workers.

    A raised Python exception is modelled by [None]. *)

From Stdlib Require Import ZArith Floats Lia Permutation.
From stdpp Require Import base list option numbers sorting.

(** ** Python and numpy primitives *)

Module Py.

(** [int(x)] on a Python float (binary64): truncation toward zero;
    infinities raise [OverflowError] and NaN raises [ValueError]. *)
Definition int (x : float) : option Z :=
  match Prim2SF x with
  | S754_zero _ => Some 0%Z
  | S754_finite s m e =>
      let a := if (0 <=? e)%Z then (Z.pos m * 2 ^ e)%Z
               else (Z.pos m / 2 ^ (- e))%Z in
      Some (if s then (- a)%Z else a)
  | S754_infinity _ | S754_nan => None
  end.

(** [math.ceil(x)], the ceiling the specification speaks of. *)
Definition ceil (x : float) : option Z :=
  match Prim2SF x with
  | S754_zero _ => Some 0%Z
  | S754_finite s m e =>
      if (0 <=? e)%Z then
        Some (if s then (- (Z.pos m * 2 ^ e))%Z else (Z.pos m * 2 ^ e)%Z)
      else
        let q := (Z.pos m / 2 ^ (- e))%Z in
        let exact := (Z.pos m mod 2 ^ (- e) =? 0)%Z in
        Some (if s then (- q)%Z else if exact then q else (q + 1)%Z)
  | S754_infinity _ | S754_nan => None
  end.

(** Conversion of a list length to a float, as done by [int * float].
    [len] is below [2^63] in CPython, where the conversion below is the
    correctly rounded one. *)
Definition float_of_nat (n : nat) : float :=
  PrimFloat.of_uint63 (Uint63.of_Z (Z.of_nat n)).

(** [l[-1]]: [IndexError] on the empty list. *)
Definition last_item {A} (l : list A) : option A := list.last l.

(** [l[-k:]] for a non-negative [k].  Since [-0 = 0] the slice [l[-0:]]
    is the whole list; for [k > len(l)] the start is clamped to 0. *)
Definition slice_last {A} (k : nat) (l : list A) : list A :=
  match k with
  | O => l
  | S _ => drop (length l - k) l
  end.

(** numpy fancy indexing [a[idx]] with an array of non-negative indices:
    [IndexError] when some index is out of bounds. *)
Definition take_idx {A} (a : list A) (idx : list nat) : option (list A) :=
  mapM (fun i => a !! i) idx.

(** [np.random.choice(np.arange(n), size, replace=False)], given the
    permutation [perm] of [arange(n)] drawn by the generator: numpy returns
    the first [size] entries of that permutation.  [ValueError] for a
    negative [size] and for [size > n]. *)
Definition choice_no_replace (perm : list nat) (n : nat) (size : Z)
  : option (list nat) :=
  if bool_decide ((size < 0)%Z ∨ (Z.of_nat n < size)%Z) then None
  else Some (take (Z.to_nat size) perm).

End Py.

(** ** One-dimensional tensors *)

(** Tensor elements ([float32] in the program) are kept abstract: the
    development only uses the operations below, never their laws, except
    where a statement says so. *)
Class Scalar (F : Type) := {
  fzero : F;
  fone : F;
  fadd : F -> F -> F;
  fmul : F -> F -> F;
  fdiv : F -> F -> F;
  fopp : F -> F;
  fof_nat : nat -> F;
  (** [x == 0] *)
  fis_zero : F -> bool;
  (** [x <= y], the comparison used by [torch.sort] *)
  fleb : F -> F -> bool;
}.

Module Torch.
Section Tensor.
Context {F : Type} `{Scalar F}.

Local Abbreviation tensor := (list F).

(** [torch.zeros(n)] *)
Definition zeros (n : nat) : tensor := replicate n fzero.

(** [t.nonzero()], flattened: the indices of the non-zero entries, in
    increasing order. *)
Fixpoint nonzero_from (i : nat) (t : tensor) : list nat :=
  match t with
  | [] => []
  | x :: t' =>
      if fis_zero x then nonzero_from (S i) t'
      else i :: nonzero_from (S i) t'
  end.
Definition nonzero (t : tensor) : list nat := nonzero_from 0 t.

(** Entries selected by a mask of the same length, in order. *)
Fixpoint select (t : tensor) (m : list bool) : tensor :=
  match t, m with
  | x :: t', b :: m' => if b then x :: select t' m' else select t' m'
  | _, _ => []
  end.

(** [t[mask]]: [IndexError] unless the mask has the shape of [t]. *)
Definition mask_select (t : tensor) (m : list bool) : option tensor :=
  if bool_decide (length m = length t) then Some (select t m) else None.

(** [~mask] on a 0/1 byte mask: the complementary mask. *)
Definition mask_not (m : list bool) : list bool := negb <$> m.

(** [mask.sum()] *)
Definition mask_count (m : list bool) : nat := length (filter (fun b => b = true) m).

(** [t[idx]] for an index tensor [idx]: [IndexError] out of bounds. *)
Definition index_select (t : tensor) (idx : list nat) : option tensor :=
  mapM (fun i => t !! i) idx.

(** Broadcasting of the right-hand side of an assignment or in-place
    operation to [n] entries: it has [n] entries already, or it has one
    entry, which is repeated. *)
Definition broadcast_to (n : nat) (other : tensor) : option tensor :=
  if bool_decide (length other = n) then Some other
  else match other with
       | [x] => Some (replicate n x)
       | _ => None
       end.

(** Writes [vals] at the listed positions, in order. *)
Fixpoint put (t : tensor) (idx : list nat) (vals : tensor) : tensor :=
  match idx, vals with
  | i :: idx', x :: vals' => put (<[i := x]> t) idx' vals'
  | _, _ => t
  end.

(** [t[idx] = vals]: [vals] is broadcast to the shape of [idx];
    [IndexError] out of bounds. *)
Definition index_put (t : tensor) (idx : list nat) (vals : tensor)
  : option tensor :=
  vals' ← broadcast_to (length idx) vals;
  if bool_decide (Forall (fun i => i < length t) idx)
  then Some (put t idx vals') else None.

(** [t[idx] = x] for a scalar [x]. *)
Definition index_fill (t : tensor) (idx : list nat) (x : F) : option tensor :=
  index_put t idx (replicate (length idx) x).

(** Writes [vals] at the selected positions, in order. *)
Fixpoint scatter (t : tensor) (m : list bool) (vals : tensor) : tensor :=
  match t, m with
  | x :: t', b :: m' =>
      if b then
        match vals with
        | y :: vals' => y :: scatter t' m' vals'
        | [] => x :: scatter t' m' []
        end
      else x :: scatter t' m' vals
  | _, _ => t
  end.

(** [t[mask] = vals]: the mask has the shape of [t], and [vals] is
    broadcast to one entry per selected position. *)
Definition mask_put (t : tensor) (m : list bool) (vals : tensor)
  : option tensor :=
  if bool_decide (length m = length t) then
    vals' ← broadcast_to (mask_count m) vals; Some (scatter t m vals')
  else None.

(** [t[mask] = x] for a scalar [x]. *)
Definition mask_fill (t : tensor) (m : list bool) (x : F) : option tensor :=
  if bool_decide (length m = length t)
  then Some (zip_with (fun y (b : bool) => if b then x else y) t m)
  else None.

(** In-place [t.add_(other)] and [t += other]: [other] is broadcast to
    the shape of [t]. *)
Definition add_ (t other : tensor) : option tensor :=
  o ← broadcast_to (length t) other; Some (zip_with fadd t o).

(** [t.add_(alpha, other)]: [t + alpha * other]. *)
Definition add_scaled_ (t : tensor) (alpha : F) (other : tensor)
  : option tensor :=
  o ← broadcast_to (length t) other;
  Some (zip_with (fun x y => fadd x (fmul alpha y)) t o).

(** [t.mul_(a)] for a Python scalar [a]. *)
Definition mul_ (t : tensor) (a : F) : tensor := (fun x => fmul x a) <$> t.

(** [t * a] for a Python scalar [a]. *)
Definition mul_scalar (t : tensor) (a : F) : tensor := mul_ t a.

(** [t * other] out of place: shapes equal, or either side a one-element
    tensor. *)
Definition mul (t other : tensor) : option tensor :=
  if bool_decide (length other = length t) then Some (zip_with fmul t other)
  else match t, other with
       | _, [y] => Some ((fun x => fmul x y) <$> t)
       | [x], _ => Some (fmul x <$> other)
       | _, _ => None
       end.

(** [-t] *)
Definition neg (t : tensor) : tensor := fopp <$> t.

(** [vec**2] *)
Definition square (t : tensor) : tensor := (fun x => fmul x x) <$> t.

(** [torch.cat(ts)]: [RuntimeError] on an empty list of tensors. *)
Definition cat (ts : list tensor) : option tensor :=
  match ts with
  | [] => None
  | _ => Some (mjoin ts)
  end.

(** [torch.sum(torch.stack(rows), dim=0)]: [torch.stack] raises on an
    empty list and on rows of different shapes; the sum adds the rows up
    entry by entry, first row first. *)
Definition stack_sum (rows : list tensor) : option tensor :=
  match rows with
  | [] => None
  | r :: rs =>
      if bool_decide (Forall (fun r' => length r' = length r) rs)
      then Some (foldl (zip_with fadd) r rs)
      else None
  end.

(** [torch.sort(t)]: values in ascending order with the indices they came
    from; equal values keep their index order. *)
Fixpoint insert_sorted (p : F * nat) (l : list (F * nat)) : list (F * nat) :=
  match l with
  | [] => [p]
  | q :: l' =>
      if fleb p.1 q.1 then p :: l else q :: insert_sorted p l'
  end.

Definition sort_pairs (l : list (F * nat)) : list (F * nat) :=
  foldr insert_sorted [] l.

Definition sort (t : tensor) : tensor * list nat :=
  let s := sort_pairs (zip t (seq 0 (length t))) in (s.*1, s.*2).

End Tensor.
End Torch.

(** ** The Count-Sketch accumulator *)

(** Modelled from the spec: class [CSVec] is imported from module [minimal],
    which is not among the sources.  The worker only uses the operations
    below; their contract (spec, 4.1) is stated as [CSVecSpec] and assumed
    only by the statements that name it. *)
Class CSVec (F T : Type) := {
  (** [CSVec(d, c, r, device, nChunks=1, numBlocks)] *)
  cs_new : forall (d c r numBlocks : nat), T;
  (** the attribute [d] *)
  cs_d : T -> nat;
  (** [sketch.zero()] *)
  cs_zero : T -> T;
  (** [sketch += vec] *)
  cs_iadd : T -> list F -> option T;
  (** [sketch.unSketch(k=m)] *)
  cs_unSketch : T -> nat -> list F;
}.

Class CSVecSpec (F T : Type) `{Scalar F} `{CSVec F T} : Prop := {
  cs_new_d : forall d c r b, cs_d (cs_new d c r b) = d;
  cs_zero_d : forall t, cs_d (cs_zero t) = cs_d t;
  cs_iadd_d : forall t x,
    length x = cs_d t -> exists t', cs_iadd t x = Some t' /\ cs_d t' = cs_d t;
  cs_unSketch_length : forall t m, length (cs_unSketch t m) = cs_d t;
  (** zero everywhere except at the [m] recovered coordinates *)
  cs_unSketch_sparse : forall t m,
    length (Torch.nonzero (cs_unSketch t m)) <= m;
}.

(** ** [FedSketchedWorker] *)

Module Worker.
Section Worker.
Context {F T : Type} `{Scalar F} `{CSVec F T}.
Import Torch.

Local Abbreviation tensor := (list F).

(** A parameter of the model, flattened ([p.data.view(-1)]); [grad] is
    [p.grad], which has the shape of [p.data] when present. *)
Record Param := {
  data : tensor;
  grad : option tensor;
  requires_grad : bool;
  do_sketching : bool;
}.

(** An entry of [param_groups]: [group["lr"]] and [group["params"]]. *)
Record ParamGroup := {
  lr : F;
  params : list Param;
}.

Record t := {
  num_workers : nat;
  k : nat;
  p2 : nat;
  num_cols : nat;
  num_rows : nat;
  num_blocks : nat;
  momentum : F;
  weight_decay : F;
  nesterov : bool;
  param_groups : list ParamGroup;
  grad_size : nat;
  sketch_mask : list bool;
  sketch : T;
  u : tensor;
  v : tensor;
}.

Definition set_sketch (w : t) (s : T) : t :=
  {| num_workers := num_workers w; k := k w; p2 := p2 w;
     num_cols := num_cols w; num_rows := num_rows w;
     num_blocks := num_blocks w;
     momentum := momentum w; weight_decay := weight_decay w;
     nesterov := nesterov w; param_groups := param_groups w;
     grad_size := grad_size w; sketch_mask := sketch_mask w;
     sketch := s; u := u w; v := v w |}.

Definition set_u_v (w : t) (u' v' : tensor) : t :=
  {| num_workers := num_workers w; k := k w; p2 := p2 w;
     num_cols := num_cols w; num_rows := num_rows w;
     num_blocks := num_blocks w;
     momentum := momentum w; weight_decay := weight_decay w;
     nesterov := nesterov w; param_groups := param_groups w;
     grad_size := grad_size w; sketch_mask := sketch_mask w;
     sketch := sketch w; u := u'; v := v' |}.

Definition set_param_groups (w : t) (gs : list ParamGroup) : t :=
  {| num_workers := num_workers w; k := k w; p2 := p2 w;
     num_cols := num_cols w; num_rows := num_rows w;
     num_blocks := num_blocks w;
     momentum := momentum w; weight_decay := weight_decay w;
     nesterov := nesterov w; param_groups := gs;
     grad_size := grad_size w; sketch_mask := sketch_mask w;
     sketch := sketch w; u := u w; v := v w |}.

Definition bind_optimizer (w : t) (gs : list ParamGroup) (n : nat)
    (mask : list bool) (s : T) (u' v' : tensor) : t :=
  {| num_workers := num_workers w; k := k w; p2 := p2 w;
     num_cols := num_cols w; num_rows := num_rows w;
     num_blocks := num_blocks w;
     momentum := momentum w; weight_decay := weight_decay w;
     nesterov := nesterov w; param_groups := gs;
     grad_size := n; sketch_mask := mask;
     sketch := s; u := u'; v := v' |}.

(** [torch.cat(sketch_mask).byte()] *)
Definition cat_mask (ms : list (list bool)) : option (list bool) :=
  match ms with
  | [] => None
  | _ => Some (mjoin ms)
  end.

(** All parameters, group after group: the traversal
    [for group in self.param_groups: for p in group["params"]]. *)
Definition all_params (gs : list ParamGroup) : list Param :=
  mjoin (params <$> gs).

(** [set_optimizer], given [self.model.parameters()] and the learning
    rate of [opt.param_groups[0]]: one parameter group is created with
    all parameters of the model ([optim.SGD] rejects an empty list), and
    the mask, the sketch and both buffers are sized from the parameters
    that require a gradient. *)
Definition set_optimizer (w : t) (model : list Param) (lr0 : F) : option t :=
  match model with
  | [] => None
  | _ =>
      let trainable := filter (fun p => requires_grad p = true) model in
      let grad_size := sum_list ((fun p => length (data p)) <$> trainable) in
      mask ← cat_mask ((fun p => replicate (length (data p)) (do_sketching p))
                         <$> trainable);
      let s := cs_new (mask_count mask) (num_cols w) (num_rows w)
                      (num_blocks w) in
      Some (bind_optimizer w [ {| lr := lr0; params := model |} ] grad_size
              mask s (zeros grad_size) (zeros grad_size))
  end.

(** [_getGradVec] *)
Definition _getGradVec (w : t) : option tensor :=
  cat ((fun p => match grad p with
                 | None => zeros (length (data p))
                 | Some g => g
                 end) <$> all_params (param_groups w)).

(** [_getParamVec] *)
Definition _getParamVec (w : t) : option tensor :=
  cat (data <$> all_params (param_groups w)).

(** [_getLRVec]: a single number when there is one parameter group, else
    a vector with the group's rate at each of its coordinates (zero where
    a parameter has no gradient). *)
Definition _getLRVec (w : t) : option (F + tensor) :=
  match param_groups w with
  | [g] => Some (inl (lr g))
  | gs =>
      inr <$> cat (mjoin ((fun g =>
        (fun p => match grad p with
                  | None => zeros (length (data p))
                  | Some gr => mul_scalar (replicate (length gr) fone) (lr g)
                  end) <$> params g) <$> gs))
  end.

(** [compute_grad]: returns the new state and the returned buffer [v].
    The quotient [weight_decay / num_workers] is a Python division, which
    raises [ZeroDivisionError] for [num_workers = 0]. *)
Definition compute_grad (w : t) : option (t * tensor) :=
  gradVec ← _getGradVec w;
  gradVec ← (if negb (fis_zero (weight_decay w)) then
               if bool_decide (num_workers w = 0) then None else
               paramVec ← _getParamVec w;
               add_scaled_ gradVec
                 (fdiv (weight_decay w) (fof_nat (num_workers w))) paramVec
             else Some gradVec);
  if nesterov w then
    u1 ← add_ (u w) gradVec;
    let u' := mul_ u1 (momentum w) in
    v1 ← add_ (v w) u';
    v' ← add_ v1 gradVec;
    Some (set_u_v w u' v', v')
  else
    u' ← add_ (mul_ (u w) (momentum w)) gradVec;
    v' ← add_ (v w) u';
    Some (set_u_v w u' v', v').

(** [_topk] *)
Definition _topk (vec : tensor) (k : nat) : tensor :=
  let ret := zeros (length vec) in
  let topkIndices := Py.slice_last k (sort (square vec)).2 in
  put ret topkIndices ((fun i => default fzero (vec !! i)) <$> topkIndices).

(** The body of the loop of [_apply_update] for the parameters of one
    group, from offset [start]: returns the updated parameters and the
    next offset.  [weight_update[start:end]] is clamped to the tensor, and
    [reshape] raises unless the slice has [numel(p)] entries. *)
Fixpoint update_params (ps : list Param) (weight_update : tensor)
    (start : nat) : option (list Param * nat) :=
  match ps with
  | [] => Some ([], start)
  | p :: ps' =>
      let end_ := start + length (data p) in
      let slice := take (end_ - start) (drop start weight_update) in
      if bool_decide (length slice = length (data p)) then
        let p' := {| data := zip_with fadd (data p) (neg slice);
                     grad := grad p;
                     requires_grad := requires_grad p;
                     do_sketching := do_sketching p |} in
        '(ps'', start') ← update_params ps' weight_update end_;
        Some (p' :: ps'', start')
      else None
  end.

Fixpoint update_groups (gs : list ParamGroup) (weight_update : tensor)
    (start : nat) : option (list ParamGroup) :=
  match gs with
  | [] => Some []
  | g :: gs' =>
      '(ps, start') ← update_params (params g) weight_update start;
      gs'' ← update_groups gs' weight_update start';
      Some ({| lr := lr g; params := ps |} :: gs'')
  end.

(** [_apply_update] *)
Definition _apply_update (w : t) (update : tensor) : option t :=
  u' ← index_fill (u w) (nonzero update) fzero;
  v1 ← index_fill (v w) (nonzero update) fzero;
  v' ← mask_fill v1 (mask_not (sketch_mask w)) fzero;
  lrVec ← _getLRVec w;
  weight_update ← match lrVec with
                  | inl a => Some (mul_scalar update a)
                  | inr l => mul update l
                  end;
  gs ← update_groups (param_groups w) weight_update 0;
  Some (set_param_groups (set_u_v w u' v') gs).

(** The loop [for grad in grads: self.sketch += grad[self.sketch_mask]]. *)
Fixpoint accumulate (s : T) (mask : list bool) (grads : list tensor)
  : option T :=
  match grads with
  | [] => Some s
  | g :: grads' =>
      x ← mask_select g mask;
      s' ← cs_iadd s x;
      accumulate s' mask grads'
  end.

(** [all_reduce_sketched], up to the overwriting of the candidates by
    exact sums (the assignment to [candidate_top_k[candidate_hh_coords]]):
    the sketch, the candidate coordinates and the candidate vector that is
    handed to [_topk]. *)
Definition all_reduce_candidates (w : t) (grads : list tensor)
  : option (T * list nat * tensor) :=
  s ← accumulate (cs_zero (sketch w)) (sketch_mask w) grads;
  let candidate_top_k := cs_unSketch s (p2 w * k w) in
  let candidate_hh_coords := nonzero candidate_top_k in
  hhs ← mapM (fun g => index_select g candidate_hh_coords) grads;
  sums ← stack_sum hhs;
  candidate_top_k ← index_put candidate_top_k candidate_hh_coords sums;
  Some (s, candidate_hh_coords, candidate_top_k).

(** [all_reduce_sketched], up to the call of [_apply_update]: the sketch
    and the vector [weight_update]. *)
Definition all_reduce_update (w : t) (grads : list tensor)
  : option (T * tensor) :=
  '(s, _, candidate_top_k) ← all_reduce_candidates w grads;
  let weights := _topk candidate_top_k (k w) in
  let weight_update := zeros (grad_size w) in
  weight_update ← mask_put weight_update (sketch_mask w) weights;
  rows ← mapM (fun g => mask_select g (mask_not (sketch_mask w))) grads;
  dense ← stack_sum rows;
  weight_update ← mask_put weight_update (mask_not (sketch_mask w)) dense;
  Some (s, weight_update).

(** [all_reduce_sketched] *)
Definition all_reduce_sketched (w : t) (grads : list tensor) : option t :=
  '(s, weight_update) ← all_reduce_update w grads;
  _apply_update (set_sketch w s) weight_update.

(** Applies [f] to the parameters of every group, in the traversal order. *)
Definition map_params (f : Param -> Param) (gs : list ParamGroup)
  : list ParamGroup :=
  (fun g => {| lr := lr g; params := f <$> params g |}) <$> gs.

(** [_zero_grad], which [optimizer_zero_grad] calls: every gradient that is
    present is zeroed in place; the assertion compares [numel(p)] with
    itself and never fails. *)
Definition _zero_grad (w : t) : t :=
  set_param_groups w
    (map_params (fun p => {| data := data p;
                             grad := (fun g => zeros (length g)) <$> grad p;
                             requires_grad := requires_grad p;
                             do_sketching := do_sketching p |})
       (param_groups w)).

(** The loop of [_setGradVec] over the parameters of one group: a
    parameter without gradient is skipped and leaves the offset where it
    is; otherwise the gradient is zeroed and the slice
    [vec[startPos:startPos + size]], reshaped to the gradient, is added to
    it. *)
Fixpoint set_grads (ps : list Param) (vec : tensor) (startPos : nat)
  : option (list Param * nat) :=
  match ps with
  | [] => Some ([], startPos)
  | p :: ps' =>
      match grad p with
      | None =>
          '(ps'', startPos') ← set_grads ps' vec startPos;
          Some (p :: ps'', startPos')
      | Some g =>
          let size := length (data p) in
          let slice := take size (drop startPos vec) in
          if bool_decide (length slice = length g) then
            let p' := {| data := data p;
                         grad := Some (zip_with fadd (zeros (length g)) slice);
                         requires_grad := requires_grad p;
                         do_sketching := do_sketching p |} in
            '(ps'', startPos') ← set_grads ps' vec (startPos + size);
            Some (p' :: ps'', startPos')
          else None
      end
  end.

Fixpoint set_group_grads (gs : list ParamGroup) (vec : tensor)
    (startPos : nat) : option (list ParamGroup) :=
  match gs with
  | [] => Some []
  | g :: gs' =>
      '(ps, startPos') ← set_grads (params g) vec startPos;
      gs'' ← set_group_grads gs' vec startPos';
      Some ({| lr := lr g; params := ps |} :: gs'')
  end.

(** [_setGradVec] *)
Definition _setGradVec (w : t) (vec : tensor) : option t :=
  set_param_groups w <$> set_group_grads (param_groups w) vec 0.

(** The loop of [sync] over the parameters of one group: the data of every
    parameter is replaced by the slice [vec[startPos:startPos + size]],
    reshaped to the shape [_getGradShapes] reports (that of the gradient
    when there is one, of the data otherwise). *)
Fixpoint sync_params (ps : list Param) (vec : tensor) (startPos : nat)
  : option (list Param * nat) :=
  match ps with
  | [] => Some ([], startPos)
  | p :: ps' =>
      let size := length (data p) in
      let shape := match grad p with
                   | None => length (data p)
                   | Some g => length g
                   end in
      let slice := take size (drop startPos vec) in
      if bool_decide (length slice = shape) then
        let p' := {| data := slice; grad := grad p;
                     requires_grad := requires_grad p;
                     do_sketching := do_sketching p |} in
        '(ps'', startPos') ← sync_params ps' vec (startPos + size);
        Some (p' :: ps'', startPos')
      else None
  end.

Fixpoint sync_groups (gs : list ParamGroup) (vec : tensor) (startPos : nat)
  : option (list ParamGroup) :=
  match gs with
  | [] => Some []
  | g :: gs' =>
      '(ps, startPos') ← sync_params (params g) vec startPos;
      gs'' ← sync_groups gs' vec startPos';
      Some ({| lr := lr g; params := ps |} :: gs'')
  end.

(** [sync] *)
Definition sync (w : t) (vec : tensor) : option t :=
  set_param_groups w <$> sync_groups (param_groups w) vec 0.

(** The body of the loop of [_updateParamsWithGradVec]: a parameter without
    gradient is skipped, otherwise [p.data.add_(-p.grad.data)]. *)
Definition add_own_grad (p : Param) : option Param :=
  match grad p with
  | None => Some p
  | Some g =>
      d ← add_ (data p) (neg g);
      Some {| data := d; grad := Some g;
              requires_grad := requires_grad p;
              do_sketching := do_sketching p |}
  end.

(** [_updateParamsWithGradVec] *)
Definition _updateParamsWithGradVec (w : t) : option t :=
  set_param_groups w <$>
    mapM (fun g => ps ← mapM add_own_grad (params g);
                   Some {| lr := lr g; params := ps |}) (param_groups w).

End Worker.
End Worker.

(** ** Instances used for evaluation *)

(** Integers as scalars. *)
#[export] Instance Z_scalar : Scalar Z := {|
  fzero := 0%Z; fone := 1%Z;
  fadd := Z.add; fmul := Z.mul; fdiv := Z.div; fopp := Z.opp;
  fof_nat := Z.of_nat;
  fis_zero := fun x => Z.eqb x 0;
  fleb := Z.leb;
|}.

(** The collision-free sketch: one row, as many buckets as coordinates and
    the identity as hash, so that the table is the accumulated vector and
    every estimate is the accumulated value. *)
Module ExactSketch.
Section ExactSketch.
Context {F : Type} `{Scalar F}.

Definition zero (t : list F) : list F := Torch.zeros (length t).

Definition iadd (t x : list F) : option (list F) :=
  if bool_decide (length x = length t) then Some (zip_with fadd t x)
  else None.

(** The [m] entries of largest square, all others zero. *)
Definition unSketch (t : list F) (m : nat) : list F :=
  let idx := drop (length t - m) (Torch.sort (Torch.square t)).2 in
  Torch.put (Torch.zeros (length t)) idx
    ((fun i => default fzero (t !! i)) <$> idx).

#[export] Instance exact_sketch : CSVec F (list F) := {|
  cs_new := fun d _ _ _ => Torch.zeros d;
  cs_d := length; cs_zero := zero; cs_iadd := iadd; cs_unSketch := unSketch;
|}.
End ExactSketch.
End ExactSketch.
(** ** The coordinator: [FedSketchedModel], [FedSketchedOptimizer],
       [FedSketchedLoss] *)

(** Remote invocations [worker.method.remote(...)] are recorded in the order
    they are issued. *)
Module Ray.
Section Ray.
Context {Batch Arg : Type}.

(** A Ray actor handle. *)
Definition WorkerHandle := nat.

(** What [model_call] receives: the batch [next(iter(loader))] in
    training mode, the tuple of positional arguments otherwise. *)
Inductive Payload :=
| batch (b : Batch)
| positional (args : list Arg).

(** The invoked method with its arguments.  The arguments [*grads] of
    [all_reduce_sketched] are the futures of [compute_grad], each named by
    the worker it was issued to. *)
Inductive Method :=
| model_call (x : Payload)
| loss_call
| compute_grad
| all_reduce_sketched (grads : list WorkerHandle)
| optimizer_zero_grad.

Record RemoteCall := {
  target : WorkerHandle;
  method : Method;
}.

End Ray.
Arguments Payload : clear implicits.
Arguments Method : clear implicits.
Arguments RemoteCall : clear implicits.
End Ray.

Module FedSketchedModel.
Section FedSketchedModel.
Import Ray.
Context {Rng Loader Batch Arg : Type}.
(** [np.random]: the permutation of [arange(n)] drawn from a generator
    state, and the next state. *)
Context (np_random_permutation : Rng -> nat -> list nat * Rng).
(** [next(iter(loader))]: [StopIteration] on an exhausted loader. *)
Context (next_batch : Loader -> option Batch).
(** [np.array(client_loaders)]: the loaders held by the first argument. *)
Context (as_loaders : Arg -> option (list Loader)).

Local Abbreviation Call := (RemoteCall Batch Arg).

(** The attributes kept on the coordinator object itself. *)
Record t := {
  participation : float;
  rounds : list (list nat);
  workers : list WorkerHandle;
  training : bool;
}.

(** [self.rounds.append(idx)] *)
Definition append_round (m : t) (idx : list nat) : t :=
  {| participation := participation m; rounds := rounds m ++ [idx];
     workers := workers m; training := training m |}.

(** [train] *)
Definition train (m : t) (b : bool) : t :=
  {| participation := participation m; rounds := rounds m;
     workers := workers m; training := b |}.

(** What [__call__] returns: the outputs of the listed calls, collected
    by [ray.get], or the future of one call, not waited for. *)
Inductive Returned :=
| outputs (calls : list Call)
| future (call : Call).

(** The outcome of [__call__]: the coordinator and the generator after
    the call, the remote invocations issued, and the returned value
    ([None] when the call raised). *)
Record Outcome := {
  model : t;
  rng : Rng;
  issued : list Call;
  returned : option Returned;
}.

(** [int(num_workers * self.participation)] *)
Definition sample_size (m : t) : option Z :=
  Py.int (PrimFloat.mul (Py.float_of_nat (length (workers m)))
                        (participation m)).

(** The list comprehension of remote [model_call]s: invocations are
    issued one by one until a loader raises. *)
Fixpoint forward_calls (pairs : list (WorkerHandle * Loader))
  : list Call * bool :=
  match pairs with
  | [] => ([], true)
  | (client, loader) :: rest =>
      match next_batch loader with
      | None => ([], false)
      | Some b =>
          let '(cs, ok) := forward_calls rest in
          ({| target := client; method := model_call (batch b) |} :: cs, ok)
      end
  end.

Definition raised (m : t) (g : Rng) : Outcome :=
  {| model := m; rng := g; issued := []; returned := None |}.

(** [__call__] *)
Definition __call__ (m : t) (g : Rng) (args : list Arg) : Outcome :=
  if training m then
    let num_workers := length (workers m) in
    match sample_size m with
    | None => raised m g
    | Some size =>
        let '(perm, g') := np_random_permutation g num_workers in
        match Py.choice_no_replace perm num_workers size with
        | None => raised m g
        | Some idx =>
            match Py.take_idx (workers m) idx,
                  (a ← args !! 0; ls ← as_loaders a; Py.take_idx ls idx) with
            | Some participating_clients, Some participating_client_loaders =>
                let m' := append_round m idx in
                let '(cs, ok) :=
                  forward_calls
                    (zip participating_clients participating_client_loaders) in
                {| model := m'; rng := g'; issued := cs;
                   returned := if ok then Some (outputs cs) else None |}
            | _, _ => raised m g'
            end
        end
    end
  else
    match workers m !! 0 with
    | None => raised m g
    | Some w =>
        let c := {| target := w; method := model_call (positional args) |} in
        {| model := m; rng := g; issued := [c]; returned := Some (future c) |}
    end.

End FedSketchedModel.
End FedSketchedModel.

Module FedSketchedOptimizer.
Section FedSketchedOptimizer.
Import Ray.
Context {Batch Arg : Type}.
Local Abbreviation Call := (RemoteCall Batch Arg).

(** The optimizer keeps its own array of workers and a reference to the
    coordinator model, whose round record it reads. *)
Record t := {
  workers : list WorkerHandle;
}.

(** [_get_workers], on the coordinator model the optimizer refers to. *)
Definition _get_workers (o : t) (m : FedSketchedModel.t)
  : option (list WorkerHandle) :=
  cur_round ← Py.last_item (FedSketchedModel.rounds m);
  Py.take_idx (workers o) cur_round.

(** [_step] *)
Definition _step (train_workers update_workers : list WorkerHandle)
  : list Call :=
  let grads := train_workers in
  ((fun w => {| target := w; method := compute_grad |}) <$> train_workers)
  ++ ((fun w => {| target := w; method := all_reduce_sketched grads |})
        <$> update_workers).

(** [step]: the remote invocations issued, [None] when it raises. *)
Definition step (o : t) (m : FedSketchedModel.t) : option (list Call) :=
  train_workers ← _get_workers o m;
  head ← workers o !! 0;
  let update_workers := train_workers ++ [head] in
  Some (_step train_workers update_workers).

(** [_zero_grad] *)
Definition _zero_grad (workers : list WorkerHandle) : list Call :=
  (fun w => {| target := w; method := optimizer_zero_grad |}) <$> workers.

(** [zero_grad] *)
Definition zero_grad (o : t) (m : FedSketchedModel.t) : option (list Call) :=
  _zero_grad <$> _get_workers o m.

End FedSketchedOptimizer.
End FedSketchedOptimizer.

Module FedSketchedLoss.
Section FedSketchedLoss.
Import Ray.
Context {Batch Arg : Type}.
Local Abbreviation Call := (RemoteCall Batch Arg).

Record t := {
  workers : list WorkerHandle;
}.

(** [_get_workers] *)
Definition _get_workers (l : t) (m : FedSketchedModel.t)
  : option (list WorkerHandle) :=
  cur_round ← Py.last_item (FedSketchedModel.rounds m);
  Py.take_idx (workers l) cur_round.

(** [SketchedLossResult(results, workers)]: the loss calls whose results
    were collected, and the workers the result refers to. *)
Record SketchedLossResult := {
  results : list Call;
  result_workers : list WorkerHandle;
}.

Inductive Returned :=
| returned_None
| returned_result (r : SketchedLossResult).

Definition remote_loss (w : WorkerHandle) : Call :=
  {| target := w; method := loss_call |}.

(** [__call__], with the positional arguments and the number of keyword
    arguments: [None] when it raises ([torch.stack] of no result
    included).  The replies of the workers belong to the model
    collaborator: a result stands for the loss calls it names having
    replied with losses of one shape; a worker whose [loss_call] fails, or
    replies of unequal shapes, make the call raise, which is not
    described here. *)
Definition __call__ (l : t) (m : FedSketchedModel.t) (args : list Arg)
    (kwargs : nat) : option Returned :=
  if bool_decide (0 < kwargs) then Some returned_None
  else if bool_decide (length args = 2) then
    w ← workers l !! 0;
    Some (returned_result
            {| results := [remote_loss w]; result_workers := [w] |})
  else
    participating_clients ← _get_workers l m;
    match participating_clients with
    | [] => None
    | _ =>
        Some (returned_result
                {| results := remote_loss <$> participating_clients;
                   result_workers := participating_clients |})
    end.

End FedSketchedLoss.
End FedSketchedLoss.

(** ** Execution of the issued invocations on the workers *)

(** Each actor runs the invocations it receives in the order they were
    issued and only touches its own state; the value of a [compute_grad]
    future is the buffer returned at that time.  Running the invocations
    one after the other in issue order therefore gives the state every
    schedule ends in.  [optimizer_zero_grad] zeroes the gradients of its
    actor.  The forward and loss computations belong to the model
    collaborator and leave the state modelled here unchanged. *)
Module Cluster.
Section Cluster.
Import Ray.
Context {F T : Type} `{Scalar F} `{CSVec F T}.
Context {Batch Arg : Type}.

Record t := {
  (** the actor behind each handle *)
  actors : list (Worker.t (F:=F) (T:=T));
  (** the object store: the value of the [compute_grad] future of a worker *)
  store : list (WorkerHandle * list F);
}.

(** The most recent value stored for the future of worker [w]. *)
Definition future_value (c : t) (w : WorkerHandle) : option (list F) :=
  e ← list_find (fun e => e.1 = w) (reverse (store c)); Some e.2.2.

Definition exec (c : t) (call : RemoteCall Batch Arg) : option t :=
  match method call with
  | compute_grad =>
      w ← actors c !! target call;
      '(w', v) ← Worker.compute_grad w;
      Some {| actors := <[target call := w']> (actors c);
              store := store c ++ [(target call, v)] |}
  | all_reduce_sketched grads =>
      w ← actors c !! target call;
      gs ← mapM (future_value c) grads;
      w' ← Worker.all_reduce_sketched w gs;
      Some {| actors := <[target call := w']> (actors c);
              store := store c |}
  | optimizer_zero_grad =>
      w ← actors c !! target call;
      Some {| actors := <[target call := Worker._zero_grad w]> (actors c);
              store := store c |}
  | model_call _ | loss_call => Some c
  end.

Fixpoint run (c : t) (calls : list (RemoteCall Batch Arg)) : option t :=
  match calls with
  | [] => Some c
  | call :: calls' => c' ← exec c call; run c' calls'
  end.

End Cluster.
End Cluster.

(** ** Notions used by the statements *)

Section Notions.
Context {F : Type} `{Scalar F}.

(** Coordinate [i] of [t] exists and is not zero. *)
Definition nonzero_at (t : list F) (i : nat) : Prop :=
  exists x, t !! i = Some x /\ fis_zero x = false.

(** The sum of coordinate [i] over the rows, first row first; defined
    when there is a row and every row has the coordinate. *)
Definition col_sum (rows : list (list F)) (i : nat) : option F :=
  xs ← mapM (fun r => r !! i) rows;
  match xs with
  | [] => None
  | x :: xs' => Some (foldl fadd x xs')
  end.

(** The number of selected positions before position [i]: where the
    selected coordinate [i] sits in the sub-vector [t[mask]]. *)
Definition rank (m : list bool) (i : nat) : nat :=
  Torch.mask_count (take i m).

(** The coordinate of the full vector that entry [j] of [t[mask]] comes
    from: the position of the [j]-th selected coordinate. *)
Fixpoint unrank (m : list bool) (j : nat) : option nat :=
  match m with
  | [] => None
  | true :: m' =>
      match j with
      | O => Some 0
      | S j' => S <$> unrank m' j'
      end
  | false :: m' => S <$> unrank m' j
  end.

(** The candidate vector as the specification describes it: [d] entries,
    every candidate carrying the exact sum of its own coordinate of the
    full vectors over the contributed vectors, every other entry zero. *)
Definition spec_exact_candidates (m : list bool) (grads : list (list F))
    (coords : list nat) (d : nat) : list F :=
  (fun j => if bool_decide (j ∈ coords)
            then default fzero (i ← unrank m j; col_sum grads i)
            else fzero) <$> seq 0 d.

(** The sketched portion of the update as the specification describes it:
    the [k] entries of largest square of the exact-valued candidates. *)
Definition spec_sketched_portion (m : list bool) (k : nat)
    (grads : list (list F)) (coords : list nat) : list F :=
  Worker._topk (spec_exact_candidates m grads coords (Torch.mask_count m)) k.

(** The order [torch.sort] relies on. *)
Class ScalarOrder : Prop := {
  fis_zero_fzero : fis_zero fzero = true;
  fleb_total : forall x y, fleb x y = true \/ fleb y x = true;
  fleb_trans : forall x y z,
    fleb x y = true -> fleb y z = true -> fleb x z = true;
}.

(** The indices [topkIndices] that [_topk] keeps. *)
Definition topk_indices (vec : list F) (k : nat) : list nat :=
  Py.slice_last k (Torch.sort (Torch.square vec)).2.

(** Ascending in value, and by index among equal values. *)
Definition sort_le (p q : F * nat) : Prop :=
  fleb p.1 q.1 = true /\ (fleb q.1 p.1 = true -> p.2 < q.2).
End Notions.
Arguments ScalarOrder F {_}.

Section CoordinatorNotions.
Import Ray.
Context {Batch Arg : Type}.

Definition is_aggregation (c : RemoteCall Batch Arg) : bool :=
  match method c with
  | all_reduce_sketched _ => true
  | _ => false
  end.

(** How many times [all_reduce_sketched] is invoked on worker [x]. *)
Definition aggregations_on (x : WorkerHandle)
    (calls : list (RemoteCall Batch Arg)) : nat :=
  length (filter (fun c => target c = x /\ is_aggregation c = true) calls).

(** The argument lists of the issued [all_reduce_sketched] calls. *)
Definition aggregation_inputs (calls : list (RemoteCall Batch Arg))
  : list (list WorkerHandle) :=
  omap (fun c => match method c with
                 | all_reduce_sketched grads => Some grads
                 | _ => None
                 end) calls.
End CoordinatorNotions.

(** The shape invariant of a worker bound to an optimizer all of whose
    parameters require a gradient. *)
Section WellFormed.
Context {F T : Type} `{Scalar F} `{CSVec F T}.
Import Worker.

Definition numel (p : Param (F:=F)) : nat := length (data p).

Record wf (w : Worker.t (F:=F) (T:=T)) : Prop := {
  wf_u : length (u w) = grad_size w;
  wf_v : length (v w) = grad_size w;
  wf_mask : length (sketch_mask w) = grad_size w;
  wf_sketch : cs_d (sketch w) = Torch.mask_count (sketch_mask w);
  wf_params : all_params (param_groups w) <> [];
  wf_size : sum_list (numel <$> all_params (param_groups w)) = grad_size w;
  wf_grads :
    Forall (fun p => match grad p with
                     | Some g => length g = length (data p)
                     | None => True
                     end) (all_params (param_groups w));
}.

(** A parameter after an update: same size, same gradient. *)
Definition same_shape (p p' : Param (F:=F)) : Prop :=
  numel p' = numel p /\ grad p' = grad p.

(** What [_setGradVec] changes in a parameter: the values of a gradient
    that is present, nothing else. *)
Definition regrad (p p' : Param (F:=F)) : Prop :=
  data p' = data p /\ length <$> grad p' = length <$> grad p.
End WellFormed.

Section UpdateNotions.
Context {F : Type} `{Scalar F}.

(** The new entry of a parameter for the entry [y] of the scaled update:
    [p.data.add_(-weight_update[...])]. *)
Definition descend (x y : F) : F := fadd x (fopp y).
End UpdateNotions.

(** ** Concrete configurations *)

Module Examples.
Import Ray ExactSketch.

(** A generator that draws the reversed range and counts its draws. *)
Definition reversing (g : nat) (n : nat) : list nat * nat :=
  (reverse (seq 0 n), S g).

(** Loaders are named by numbers; the batch of a loader is its name. *)
Definition next_batch (l : nat) : option nat := Some l.
Definition as_loaders (a : list nat) : option (list nat) := Some a.

Definition forward :=
  FedSketchedModel.__call__ (Batch:=nat) reversing next_batch as_loaders.

(** Three workers, half of them participating. *)
Definition three_workers : FedSketchedModel.t :=
  {| FedSketchedModel.participation := 0.5%float;
     FedSketchedModel.rounds := [];
     FedSketchedModel.workers := [10; 11; 12];
     FedSketchedModel.training := true |}.

(** Four workers, half of them participating, one round done. *)
Definition four_workers : FedSketchedModel.t :=
  {| FedSketchedModel.participation := 0.5%float;
     FedSketchedModel.rounds := [[0; 1]];
     FedSketchedModel.workers := [10; 11; 12; 13];
     FedSketchedModel.training := true |}.

Definition optimizer : FedSketchedOptimizer.t :=
  {| FedSketchedOptimizer.workers := [10; 11; 12; 13] |}.

Definition criterion : FedSketchedLoss.t :=
  {| FedSketchedLoss.workers := [10; 11; 12; 13] |}.

(** A model with a one-entry weight, its bias, and a second one-entry
    weight; the bias is not sketched ([sketch_biases=False]). *)
Definition tiny_model (w1 b1 w2 : Z) (g : list Z) : list (Worker.Param (F:=Z)) :=
  [ {| Worker.data := [w1]; Worker.grad := (fun x => [x]) <$> g !! 0;
       Worker.requires_grad := true; Worker.do_sketching := true |};
    {| Worker.data := [b1]; Worker.grad := (fun x => [x]) <$> g !! 1;
       Worker.requires_grad := true; Worker.do_sketching := false |};
    {| Worker.data := [w2]; Worker.grad := (fun x => [x]) <$> g !! 2;
       Worker.requires_grad := true; Worker.do_sketching := true |} ].

(** The attributes set by [__init__]; the optimizer-bound ones are
    placeholders until [set_optimizer] runs. *)
Definition unbound (k p2 : nat) (momentum weight_decay : Z) (nesterov : bool)
  : Worker.t (F:=Z) (T:=list Z) :=
  {| Worker.num_workers := 2; Worker.k := k; Worker.p2 := p2;
     Worker.num_cols := 3; Worker.num_rows := 1; Worker.num_blocks := 1;
     Worker.momentum := momentum; Worker.weight_decay := weight_decay;
     Worker.nesterov := nesterov;
     Worker.param_groups := []; Worker.grad_size := 0;
     Worker.sketch_mask := []; Worker.sketch := [];
     Worker.u := []; Worker.v := [] |}.

Definition bound (w : Worker.t (F:=Z) (T:=list Z))
    (model : list (Worker.Param (F:=Z))) : Worker.t (F:=Z) (T:=list Z) :=
  default w (Worker.set_optimizer w model 1%Z).

(** A worker with budget [k = 1], [p2 = 1] on the tiny model. *)
Definition worker : Worker.t (F:=Z) (T:=list Z) :=
  bound (unbound 1 1 2%Z 0%Z false) (tiny_model 10 20 30 [1; 2; 3]%Z).

(** The same configuration with other parameters, buffers and sketch
    contents. *)
Definition other_worker : Worker.t (F:=Z) (T:=list Z) :=
  Worker.set_sketch
    (Worker.set_u_v
       (bound (unbound 1 1 5%Z 7%Z true) (tiny_model 1 1 1 [4; 5; 6]%Z))
       [3; 1; 4]%Z [1; 5; 9]%Z)
    [8; 8]%Z.

(** A worker with weight decay and Nesterov momentum, after one step. *)
Definition nesterov_worker : Worker.t (F:=Z) (T:=list Z) :=
  Worker.set_u_v
    (bound (unbound 1 1 3%Z 4%Z true) (tiny_model 10 20 30 [1; 2; 3]%Z))
    [1; 1; 1]%Z [5; 6; 7]%Z.

(** One contributed vector. *)
Definition one_grad : list (list Z) := [[1; 2; 3]%Z].

(** Two contributed vectors. *)
Definition two_grads : list (list Z) := [[1; 2; 3]%Z; [10; 20; -40]%Z].

(** Two workers with the same parameters, both sampled. *)
Definition two_actors : Cluster.t (F:=Z) (T:=list Z) :=
  {| Cluster.actors := [worker; worker]; Cluster.store := [] |}.

Definition both_sampled : FedSketchedModel.t :=
  {| FedSketchedModel.participation := 1%float;
     FedSketchedModel.rounds := [[1; 0]];
     FedSketchedModel.workers := [0; 1];
     FedSketchedModel.training := true |}.

Definition two_worker_optimizer : FedSketchedOptimizer.t :=
  {| FedSketchedOptimizer.workers := [0; 1] |}.

(** The state after applying the update [[0; 4; 4]]. *)
Definition updated_worker : Worker.t (F:=Z) (T:=list Z) :=
  default nesterov_worker (Worker._apply_update nesterov_worker [0; 4; 4]%Z).

(** The flattened parameters of an actor. *)
Definition params_of (c : Cluster.t (F:=Z) (T:=list Z)) (h : WorkerHandle)
  : option (list Z) :=
  w ← Cluster.actors c !! h; Worker._getParamVec w.

End Examples.

(** Further data: workers that drifted apart, a model with a frozen
    parameter, a loader that is exhausted, a participation rate that
    samples nobody. *)
Module MoreExamples.
Import Ray ExactSketch Examples.

(** The parameter group [set_optimizer] creates for the tiny model. *)
Definition tiny_group : Worker.ParamGroup (F:=Z) :=
  {| Worker.lr := 1%Z; Worker.params := tiny_model 10 20 30 [1; 2; 3]%Z |}.

(** A replica of [worker] with the same parameters, but other gradients,
    momentum settings and buffers. *)
Definition drifted_worker : Worker.t (F:=Z) (T:=list Z) :=
  Worker.set_u_v
    (bound (unbound 1 1 5%Z 7%Z true) (tiny_model 10 20 30 [4; 5; 6]%Z))
    [3; 1; 4]%Z [1; 5; 9]%Z.

Definition drifted_group : Worker.ParamGroup (F:=Z) :=
  {| Worker.lr := 1%Z; Worker.params := tiny_model 10 20 30 [4; 5; 6]%Z |}.

(** The two replicas after the same aggregation. *)
Definition aggregated_worker : Worker.t (F:=Z) (T:=list Z) :=
  default worker (Worker.all_reduce_sketched worker two_grads).

Definition aggregated_drifted : Worker.t (F:=Z) (T:=list Z) :=
  default drifted_worker (Worker.all_reduce_sketched drifted_worker two_grads).

(** A worker with budget [k = 1] and [p2 = 2] on the tiny model: both
    sketched coordinates are recovered as candidates. *)
Definition wide_worker : Worker.t (F:=Z) (T:=list Z) :=
  bound (unbound 1 2 2%Z 0%Z false) (tiny_model 10 20 30 [1; 2; 3]%Z).

(** One contributed vector whose dense coordinate 1 outweighs both
    sketched coordinates. *)
Definition misleading_grad : list (list Z) := [[5; 9; 3]%Z].

(** The tiny model with its bias frozen. *)
Definition frozen_model : list (Worker.Param (F:=Z)) :=
  [ {| Worker.data := [10%Z]; Worker.grad := Some [1%Z];
       Worker.requires_grad := true; Worker.do_sketching := true |};
    {| Worker.data := [20%Z]; Worker.grad := None;
       Worker.requires_grad := false; Worker.do_sketching := false |};
    {| Worker.data := [30%Z]; Worker.grad := Some [3%Z];
       Worker.requires_grad := true; Worker.do_sketching := true |} ].

Definition frozen_worker : Worker.t (F:=Z) (T:=list Z) :=
  bound (unbound 1 1 2%Z 0%Z false) frozen_model.

(** Loader 102 is exhausted. *)
Definition next_batch_but_102 (l : nat) : option nat :=
  if bool_decide (l = 102) then None else Some l.

Definition forward_but_102 :=
  FedSketchedModel.__call__ (Batch:=nat) reversing next_batch_but_102
    as_loaders.

(** Three workers and a participation rate of one eighth. *)
Definition eighth_of_three : FedSketchedModel.t :=
  {| FedSketchedModel.participation := 0.125%float;
     FedSketchedModel.rounds := [[0]];
     FedSketchedModel.workers := [10; 11; 12];
     FedSketchedModel.training := true |}.

(** The invocations of the step of [two_worker_optimizer] on the round
    [[1; 0]]. *)
Definition both_sampled_step : list (RemoteCall nat (list nat)) :=
  [ {| target := 1; method := compute_grad |};
    {| target := 0; method := compute_grad |};
    {| target := 1; method := all_reduce_sketched [1; 0] |};
    {| target := 0; method := all_reduce_sketched [1; 0] |};
    {| target := 0; method := all_reduce_sketched [1; 0] |} ].

(** What the forward call of [four_workers] returns. *)
Definition four_workers_outputs
  : FedSketchedModel.Returned (Batch:=nat) (Arg:=list nat) :=
  FedSketchedModel.outputs
    [ {| target := 13; method := model_call (batch 103) |};
      {| target := 12; method := model_call (batch 102) |} ].

End MoreExamples.

(** Destructs the first binding of a computation that returned. *)
Ltac bind_inv Hrun x Hx :=
  match type of Hrun with
  | (?m ≫= _) = Some _ =>
      destruct m as [x|] eqn:Hx; [simpl in Hrun|discriminate Hrun]
  end.

(** ** Facts on tensors *)

Section TorchFacts.
Context {F : Type} `{Scalar F}.
Import Torch.
Implicit Types (t vals : list F) (m : list bool) (idx : list nat).

Lemma length_zeros n : length (zeros n) = n.
Proof. apply length_replicate. Qed.

Lemma lookup_zeros n i : i < n -> zeros n !! i = Some fzero.
Proof. apply lookup_replicate_2. Qed.

Lemma elem_of_nonzero_from t n i :
  i ∈ nonzero_from n t <-> n <= i /\ nonzero_at t (i - n).
Proof.
  revert n. induction t as [|x t IH]; intros n; simpl.
  - split; [intros Hi; inversion Hi|].
    intros [_ (y & Hy & _)]. by rewrite lookup_nil in Hy.
  - destruct (fis_zero x) eqn:Hx.
    + rewrite IH. split.
      * intros [Hn (y & Hy & Hz)]. split; [lia|].
        exists y. split; [|done].
        replace (i - n) with (S (i - S n)) by lia. done.
      * intros [Hn (y & Hy & Hz)].
        destruct (decide (i = n)) as [->|Hne].
        { rewrite Nat.sub_diag in Hy. simpl in Hy. congruence. }
        split; [lia|]. exists y. split; [|done].
        replace (i - n) with (S (i - S n)) in Hy by lia. done.
    + rewrite elem_of_cons, IH. split.
      * intros [->|[Hn (y & Hy & Hz)]].
        { split; [lia|]. exists x. by rewrite Nat.sub_diag. }
        split; [lia|]. exists y.
        replace (i - n) with (S (i - S n)) by lia. done.
      * intros [Hn (y & Hy & Hz)].
        destruct (decide (i = n)) as [->|Hne]; [by left|right].
        split; [lia|]. exists y.
        replace (i - n) with (S (i - S n)) in Hy by lia. done.
Qed.

Lemma elem_of_nonzero t i : i ∈ nonzero t <-> nonzero_at t i.
Proof.
  unfold nonzero. rewrite elem_of_nonzero_from, Nat.sub_0_r.
  split; [tauto|]. split; [lia|done].
Qed.

Lemma nonzero_lt t i : i ∈ nonzero t -> i < length t.
Proof.
  rewrite elem_of_nonzero. intros (x & Hx & _).
  by apply lookup_lt_Some in Hx.
Qed.

Lemma NoDup_nonzero_from t n : NoDup (nonzero_from n t).
Proof.
  revert n. induction t as [|x t IH]; intros n; simpl; [constructor|].
  destruct (fis_zero x); [done|].
  constructor; [|done]. rewrite elem_of_nonzero_from. lia.
Qed.

Lemma NoDup_nonzero t : NoDup (nonzero t).
Proof. apply NoDup_nonzero_from. Qed.

Lemma length_nonzero_from t n : length (nonzero_from n t) <= length t.
Proof.
  revert n. induction t as [|x t IH]; intros n; simpl; [done|].
  specialize (IH (S n)). destruct (fis_zero x); simpl; lia.
Qed.

(** *** Indexed assignment *)

Lemma length_put t idx vals : length (put t idx vals) = length t.
Proof.
  revert t vals. induction idx as [|i idx IH]; intros t [|x vals]; simpl;
    try done.
  by rewrite IH, length_insert.
Qed.

Lemma put_lookup_notin t idx vals i :
  i ∉ idx -> put t idx vals !! i = t !! i.
Proof.
  revert t vals. induction idx as [|j idx IH]; intros t [|x vals] Hi;
    simpl; try done.
  rewrite not_elem_of_cons in Hi. destruct Hi as [Hne Hi].
  rewrite IH by done. by apply list_lookup_insert_ne.
Qed.

Lemma put_lookup_nodup t idx vals p i x :
  NoDup idx -> idx !! p = Some i -> vals !! p = Some x -> i < length t ->
  put t idx vals !! i = Some x.
Proof.
  revert t vals p. induction idx as [|j idx IH]; intros t vals p Hnd Hp Hx Hi.
  { by rewrite lookup_nil in Hp. }
  destruct vals as [|y vals]; [by rewrite lookup_nil in Hx|].
  apply NoDup_cons in Hnd as [Hj Hnd]. simpl.
  destruct p as [|p]; simpl in Hp, Hx.
  - injection Hp as ->. injection Hx as ->.
    rewrite put_lookup_notin by done. by apply list_lookup_insert_eq.
  - apply (IH _ _ p); try done. by rewrite length_insert.
Qed.

Lemma put_replicate_lookup t idx x i :
  i ∈ idx -> i < length t ->
  put t idx (replicate (length idx) x) !! i = Some x.
Proof.
  revert t. induction idx as [|j idx IH]; intros t Hi Hlt.
  { inversion Hi. }
  simpl. destruct (decide (i ∈ idx)) as [Hin|Hnin].
  - apply IH; [done|]. by rewrite length_insert.
  - rewrite put_lookup_notin by done.
    apply elem_of_cons in Hi as [->|Hi]; [|done].
    by apply list_lookup_insert_eq.
Qed.

Lemma broadcast_to_same n vals :
  length vals = n -> broadcast_to n vals = Some vals.
Proof. intros Hl. unfold broadcast_to. by rewrite bool_decide_eq_true_2. Qed.

Lemma broadcast_to_length n vals vals' :
  broadcast_to n vals = Some vals' -> length vals' = n.
Proof.
  unfold broadcast_to. case_bool_decide as Hl.
  - by intros [= <-].
  - destruct vals as [|x [|]]; try done. intros [= <-].
    apply length_replicate.
Qed.

Lemma index_put_Some t idx vals t' :
  index_put t idx vals = Some t' ->
  exists vals',
    broadcast_to (length idx) vals = Some vals' /\
    t' = put t idx vals' /\ Forall (fun i => i < length t) idx.
Proof.
  unfold index_put. intros Hrun.
  destruct (broadcast_to (length idx) vals) as [vals'|]; [|done].
  simpl in Hrun. case_bool_decide as Hc; [|done].
  injection Hrun as <-. by exists vals'.
Qed.

Lemma index_put_total t idx vals :
  length vals = length idx -> Forall (fun i => i < length t) idx ->
  index_put t idx vals = Some (put t idx vals).
Proof.
  intros Hl Hall. unfold index_put. rewrite broadcast_to_same by done.
  simpl. by rewrite bool_decide_eq_true_2.
Qed.

Lemma index_fill_Some t idx x t' :
  index_fill t idx x = Some t' ->
  t' = put t idx (replicate (length idx) x) /\
  Forall (fun i => i < length t) idx.
Proof.
  unfold index_fill. intros (vals' & Hb & -> & Hall)%index_put_Some.
  rewrite broadcast_to_same in Hb by apply length_replicate.
  by injection Hb as <-.
Qed.

(** [t[idx] = x]: the listed coordinates hold [x], the others are kept. *)
Lemma index_fill_lookup t idx x t' i :
  index_fill t idx x = Some t' ->
  t' !! i = if decide (i ∈ idx) then Some x else t !! i.
Proof.
  intros [-> Hall]%index_fill_Some.
  destruct (decide (i ∈ idx)) as [Hi|Hi].
  - apply put_replicate_lookup; [done|].
    by apply (proj1 (Forall_forall _ _) Hall).
  - by apply put_lookup_notin.
Qed.

Lemma index_fill_length t idx x t' :
  index_fill t idx x = Some t' -> length t' = length t.
Proof.
  intros [-> _]%index_fill_Some. apply length_put.
Qed.

Lemma index_fill_is_Some t idx x :
  Forall (fun i => i < length t) idx -> is_Some (index_fill t idx x).
Proof.
  intros Hall. unfold index_fill.
  rewrite index_put_total; [done| |done]. apply length_replicate.
Qed.

(** [t[mask] = x] *)
Lemma mask_fill_lookup t m x t' i :
  mask_fill t m x = Some t' ->
  length t' = length t /\
  t' !! i = match m !! i with
            | Some true => Some x
            | _ => t !! i
            end.
Proof.
  unfold mask_fill. case_bool_decide as Hlen; [|done]. intros [= <-].
  split; [rewrite length_zip_with; lia|].
  rewrite lookup_zip_with.
  destruct (t !! i) as [y|] eqn:Hy; simpl.
  - destruct (m !! i) as [[]|] eqn:Hm; simpl; try done.
    apply lookup_lt_Some in Hy. apply lookup_ge_None in Hm. lia.
  - destruct (m !! i) as [[]|] eqn:Hm; try done.
    apply lookup_lt_Some in Hm. apply lookup_ge_None in Hy. lia.
Qed.

Lemma length_mask_not m : length (mask_not m) = length m.
Proof. apply length_fmap. Qed.

Lemma lookup_mask_not m i : mask_not m !! i = negb <$> m !! i.
Proof. apply list_lookup_fmap. Qed.


(** *** Masks *)

Lemma mask_count_cons (b : bool) m :
  mask_count (b :: m) = if b then S (mask_count m) else mask_count m.
Proof. unfold mask_count. by destruct b. Qed.

Lemma rank_0 m : rank m 0 = 0.
Proof. done. Qed.

Lemma rank_S (b : bool) m i :
  rank (b :: m) (S i) = if b then S (rank m i) else rank m i.
Proof. unfold rank. simpl. apply mask_count_cons. Qed.

Lemma length_select t m :
  length t = length m -> length (select t m) = mask_count m.
Proof.
  revert m. induction t as [|x t IH]; intros [|b m] Hlen; simpl in *;
    try done.
  rewrite mask_count_cons. destruct b; simpl; rewrite IH; lia.
Qed.

Lemma select_lookup t m i :
  length t = length m -> m !! i = Some true ->
  select t m !! rank m i = t !! i.
Proof.
  revert m i. induction t as [|x t IH]; intros [|b m] i Hlen Hi;
    simpl in *; try done.
  destruct i as [|i]; simpl in Hi.
  - by injection Hi as ->.
  - rewrite rank_S. destruct b; simpl; apply IH; auto with lia.
Qed.

Lemma length_scatter t m vals : length (scatter t m vals) = length t.
Proof.
  revert m vals. induction t as [|x t IH]; intros [|b m] vals; simpl;
    try done.
  destruct b; [destruct vals|]; simpl; by rewrite IH.
Qed.

Lemma scatter_lookup_false t m vals i :
  m !! i = Some false -> scatter t m vals !! i = t !! i.
Proof.
  revert m vals i. induction t as [|x t IH]; intros [|b m] vals i Hi;
    simpl in *; try done.
  destruct i as [|i]; simpl in Hi.
  - by injection Hi as ->.
  - destruct b; [destruct vals|]; simpl; by apply IH.
Qed.

Lemma scatter_lookup_true t m vals i :
  length t = length m -> length vals = mask_count m ->
  m !! i = Some true ->
  scatter t m vals !! i = vals !! rank m i.
Proof.
  revert m vals i. induction t as [|x t IH]; intros [|b m] vals i Hlen Hv Hi;
    simpl in *; try done.
  rewrite mask_count_cons in Hv.
  destruct i as [|i]; simpl in Hi.
  - injection Hi as ->. by destruct vals.
  - rewrite rank_S. destruct b.
    + destruct vals as [|y vals]; [done|]. simpl in *.
      apply IH; auto with lia.
    + simpl. apply IH; auto with lia.
Qed.

Lemma mask_put_Some t m vals t' :
  mask_put t m vals = Some t' ->
  exists vals',
    broadcast_to (mask_count m) vals = Some vals' /\
    t' = scatter t m vals' /\ length m = length t.
Proof.
  unfold mask_put. case_bool_decide as Hc; [|done]. intros Hrun.
  destruct (broadcast_to (mask_count m) vals) as [vals'|]; [|done].
  injection Hrun as <-. by exists vals'.
Qed.

Lemma mask_put_total t m vals :
  length m = length t -> length vals = mask_count m ->
  mask_put t m vals = Some (scatter t m vals).
Proof.
  intros Hm Hv. unfold mask_put.
  by rewrite bool_decide_eq_true_2, broadcast_to_same.
Qed.

Lemma mask_select_Some t m x :
  mask_select t m = Some x -> x = select t m /\ length m = length t.
Proof.
  unfold mask_select. case_bool_decide as Hc; [|done].
  intros [= <-]. tauto.
Qed.

(** Reading back what was written through the same mask. *)
Lemma select_scatter t m vals :
  length t = length m -> length vals = mask_count m ->
  select (scatter t m vals) m = vals.
Proof.
  revert m vals. induction t as [|x t IH]; intros [|b m] vals Hlen Hv;
    simpl in *; try done.
  - by destruct vals.
  - rewrite mask_count_cons in Hv. destruct b.
    + destruct vals as [|y vals]; [done|]. simpl in *.
      f_equal. apply IH; lia.
    + apply IH; lia.
Qed.

(** Writing through the complementary mask is not seen through the mask. *)
Lemma select_scatter_not t m vals :
  select (scatter t (mask_not m) vals) m = select t m.
Proof.
  revert m vals. induction t as [|x t IH]; intros [|b m] vals; simpl;
    try done.
  destruct b; simpl.
  - f_equal. apply IH.
  - destruct vals; simpl; apply IH.
Qed.

(** *** Sums over stacked rows *)

Lemma foldl_zip_with_lookup (rs : list (list F)) (r0 : list F) j :
  foldl (zip_with fadd) r0 rs !! j =
    x ← r0 !! j; xs ← mapM (fun r => r !! j) rs; Some (foldl fadd x xs).
Proof.
  revert r0. induction rs as [|r1 rs IH]; intros r0; simpl.
  - by destruct (r0 !! j).
  - rewrite IH, lookup_zip_with.
    destruct (r0 !! j) as [a|]; simpl; [|done].
    destruct (r1 !! j) as [b|]; simpl; [|done].
    by destruct (mapM (fun r => r !! j) rs).
Qed.

Lemma stack_sum_lookup (rows : list (list F)) r j :
  stack_sum rows = Some r -> r !! j = col_sum rows j.
Proof.
  unfold stack_sum, col_sum. destruct rows as [|r0 rs]; [done|].
  case_bool_decide; [|done]. intros [= <-].
  rewrite foldl_zip_with_lookup. simpl.
  destruct (r0 !! j) as [a|]; simpl; [|done].
  by destruct (mapM (fun r => r !! j) rs).
Qed.

Lemma stack_sum_length (rows : list (list F)) r :
  stack_sum rows = Some r -> Forall (fun r' => length r' = length r) rows.
Proof.
  unfold stack_sum. destruct rows as [|r0 rs]; [done|].
  case_bool_decide as Hall; [|done]. intros [= <-].
  assert (Hlen : length (foldl (zip_with fadd) r0 rs) = length r0).
  { clear -Hall. revert r0 Hall. induction rs as [|r1 rs IH]; intros r0 Hall;
      simpl; [done|].
    apply Forall_cons in Hall as [H1 Hall].
    rewrite IH; rewrite length_zip_with; [lia|].
    eapply Forall_impl; [done|]. simpl. lia. }
  rewrite Hlen. constructor; [done|done].
Qed.

Lemma stack_sum_is_Some (r0 : list F) (rs : list (list F)) :
  Forall (fun r' => length r' = length r0) rs -> is_Some (stack_sum (r0 :: rs)).
Proof. intros Hall. simpl. by rewrite bool_decide_eq_true_2. Qed.

End TorchFacts.

(** ** Facts on [torch.sort] and [_topk] *)

Section SortFacts.
Context {F : Type} `{Scalar F}.
Import Torch.

Lemma insert_sorted_perm (p : F * nat) l : insert_sorted p l ≡ₚ p :: l.
Proof.
  induction l as [|q l IH]; simpl; [done|].
  destruct (fleb p.1 q.1); [done|].
  rewrite IH. apply perm_swap.
Qed.

Lemma sort_pairs_perm (l : list (F * nat)) : sort_pairs l ≡ₚ l.
Proof.
  induction l as [|p l IH]; simpl; [done|].
  by rewrite insert_sorted_perm, IH.
Qed.

Lemma sort_indices_perm (t : list F) : (sort t).2 ≡ₚ seq 0 (length t).
Proof.
  unfold sort. simpl. rewrite sort_pairs_perm.
  rewrite snd_zip; [done|]. by rewrite length_seq.
Qed.

Lemma sort_indices_NoDup (t : list F) : NoDup (sort t).2.
Proof. rewrite sort_indices_perm. apply NoDup_seq. Qed.

Lemma sort_indices_lt (t : list F) i : i ∈ (sort t).2 <-> i < length t.
Proof. rewrite sort_indices_perm, elem_of_seq. lia. Qed.

Lemma sort_indices_length (t : list F) : length (sort t).2 = length t.
Proof. by rewrite sort_indices_perm, length_seq. Qed.

(** Every sorted pair is an entry of the tensor with its index. *)
Lemma sort_pairs_entries (t : list F) x i :
  (x, i) ∈ sort_pairs (zip t (seq 0 (length t))) -> t !! i = Some x.
Proof.
  rewrite sort_pairs_perm. intros (j & Hj)%list_elem_of_lookup.
  apply lookup_zip_Some in Hj as [Hx Hi].
  apply lookup_seq in Hi as [-> _]. done.
Qed.

Section Ordered.
Context `{!ScalarOrder F}.

Lemma insert_sorted_sorted (p : F * nat) l :
  StronglySorted sort_le l -> Forall (fun q => p.2 < q.2) l ->
  StronglySorted sort_le (insert_sorted p l).
Proof.
  induction l as [|q l IH]; intros Hs Hidx; simpl.
  { repeat constructor. }
  apply StronglySorted_inv in Hs as [Hs Hq].
  apply Forall_cons in Hidx as [Hpq Hidx].
  destruct (fleb p.1 q.1) eqn:Hle.
  - constructor; [by constructor|].
    constructor; [by split|].
    apply Forall_forall. intros r Hr.
    pose proof (proj1 (Forall_forall _ _) Hq r Hr) as [Hqr _].
    pose proof (proj1 (Forall_forall _ _) Hidx r Hr) as Hpr.
    split; [|done]. by eapply fleb_trans.
  - constructor; [by apply IH|].
    rewrite insert_sorted_perm. constructor; [|done].
    split; [|congruence].
    destruct (fleb_total p.1 q.1); [congruence|done].
Qed.

Lemma sort_pairs_sorted (l : list (F * nat)) :
  StronglySorted (fun p q => p.2 < q.2) l ->
  StronglySorted sort_le (sort_pairs l).
Proof.
  induction l as [|p l IH]; intros Hs; simpl; [constructor|].
  apply StronglySorted_inv in Hs as [Hs Hp].
  apply insert_sorted_sorted; [by apply IH|].
  by rewrite sort_pairs_perm.
Qed.

Lemma zip_seq_increasing (t : list F) j :
  StronglySorted (fun p q : F * nat => p.2 < q.2) (zip t (seq j (length t))).
Proof.
  revert j. induction t as [|x t IH]; intros j; simpl; [constructor|].
  constructor; [apply IH|].
  apply Forall_forall. intros [y i] Hin. simpl.
  apply elem_of_zip_r, elem_of_seq in Hin. lia.
Qed.

Lemma sort_sorted (t : list F) :
  StronglySorted sort_le (sort_pairs (zip t (seq 0 (length t)))).
Proof. apply sort_pairs_sorted, zip_seq_increasing. Qed.
End Ordered.

(** *** [_topk] *)

Lemma slice_last_suffix {A} k (l : list A) :
  exists pre, l = pre ++ Py.slice_last k l.
Proof.
  destruct k as [|k]; simpl.
  - by exists [].
  - exists (take (length l - S k) l). by rewrite take_drop.
Qed.

Lemma slice_last_length {A} k (l : list A) :
  0 < k -> length (Py.slice_last k l) = k `min` length l.
Proof.
  intros Hk. destruct k as [|k]; [lia|].
  unfold Py.slice_last. rewrite length_drop. lia.
Qed.

Lemma topk_indices_NoDup (vec : list F) k : NoDup (topk_indices vec k).
Proof.
  unfold topk_indices.
  destruct (slice_last_suffix k (sort (square vec)).2) as [pre Hpre].
  pose proof (sort_indices_NoDup (square vec)) as Hnd.
  rewrite Hpre in Hnd. by apply NoDup_app in Hnd as (_ & _ & Hnd).
Qed.

Lemma topk_indices_lt (vec : list F) k i :
  i ∈ topk_indices vec k -> i < length vec.
Proof.
  unfold topk_indices. intros Hi.
  destruct (slice_last_suffix k (sort (square vec)).2) as [pre Hpre].
  assert (Hin : i ∈ (sort (square vec)).2).
  { rewrite Hpre. apply elem_of_app. by right. }
  apply sort_indices_lt in Hin. unfold square in Hin.
  by rewrite length_fmap in Hin.
Qed.

Lemma topk_indices_length (vec : list F) k :
  0 < k -> length (topk_indices vec k) = k `min` length vec.
Proof.
  intros Hk. unfold topk_indices.
  rewrite slice_last_length, sort_indices_length by done.
  unfold square. by rewrite length_fmap.
Qed.

(** When some index is left out, the budget is used in full. *)
Lemma topk_indices_full (vec : list F) k j :
  j < length vec -> j ∉ topk_indices vec k ->
  length (topk_indices vec k) = k.
Proof.
  intros Hj Hnin.
  assert (Hin : j ∈ (sort (square vec)).2).
  { apply sort_indices_lt. unfold square. by rewrite length_fmap. }
  destruct k as [|k]; [done|].
  rewrite topk_indices_length by lia.
  destruct (decide (S k < length vec)) as [|Hge]; [lia|].
  exfalso. apply Hnin. unfold topk_indices, Py.slice_last.
  rewrite sort_indices_length. unfold square at 1. rewrite length_fmap.
  replace (length vec - S k) with 0 by lia. done.
Qed.

Lemma length_topk (vec : list F) k : length (Worker._topk vec k) = length vec.
Proof. unfold Worker._topk. by rewrite length_put, length_zeros. Qed.

(** The kept coordinates carry the entry of [vec], all others are zero. *)
Lemma topk_lookup (vec : list F) k i :
  i < length vec ->
  Worker._topk vec k !! i =
    if decide (i ∈ topk_indices vec k) then vec !! i else Some fzero.
Proof.
  intros Hi. unfold Worker._topk. fold (topk_indices vec k).
  destruct (decide (i ∈ topk_indices vec k)) as [Hin|Hnin].
  - apply list_elem_of_lookup in Hin as [p Hp].
    destruct (lookup_lt_is_Some_2 vec i Hi) as [x Hx].
    rewrite Hx. eapply put_lookup_nodup.
    + apply topk_indices_NoDup.
    + done.
    + rewrite list_lookup_fmap, Hp. simpl. by rewrite Hx.
    + by rewrite length_zeros.
  - rewrite put_lookup_notin by done. by apply lookup_zeros.
Qed.

(** With a zero budget the slice [[-0:]] keeps every index. *)
Lemma topk_zero_budget (vec : list F) : Worker._topk vec 0 = vec.
Proof.
  apply list_eq. intros i.
  destruct (decide (i < length vec)) as [Hi|Hi].
  - rewrite topk_lookup by done.
    rewrite decide_True; [done|].
    unfold topk_indices. simpl. apply sort_indices_lt.
    unfold square. by rewrite length_fmap.
  - rewrite !(proj2 (lookup_ge_None _ _)); [done|lia|].
    rewrite length_topk. lia.
Qed.

Section Ordered.
Context `{!ScalarOrder F}.

Lemma nonzero_topk (vec : list F) k i :
  i ∈ nonzero (Worker._topk vec k) ->
  i ∈ topk_indices vec k /\ nonzero_at vec i.
Proof.
  intros Hi. pose proof (nonzero_lt _ _ Hi) as Hlt.
  rewrite length_topk in Hlt.
  apply elem_of_nonzero in Hi as (x & Hx & Hz).
  rewrite topk_lookup in Hx by done.
  destruct (decide (i ∈ topk_indices vec k)) as [Hin|Hnin].
  - split; [done|]. by exists x.
  - injection Hx as <-. rewrite fis_zero_fzero in Hz. done.
Qed.

(** For a positive budget [_topk] keeps at most [k] non-zero entries. *)
Lemma topk_sparse (vec : list F) k :
  0 < k -> length (nonzero (Worker._topk vec k)) <= k.
Proof.
  intros Hk.
  transitivity (length (topk_indices vec k)).
  - apply submseteq_length, NoDup_submseteq; [apply NoDup_nonzero|].
    intros i Hi. by apply nonzero_topk in Hi as [? _].
  - rewrite topk_indices_length by done. lia.
Qed.

(** A kept index dominates every index that is not kept: its square is
    at least as large, and on equal squares it is the larger index. *)
Lemma topk_indices_largest (vec : list F) k i j x y :
  i ∈ topk_indices vec k -> j ∉ topk_indices vec k ->
  vec !! i = Some x -> vec !! j = Some y ->
  sort_le (fmul y y, j) (fmul x x, i).
Proof.
  intros Hi Hj Hx Hy.
  assert (Hjlt : j ∈ (sort (square vec)).2).
  { apply sort_indices_lt. unfold square. rewrite length_fmap.
    by apply lookup_lt_Some in Hy. }
  unfold topk_indices in Hi, Hj.
  destruct k as [|k]; [done|].
  unfold Py.slice_last, sort in Hi, Hj, Hjlt.
  cbn [snd] in Hi, Hj, Hjlt.
  set (sp := sort_pairs (zip (square vec) (seq 0 (length (square vec)))))
    in Hi, Hj, Hjlt.
  set (a := length sp.*2 - S k) in Hi, Hj.
  pose proof (sort_sorted (square vec)) as Hs. fold sp in Hs.
  rewrite <- (take_drop a sp) in Hs.
  assert (Hsq : forall z n w,
            (z, n) ∈ sp -> vec !! n = Some w -> z = fmul w w).
  { intros z n w Hin Hw. apply sort_pairs_entries in Hin.
    unfold square in Hin. rewrite list_lookup_fmap, Hw in Hin.
    simpl in Hin. congruence. }
  rewrite <- fmap_drop in Hi.
  apply list_elem_of_fmap in Hi as ([x' i'] & -> & Hi).
  rewrite <- (take_drop a sp.*2), elem_of_app in Hjlt.
  destruct Hjlt as [Hjt|Hjd]; [|done].
  rewrite <- fmap_take in Hjt.
  apply list_elem_of_fmap in Hjt as ([y' j'] & -> & Hjt).
  pose proof (StronglySorted_app_1_elem_of _ _ _ _ _ Hs Hjt Hi) as Hle.
  simpl in Hx, Hy, Hle |- *.
  assert (Hi' : (x', i') ∈ sp).
  { rewrite <- (take_drop a sp). apply elem_of_app. by right. }
  assert (Hj' : (y', j') ∈ sp).
  { rewrite <- (take_drop a sp). apply elem_of_app. by left. }
  by rewrite <- (Hsq _ _ _ Hi' Hx), <- (Hsq _ _ _ Hj' Hy).
Qed.
End Ordered.
End SortFacts.

(** ** The worker: aggregation and update application *)

Section WorkerFacts.
Context {F T : Type} `{Scalar F} `{CSVec F T}.
Import Torch Worker.
Implicit Types (w : Worker.t (F:=F) (T:=T)) (grads : list (list F)).

(** C2.  After [_apply_update], the momentum buffer [u] and the velocity
    buffer [v] are zero at every non-zero coordinate of the update, [v]
    is zero at every dense coordinate as well, and both buffers are
    unchanged at every other coordinate. *)
Theorem apply_update_resets_buffers w w' (update : list F) :
  _apply_update w update = Some w' ->
  length (u w') = length (u w) /\ length (v w') = length (v w) /\
  forall i,
    (nonzero_at update i ->
       u w' !! i = Some fzero /\ v w' !! i = Some fzero) /\
    (sketch_mask w !! i = Some false -> v w' !! i = Some fzero) /\
    (~ nonzero_at update i -> u w' !! i = u w !! i) /\
    (~ nonzero_at update i -> sketch_mask w !! i = Some true ->
       v w' !! i = v w !! i).
Proof.
  unfold _apply_update. intros Hrun.
  bind_inv Hrun u' Hu. bind_inv Hrun v1 Hv1. bind_inv Hrun v' Hv'.
  bind_inv Hrun lrVec Hlr. bind_inv Hrun wu Hwu. bind_inv Hrun gs Hgs.
  injection Hrun as <-. simpl.
  pose proof (index_fill_length _ _ _ _ Hu) as Hlu.
  pose proof (index_fill_length _ _ _ _ Hv1) as Hlv1.
  pose proof (fun i => mask_fill_lookup _ _ _ _ i Hv') as Hm.
  destruct (Hm 0) as [Hlv' _].
  split; [done|]. split; [congruence|]. intros i.
  destruct (Hm i) as [_ Hvi]. rewrite lookup_mask_not in Hvi.
  pose proof (index_fill_lookup _ _ _ _ i Hu) as Hui.
  pose proof (index_fill_lookup _ _ _ _ i Hv1) as Hv1i.
  split; [|split; [|split]].
  - intros Hnz%elem_of_nonzero. split.
    + rewrite Hui. by rewrite decide_True.
    + rewrite Hvi.
      destruct (sketch_mask w !! i) as [[]|]; simpl; try done;
        rewrite Hv1i; by rewrite decide_True.
  - intros Hd. rewrite Hvi, Hd. done.
  - intros Hz. rewrite Hui. rewrite decide_False; [done|].
    by rewrite elem_of_nonzero.
  - intros Hz Hs. rewrite Hvi, Hs. simpl. rewrite Hv1i.
    rewrite decide_False; [done|]. by rewrite elem_of_nonzero.
Qed.

(** *** The candidates *)

Lemma index_select_lookup (g : list F) coords hh p j :
  index_select g coords = Some hh -> coords !! p = Some j ->
  hh !! p = g !! j.
Proof.
  unfold index_select. intros Hh%mapM_Some Hp.
  destruct (Forall2_lookup_l _ _ _ _ _ Hh Hp) as (x & Hx & Hg).
  by rewrite Hx, Hg.
Qed.

Lemma mapM_lookup_ext {A} (f : A -> option (list F)) (xs : list A)
    (rows : list (list F)) (p j : nat) (proj : A -> list F) :
  mapM f xs = Some rows ->
  (forall x r, x ∈ xs -> f x = Some r -> r !! p = proj x !! j) ->
  mapM (fun r => r !! p) rows = mapM (fun x => proj x !! j) xs.
Proof.
  revert rows. induction xs as [|x xs IH]; intros rows Hm Hext; simpl in *.
  { injection Hm as <-. done. }
  destruct (f x) as [r|] eqn:Hr; [simpl in Hm|done].
  destruct (mapM f xs) as [rs|] eqn:Hrs; [simpl in Hm|done].
  injection Hm as <-. simpl.
  rewrite (Hext x r); [|apply elem_of_cons; by left|done].
  rewrite (IH rs); [done|done|].
  intros y r' Hy Hr'. apply Hext; [|done]. apply elem_of_cons. by right.
Qed.

(** The rows gathered by a successful [mapM] have the expected length. *)
Lemma stacked_length {A} (f : A -> option (list F)) (xs : list A)
    (rows : list (list F)) (r : list F) (n : nat) :
  mapM f xs = Some rows -> stack_sum rows = Some r ->
  (forall x y, f x = Some y -> length y = n) ->
  length r = n.
Proof.
  intros Hm Hr Hlen. destruct rows as [|r0 rs]; [done|].
  apply stack_sum_length, Forall_cons in Hr as [Hr0 _].
  apply mapM_Some in Hm. inversion Hm as [|x r0' xs' rs' Hx _]; subst.
  rewrite <- Hr0. by eapply Hlen.
Qed.

Lemma all_reduce_candidates_inv w grads s coords c :
  all_reduce_candidates w grads = Some (s, coords, c) ->
  exists hhs sums,
    accumulate (cs_zero (sketch w)) (sketch_mask w) grads = Some s /\
    coords = nonzero (cs_unSketch s (p2 w * k w)) /\
    mapM (fun g => index_select g coords) grads = Some hhs /\
    stack_sum hhs = Some sums /\
    length sums = length coords /\
    c = put (cs_unSketch s (p2 w * k w)) coords sums.
Proof.
  unfold all_reduce_candidates. intros Hrun.
  bind_inv Hrun s0 Hs. bind_inv Hrun hhs Hhhs. bind_inv Hrun sums Hsums.
  bind_inv Hrun c' Hc. injection Hrun as <- <- <-.
  assert (Hlen : length sums
                 = length (nonzero (cs_unSketch s0 (p2 w * k w)))).
  { eapply stacked_length; [exact Hhhs|exact Hsums|].
    intros g hh Hg. unfold index_select in Hg.
    by apply length_mapM in Hg. }
  apply index_put_Some in Hc as (vals' & Hb & -> & _).
  rewrite broadcast_to_same in Hb by done. injection Hb as <-.
  by exists hhs, sums.
Qed.

(** What [all_reduce_sketched] hands to [_topk] at a candidate [j]: the
    sum over the contributed vectors of their entry at index [j], the
    candidate's index within [grad[self.sketch_mask]] read as an index of
    the full vector. *)
Lemma candidates_value w grads s coords c :
  all_reduce_candidates w grads = Some (s, coords, c) ->
  forall j, j ∈ coords -> c !! j = col_sum grads j.
Proof.
  intros (hhs & sums & _ & Hco & Hhhs & Hsums & Hlen & ->)
    %all_reduce_candidates_inv j Hj.
  pose proof Hj as Hj'. rewrite Hco in Hj'. apply nonzero_lt in Hj'.
  apply list_elem_of_lookup in Hj as [p Hp].
  assert (Hcol : sums !! p = col_sum grads j).
  { rewrite (stack_sum_lookup _ _ p Hsums). unfold col_sum.
    rewrite (mapM_lookup_ext _ _ _ p j (fun g => g) Hhhs); [done|].
    intros g hh _ Hg. by eapply index_select_lookup. }
  destruct (sums !! p) as [x|] eqn:Hx.
  - rewrite <- Hcol. eapply put_lookup_nodup; try done.
    rewrite Hco. apply NoDup_nonzero.
  - apply lookup_ge_None in Hx. apply lookup_lt_Some in Hp. lia.
Qed.

(** The position of a sketched coordinate that no dense coordinate
    precedes is its index within the sketched sub-vector. *)
Lemma unrank_prefix (d : nat) (m' : list bool) j :
  j < d -> unrank (replicate d true ++ m') j = Some j.
Proof.
  revert j. induction d as [|d IH]; intros j Hj; [lia|].
  destruct j as [|j]; [done|]. simpl. rewrite IH by lia. done.
Qed.

(** Where the sketched coordinates come first, a candidate carries the sum
    of its own coordinate. *)
Lemma candidates_value_prefix w grads s coords c (d : nat) (m' : list bool) :
  sketch_mask w = replicate d true ++ m' ->
  all_reduce_candidates w grads = Some (s, coords, c) ->
  forall j, j ∈ coords -> j < d ->
    exists i, unrank (sketch_mask w) j = Some i /\ c !! j = col_sum grads i.
Proof.
  intros Hm Hrun j Hj Hd. exists j. rewrite Hm.
  split; [by apply unrank_prefix|]. by eapply candidates_value.
Qed.

Lemma candidates_coords w grads s coords c :
  all_reduce_candidates w grads = Some (s, coords, c) ->
  coords = nonzero (cs_unSketch s (p2 w * k w)) /\
  length c = length (cs_unSketch s (p2 w * k w)) /\
  forall j, j ∉ coords -> c !! j = cs_unSketch s (p2 w * k w) !! j.
Proof.
  intros (hhs & sums & _ & Hco & _ & _ & _ & ->)%all_reduce_candidates_inv.
  split; [done|]. split; [apply length_put|].
  intros j Hj. by apply put_lookup_notin.
Qed.

(** Only recovered coordinates can be non-zero among the candidates. *)
Lemma candidates_nonzero w grads s coords c j :
  all_reduce_candidates w grads = Some (s, coords, c) ->
  j ∈ nonzero c -> j ∈ coords.
Proof.
  intros Hrun Hj.
  destruct (candidates_coords _ _ _ _ _ Hrun) as (Hco & _ & Hout).
  destruct (decide (j ∈ coords)) as [|Hn]; [done|].
  apply elem_of_nonzero in Hj as (x & Hx & Hz).
  rewrite Hout in Hx by done.
  rewrite Hco. apply elem_of_nonzero. by exists x.
Qed.

(** *** The weight update *)

(** The update is assembled from the output of [_topk], broadcast to the
    sketched coordinates, and from the sums of the dense sub-vectors. *)
Lemma all_reduce_update_inv w grads s wu :
  all_reduce_update w grads = Some (s, wu) ->
  exists coords c rows dense weights,
    all_reduce_candidates w grads = Some (s, coords, c) /\
    mapM (fun g => mask_select g (mask_not (sketch_mask w))) grads
      = Some rows /\
    stack_sum rows = Some dense /\
    length (sketch_mask w) = grad_size w /\
    broadcast_to (mask_count (sketch_mask w)) (_topk c (k w))
      = Some weights /\
    length dense = mask_count (mask_not (sketch_mask w)) /\
    wu = scatter (scatter (zeros (grad_size w)) (sketch_mask w) weights)
           (mask_not (sketch_mask w)) dense.
Proof.
  unfold all_reduce_update. intros Hrun.
  bind_inv Hrun cand Hcand. destruct cand as [[s0 coords] c].
  bind_inv Hrun wu1 Hwu1. bind_inv Hrun rows Hrows.
  bind_inv Hrun dense Hdense. bind_inv Hrun wu2 Hwu2.
  injection Hrun as <- <-.
  apply mask_put_Some in Hwu1 as (weights & Hweights & -> & Hl1).
  apply mask_put_Some in Hwu2 as (dense' & Hdense' & -> & Hl2).
  rewrite length_zeros in Hl1.
  assert (Hld : length dense = mask_count (mask_not (sketch_mask w))).
  { eapply stacked_length; [exact Hrows|exact Hdense|].
    intros g r (-> & Hlen)%mask_select_Some. by apply length_select. }
  rewrite broadcast_to_same in Hdense' by done. injection Hdense' as <-.
  exists coords, c, rows, dense, weights. repeat split; done.
Qed.

(** The sketched portion of the update is what [_topk] returned, broadcast
    to the sketched coordinates. *)
Lemma update_sketched_portion w grads s wu coords c :
  all_reduce_update w grads = Some (s, wu) ->
  all_reduce_candidates w grads = Some (s, coords, c) ->
  broadcast_to (mask_count (sketch_mask w)) (_topk c (k w))
    = Some (select wu (sketch_mask w)).
Proof.
  intros (coords' & c' & rows & dense & weights
          & Hc & _ & _ & Hl & Hw & _ & ->)%all_reduce_update_inv Hc'.
  rewrite Hc in Hc'. injection Hc' as <- <-.
  rewrite select_scatter_not, select_scatter; [done| |].
  - by rewrite length_zeros.
  - by apply broadcast_to_length in Hw.
Qed.

(** C8.  At every coordinate outside the sketch mask the weight update is
    the sum of that coordinate over all contributed vectors. *)
Theorem dense_coordinates_exact w grads s wu :
  all_reduce_update w grads = Some (s, wu) ->
  forall i, sketch_mask w !! i = Some false ->
    is_Some (col_sum grads i) /\ wu !! i = col_sum grads i.
Proof.
  intros (coords & c & rows & dense & weights
          & _ & Hrows & Hdense & Hl & Hw & Hld & ->)%all_reduce_update_inv i Hi.
  assert (Hni : mask_not (sketch_mask w) !! i = Some true).
  { by rewrite lookup_mask_not, Hi. }
  assert (Hwu : scatter (scatter (zeros (grad_size w)) (sketch_mask w) weights)
                  (mask_not (sketch_mask w)) dense !! i = col_sum grads i).
  { rewrite scatter_lookup_true; try done.
    - rewrite (stack_sum_lookup _ _ _ Hdense). unfold col_sum.
      rewrite (mapM_lookup_ext _ _ _ _ i (fun g => g) Hrows); [done|].
      intros g r _ (-> & Hlen)%mask_select_Some.
      apply select_lookup; [done|done].
    - rewrite length_scatter, length_zeros, length_mask_not. done. }
  split; [|done]. rewrite <- Hwu. apply lookup_lt_is_Some.
  rewrite !length_scatter, length_zeros. rewrite <- Hl.
  by apply lookup_lt_Some in Hi.
Qed.

(** C7.  The weight update does not depend on the worker that computes
    it: two workers with the same sparsity settings and mask, whose
    sketches agree once zeroed, compute the same update from the same
    list of contributed vectors, whatever their buffers, parameters and
    previous sketch contents are. *)
Theorem update_independent_of_worker w1 w2 grads :
  k w1 = k w2 -> p2 w1 = p2 w2 ->
  sketch_mask w1 = sketch_mask w2 -> grad_size w1 = grad_size w2 ->
  cs_zero (sketch w1) = cs_zero (sketch w2) ->
  all_reduce_update w1 grads = all_reduce_update w2 grads.
Proof.
  intros Hk Hp Hm Hg Hs.
  unfold all_reduce_update, all_reduce_candidates.
  by rewrite Hk, Hp, Hm, Hg, Hs.
Qed.

End WorkerFacts.

Section Sparsity.
Context {F T : Type} `{Scalar F} `{CSVec F T}.
Context `{!ScalarOrder F} `{!CSVecSpec F T}.
Import Torch Worker.
Implicit Types (w : Worker.t (F:=F) (T:=T)) (grads : list (list F)).

(** The candidate vector has at most [p2 * k] non-zero entries. *)
Lemma candidates_sparse w grads s coords c :
  all_reduce_candidates w grads = Some (s, coords, c) ->
  length (nonzero c) <= p2 w * k w.
Proof.
  intros Hrun.
  destruct (candidates_coords _ _ _ _ _ Hrun) as (Hco & _ & _).
  transitivity (length coords).
  - apply submseteq_length, NoDup_submseteq; [apply NoDup_nonzero|].
    intros j Hj. by eapply candidates_nonzero.
  - rewrite Hco. apply cs_unSketch_sparse.
Qed.

(** The sketch keeps its dimension while the vectors are accumulated. *)
Lemma accumulate_d (s s' : T) (m : list bool) grads :
  cs_d s = mask_count m -> accumulate s m grads = Some s' ->
  cs_d s' = mask_count m.
Proof.
  revert s. induction grads as [|g grads IH]; intros s Hd Hrun; simpl in Hrun.
  - by injection Hrun as <-.
  - bind_inv Hrun x Hx. bind_inv Hrun s1 Hs1.
    apply mask_select_Some in Hx as [-> Hlen].
    destruct (cs_iadd_d s (select g m)) as (s1' & Hs1' & Hd1).
    { rewrite length_select by done. by rewrite Hd. }
    apply (IH s1); [|done]. congruence.
Qed.

(** With a sketch sized for the mask there is one candidate entry per
    sketched coordinate. *)
Lemma candidates_length w grads s coords c :
  cs_d (sketch w) = mask_count (sketch_mask w) ->
  all_reduce_candidates w grads = Some (s, coords, c) ->
  length c = mask_count (sketch_mask w).
Proof.
  intros Hd Hrun.
  destruct (candidates_coords _ _ _ _ _ Hrun) as (_ & -> & _).
  apply all_reduce_candidates_inv in Hrun as (_ & _ & Hs & _).
  rewrite cs_unSketch_length. eapply accumulate_d; [|exact Hs].
  by rewrite cs_zero_d.
Qed.

(** With a sketch sized for the mask, the sketched portion of the weight
    update is the output of [_topk] on the candidate vector [c] that
    [all_reduce_candidates] hands to it, whatever the values of [c] are: it
    has at most [k] non-zero entries, each of them carries the entry of [c],
    and every entry of [c] that was dropped has a square no larger than
    that of any kept entry, and a smaller index when the squares are equal;
    when an entry is dropped, [k] entries that precede it in this order
    were kept. *)
Theorem sketched_portion_topk w grads s wu coords c :
  cs_d (sketch w) = mask_count (sketch_mask w) ->
  all_reduce_update w grads = Some (s, wu) ->
  all_reduce_candidates w grads = Some (s, coords, c) ->
  let weights := select wu (sketch_mask w) in
  length (nonzero weights) <= k w /\
  (forall i, nonzero_at weights i -> weights !! i = c !! i) /\
  (forall i j x y,
      weights !! i = Some x -> fis_zero x = false ->
      c !! j = Some y -> fis_zero y = false -> ~ nonzero_at weights j ->
      sort_le (fmul y y, j) (fmul x x, i)) /\
  (forall j y,
      c !! j = Some y -> fis_zero y = false -> ~ nonzero_at weights j ->
      exists kept,
        NoDup kept /\ length kept = k w /\
        forall i, i ∈ kept ->
          exists x, c !! i = Some x /\ weights !! i = Some x /\
                    sort_le (fmul y y, j) (fmul x x, i)).
Proof.
  intros Hd Hup Hcand weights.
  assert (Hw : weights = _topk c (k w)).
  { pose proof (update_sketched_portion _ _ _ _ _ _ Hup Hcand) as Hb.
    rewrite broadcast_to_same in Hb.
    - by injection Hb.
    - rewrite length_topk. by eapply candidates_length. }
  clearbody weights. subst weights.
  assert (Hkept : forall i x,
            _topk c (k w) !! i = Some x -> fis_zero x = false ->
            i ∈ topk_indices c (k w) /\ c !! i = Some x).
  { intros i x Hx Hz.
    assert (Hi : i ∈ nonzero (_topk c (k w))).
    { apply elem_of_nonzero. by exists x. }
    pose proof (nonzero_lt _ _ Hi) as Hlt. rewrite length_topk in Hlt.
    apply nonzero_topk in Hi as [Hin _]. split; [done|].
    rewrite topk_lookup in Hx by done. by rewrite decide_True in Hx. }
  assert (Hdropped : forall j y,
            c !! j = Some y -> fis_zero y = false ->
            ~ nonzero_at (_topk c (k w)) j -> j ∉ topk_indices c (k w)).
  { intros j y Hy Hzy Hdrop Hj. apply Hdrop. exists y. split; [|done].
    rewrite topk_lookup by (by apply lookup_lt_Some in Hy).
    by rewrite decide_True. }
  split; [|split; [|split]].
  - destruct (decide (k w = 0)) as [Hk0|Hk0].
    + rewrite Hk0, topk_zero_budget.
      pose proof (candidates_sparse _ _ _ _ _ Hcand) as Hs.
      rewrite Hk0 in Hs. lia.
    + apply topk_sparse. lia.
  - intros i (x & Hx & Hz). rewrite Hx.
    by destruct (Hkept i x Hx Hz) as [_ ->].
  - intros i j x y Hx Hzx Hy Hzy Hdrop.
    destruct (Hkept i x Hx Hzx) as [Hin Hci].
    apply (topk_indices_largest c (k w)); try done.
    by eapply Hdropped.
  - intros j y Hy Hzy Hdrop.
    pose proof (Hdropped j y Hy Hzy Hdrop) as Hj.
    exists (topk_indices c (k w)).
    split; [apply topk_indices_NoDup|]. split.
    { eapply topk_indices_full; [|done]. by apply lookup_lt_Some in Hy. }
    intros i Hi. pose proof (topk_indices_lt _ _ _ Hi) as Hlt.
    destruct (lookup_lt_is_Some_2 c i Hlt) as [x Hx].
    exists x. split; [done|]. split.
    + rewrite topk_lookup by done. by rewrite decide_True.
    + by apply (topk_indices_largest c (k w)).
Qed.
End Sparsity.

(** ** The worker: local gradient step *)

Section GradientStep.
Context {F T : Type} `{Scalar F} `{CSVec F T}.
Import Torch Worker.
Implicit Types (w : Worker.t (F:=F) (T:=T)) (t other : list F).

Lemma add__same t other :
  length other = length t -> add_ t other = Some (zip_with fadd t other).
Proof. intros Hl. unfold add_. by rewrite broadcast_to_same. Qed.

Lemma add_scaled__same t a other :
  length other = length t ->
  add_scaled_ t a other
    = Some (zip_with (fun x y => fadd x (fmul a y)) t other).
Proof. intros Hl. unfold add_scaled_. by rewrite broadcast_to_same. Qed.

Lemma length_mul_ t a : length (mul_ t a) = length t.
Proof. apply length_fmap. Qed.

Lemma cat_fmap_Some {A} (f : A -> list F) (l : list A) :
  l <> [] -> cat (f <$> l) = Some (mjoin (f <$> l)).
Proof. by destruct l. Qed.

Lemma length_join_fmap {A} (f : A -> list F) (size : A -> nat) (l : list A) :
  Forall (fun x => length (f x) = size x) l ->
  length (mjoin (f <$> l)) = sum_list (size <$> l).
Proof.
  intros Hall. rewrite length_join, <- list_fmap_compose.
  induction Hall as [|x l Hx _ IH]; [done|].
  rewrite !fmap_cons. simpl. by rewrite Hx, IH.
Qed.

Lemma getGradVec_wf w :
  wf w ->
  exists raw, _getGradVec w = Some raw /\ length raw = grad_size w.
Proof.
  intros Hwf. unfold _getGradVec.
  rewrite cat_fmap_Some by apply (wf_params _ Hwf).
  eexists. split; [done|].
  rewrite (length_join_fmap _ numel).
  - apply (wf_size _ Hwf).
  - eapply Forall_impl; [apply (wf_grads _ Hwf)|]. simpl.
    intros p Hp. destruct (grad p); [done|]. apply length_zeros.
Qed.

Lemma getParamVec_wf w :
  wf w ->
  exists pv, _getParamVec w = Some pv /\ length pv = grad_size w.
Proof.
  intros Hwf. unfold _getParamVec.
  rewrite cat_fmap_Some by apply (wf_params _ Hwf).
  eexists. split; [done|].
  rewrite (length_join_fmap _ numel); [apply (wf_size _ Hwf)|].
  by apply Forall_forall.
Qed.

(** C3.  [compute_grad] adds [weight_decay / num_workers] times the
    parameter vector to the raw gradient when the weight decay is not
    zero; without Nesterov momentum [u] becomes [u * momentum + gradient]
    and [v] becomes [v + u] for the new [u]; with Nesterov momentum [u]
    becomes [(u + gradient) * momentum] and [v] becomes
    [v + u + gradient]; the call returns the new [v]. *)
Theorem compute_grad_spec w :
  wf w ->
  (fis_zero (weight_decay w) = false -> num_workers w <> 0) ->
  exists raw pv,
    _getGradVec w = Some raw /\ _getParamVec w = Some pv /\
    let alpha := fdiv (weight_decay w) (fof_nat (num_workers w)) in
    let gradient :=
      if fis_zero (weight_decay w) then raw
      else zip_with (fun g p => fadd g (fmul alpha p)) raw pv in
    let u' :=
      if nesterov w
      then (fun x => fmul x (momentum w)) <$> zip_with fadd (u w) gradient
      else zip_with fadd ((fun x => fmul x (momentum w)) <$> u w) gradient in
    let v' :=
      if nesterov w
      then zip_with fadd (zip_with fadd (v w) u') gradient
      else zip_with fadd (v w) u' in
    compute_grad w = Some (set_u_v w u' v', v').
Proof.
  intros Hwf Hn.
  destruct (getGradVec_wf w Hwf) as (raw & Hraw & Hlraw).
  destruct (getParamVec_wf w Hwf) as (pv & Hpv & Hlpv).
  pose proof (wf_u _ Hwf) as Hlu. pose proof (wf_v _ Hwf) as Hlv.
  exists raw, pv. split; [done|]. split; [done|]. cbn zeta.
  unfold compute_grad. rewrite Hraw. simpl.
  set (alpha := fdiv (weight_decay w) (fof_nat (num_workers w))).
  assert (Hsteps : forall gradient, length gradient = grad_size w ->
    (if nesterov w then
       u1 ← add_ (u w) gradient;
       let u' := mul_ u1 (momentum w) in
       v1 ← add_ (v w) u'; v' ← add_ v1 gradient;
       Some (set_u_v w u' v', v')
     else
       u' ← add_ (mul_ (u w) (momentum w)) gradient;
       v' ← add_ (v w) u'; Some (set_u_v w u' v', v'))
    = (let u' :=
         if nesterov w
         then (fun x => fmul x (momentum w)) <$> zip_with fadd (u w) gradient
         else zip_with fadd ((fun x => fmul x (momentum w)) <$> u w) gradient in
       let v' :=
         if nesterov w
         then zip_with fadd (zip_with fadd (v w) u') gradient
         else zip_with fadd (v w) u' in
       Some (set_u_v w u' v', v'))).
  { intros gradient Hlg. destruct (nesterov w); cbn zeta.
    - rewrite add__same by congruence. simpl.
      rewrite add__same
        by (rewrite length_mul_, length_zip_with; lia). simpl.
      rewrite add__same
        by (rewrite !length_zip_with, length_mul_, length_zip_with; lia).
      done.
    - rewrite add__same by (rewrite length_mul_; congruence). simpl.
      rewrite add__same
        by (rewrite length_zip_with, length_mul_; lia).
      done. }
  destruct (fis_zero (weight_decay w)) eqn:Hz; simpl.
  - by rewrite Hsteps.
  - rewrite bool_decide_eq_false_2 by auto.
    rewrite Hpv. simpl. rewrite add_scaled__same by congruence. simpl.
    rewrite Hsteps; [done|]. rewrite length_zip_with. lia.
Qed.

End GradientStep.

(** ** The worker: the methods complete on well-formed states *)

Section Totality.
Context {F T : Type} `{Scalar F} `{CSVec F T}.
Import Torch Worker.
Implicit Types (w : Worker.t (F:=F) (T:=T)) (grads : list (list F)).

Lemma sum_numel_cons (p : Param (F:=F)) ps :
  sum_list (numel <$> p :: ps) = numel p + sum_list (numel <$> ps).
Proof. done. Qed.

Lemma sum_numel_app (ps qs : list (Param (F:=F))) :
  sum_list (numel <$> ps ++ qs)
    = sum_list (numel <$> ps) + sum_list (numel <$> qs).
Proof.
  induction ps as [|p ps IH]; [done|].
  rewrite <- app_comm_cons, !sum_numel_cons, IH. lia.
Qed.

Lemma update_params_total ps (wu : list F) start :
  start + sum_list (numel <$> ps) <= length wu ->
  exists ps',
    update_params ps wu start
      = Some (ps', start + sum_list (numel <$> ps)) /\
    Forall2 same_shape ps ps'.
Proof.
  revert start. induction ps as [|p ps IH]; intros start Hlen.
  - exists []. simpl. by rewrite Nat.add_0_r.
  - rewrite sum_numel_cons in Hlen |- *. unfold numel at 1 in Hlen.
    cbn [update_params].
    replace (start + length (data p) - start) with (length (data p)) by lia.
    assert (Hs : length (take (length (data p)) (drop start wu))
                 = length (data p)).
    { rewrite length_take, length_drop. lia. }
    rewrite bool_decide_eq_true_2 by done.
    destruct (IH (start + length (data p))) as (ps' & -> & Hall); [lia|].
    cbn [mbind option_bind]. eexists. split.
    + f_equal. f_equal. change (numel p) with (length (data p)). lia.
    + constructor; [|done]. split; [|done]. unfold numel. cbn [data].
      rewrite length_zip_with. unfold neg. rewrite length_fmap. lia.
Qed.

Lemma update_groups_total gs (wu : list F) start :
  start + sum_list (numel <$> all_params gs) <= length wu ->
  exists gs',
    update_groups gs wu start = Some gs' /\
    Forall2 same_shape (all_params gs) (all_params gs').
Proof.
  revert start. induction gs as [|g gs IH]; intros start Hlen.
  - exists []. split; [done|]. constructor.
  - assert (Hall : all_params (g :: gs) = params g ++ all_params gs) by done.
    rewrite Hall, sum_numel_app in Hlen.
    cbn [update_groups].
    destruct (update_params_total (params g) wu start) as (ps' & -> & Hps);
      [lia|]. cbn [mbind option_bind].
    destruct (IH (start + sum_list (numel <$> params g))) as (gs' & -> & Hgs);
      [lia|].
    cbn [mbind option_bind]. eexists. split; [done|].
    rewrite Hall.
    change (all_params ({| lr := lr g; params := ps' |} :: gs'))
      with (ps' ++ all_params gs').
    by apply Forall2_app.
Qed.

Lemma same_shape_sum (ps ps' : list (Param (F:=F))) :
  Forall2 same_shape ps ps' ->
  sum_list (numel <$> ps') = sum_list (numel <$> ps).
Proof.
  induction 1 as [|p p' ps ps' [Hn _] _ IH]; [done|].
  rewrite !fmap_cons. simpl. by rewrite Hn, IH.
Qed.

Lemma same_shape_grads (ps ps' : list (Param (F:=F))) :
  Forall2 same_shape ps ps' ->
  Forall (fun p => match grad p with
                   | Some g => length g = length (data p)
                   | None => True
                   end) ps ->
  Forall (fun p => match grad p with
                   | Some g => length g = length (data p)
                   | None => True
                   end) ps'.
Proof.
  induction 1 as [|p p' ps ps' [Hn Hg] _ IH]; [done|].
  intros [Hp Hps]%Forall_cons. constructor; [|by apply IH].
  rewrite Hg. unfold numel in Hn. destruct (grad p); [congruence|done].
Qed.

(** The vector of learning rates has one entry per coordinate. *)
Lemma getLRVec_wf w :
  wf w ->
  exists lrVec, _getLRVec w = Some lrVec /\
    match lrVec with
    | inl _ => True
    | inr l => length l = grad_size w
    end.
Proof.
  intros Hwf. unfold _getLRVec.
  set (rates := fun g : ParamGroup =>
         (fun p => match grad p with
                   | None => zeros (length (data p))
                   | Some gr => mul_scalar (replicate (length gr) fone) (lr g)
                   end) <$> params g).
  assert (Hshape : forall gs,
            Forall2 (fun (p : Param) (r : list F) => length r = numel p)
              (all_params gs) (mjoin (rates <$> gs)) ->
            all_params gs <> [] ->
            exists l, cat (mjoin (rates <$> gs)) = Some l /\
                      length l = sum_list (numel <$> all_params gs)).
  { intros gs Hall Hne. unfold cat.
    destruct (mjoin (rates <$> gs)) as [|r rs] eqn:Hr.
    - apply Forall2_length in Hall. by destruct (all_params gs).
    - eexists. split; [done|]. rewrite length_join.
      clear Hr Hne. induction Hall as [|p r' ps rs' Hp _ IH]; [done|].
      rewrite !fmap_cons. simpl. by rewrite Hp, IH. }
  assert (Hrates : forall gs,
            Forall (fun p => match grad p with
                             | Some g => length g = length (data p)
                             | None => True
                             end) (all_params gs) ->
            Forall2 (fun (p : Param) (r : list F) => length r = numel p)
              (all_params gs) (mjoin (rates <$> gs))).
  { induction gs as [|g gs IH]; intros Hg; [constructor|].
    unfold all_params in *. rewrite !fmap_cons in *. simpl in *.
    apply Forall_app in Hg as [Hg1 Hg2].
    apply Forall2_app; [|by apply IH].
    unfold rates. apply Forall2_fmap_r, Forall_Forall2_diag.
    eapply Forall_impl; [done|]. simpl. intros p Hp. unfold numel.
    destruct (grad p).
    - unfold mul_scalar, mul_. by rewrite length_fmap, length_replicate.
    - apply length_zeros. }
  destruct (param_groups w) as [|g [|g' gs]] eqn:Hgs.
  - pose proof (wf_params _ Hwf) as Hne. by rewrite Hgs in Hne.
  - by eexists (inl _).
  - destruct (Hshape (g :: g' :: gs)) as (l & Hl & Hlen).
    + apply Hrates. rewrite <- Hgs. apply (wf_grads _ Hwf).
    + rewrite <- Hgs. apply (wf_params _ Hwf).
    + exists (inr l). fold rates. rewrite Hl. split; [done|].
      rewrite Hlen, <- Hgs. apply (wf_size _ Hwf).
Qed.

(** [_apply_update] completes on a full-length update and keeps the
    state well formed. *)
Lemma apply_update_wf w (update : list F) :
  wf w -> length update = grad_size w ->
  exists w', _apply_update w update = Some w' /\ wf w'.
Proof.
  intros Hwf Hlen. unfold _apply_update.
  assert (Hidx : forall b : list F, length b = grad_size w ->
            Forall (fun i => i < length b) (nonzero update)).
  { intros b Hb. apply Forall_forall. intros i Hi%nonzero_lt. lia. }
  destruct (index_fill_is_Some (u w) (nonzero update) fzero)
    as [u' Hu]; [apply Hidx, Hwf|].
  destruct (index_fill_is_Some (v w) (nonzero update) fzero)
    as [v1 Hv1]; [apply Hidx, Hwf|].
  rewrite Hu, Hv1. simpl.
  pose proof (index_fill_length _ _ _ _ Hu) as Hlu.
  pose proof (index_fill_length _ _ _ _ Hv1) as Hlv1.
  unfold mask_fill.
  rewrite bool_decide_eq_true_2
    by (rewrite length_mask_not, Hlv1, (wf_mask _ Hwf), (wf_v _ Hwf); done).
  simpl.
  destruct (getLRVec_wf w Hwf) as (lrVec & -> & Hlr). simpl.
  assert (Hwu : exists wu,
            match lrVec with
            | inl a => Some (mul_scalar update a)
            | inr l => mul update l
            end = Some wu /\ length wu = grad_size w).
  { destruct lrVec as [a|l].
    - eexists. split; [done|]. unfold mul_scalar. by rewrite length_mul_.
    - unfold mul. rewrite bool_decide_eq_true_2 by congruence.
      eexists. split; [done|]. rewrite length_zip_with. lia. }
  destruct Hwu as (wu & -> & Hlwu). simpl.
  destruct (update_groups_total (param_groups w) wu 0) as (gs & -> & Hgs).
  { rewrite (wf_size _ Hwf). lia. }
  simpl. eexists. split; [done|].
  constructor; simpl.
  - rewrite Hlu. apply Hwf.
  - rewrite length_zip_with, length_mask_not, Hlv1,
      (wf_v _ Hwf), (wf_mask _ Hwf). lia.
  - apply Hwf.
  - apply Hwf.
  - intros Hnil. apply (wf_params _ Hwf).
    apply Forall2_length in Hgs. rewrite Hnil in Hgs.
    by destruct (all_params (param_groups w)).
  - rewrite (same_shape_sum _ _ Hgs). apply Hwf.
  - eapply same_shape_grads; [done|]. apply Hwf.
Qed.


Lemma mapM_total {A B} (f : A -> option B) (P : B -> Prop) (l : list A) :
  Forall (fun x => exists y, f x = Some y /\ P y) l ->
  exists k, mapM f l = Some k /\ Forall P k /\ length k = length l.
Proof.
  induction 1 as [|x l (y & Hy & HP) _ (k & Hk & HPk & Hlen)]; simpl.
  - by exists [].
  - rewrite Hy, Hk. simpl. exists (y :: k).
    split; [done|]. split; [by constructor|]. simpl. by rewrite Hlen.
Qed.

Lemma stack_sum_total (rows : list (list F)) n :
  rows <> [] -> Forall (fun r => length r = n) rows ->
  exists r, stack_sum rows = Some r /\ length r = n.
Proof.
  intros Hne Hall. destruct rows as [|r0 rs]; [done|].
  apply Forall_cons in Hall as [H0' Hall].
  destruct (stack_sum_is_Some r0 rs) as [r Hr].
  { eapply Forall_impl; [done|]. simpl. congruence. }
  exists r. split; [done|].
  apply stack_sum_length in Hr. apply Forall_cons in Hr as [Hr _]. congruence.
Qed.

Lemma mask_count_le (m : list bool) : mask_count m <= length m.
Proof.
  induction m as [|b m IH]; [done|].
  rewrite mask_count_cons. destruct b; simpl; lia.
Qed.

Lemma index_select_total (g : list F) idx :
  Forall (fun i => i < length g) idx ->
  exists hh, index_select g idx = Some hh /\ length hh = length idx.
Proof.
  intros Hall. unfold index_select.
  destruct (mapM_total (fun i => g !! i) (fun _ => True) idx)
    as (hh & Hhh & _ & Hlen).
  - eapply Forall_impl; [done|]. simpl. intros i Hi.
    destruct (lookup_lt_is_Some_2 g i Hi) as [x Hx]. by exists x.
  - by exists hh.
Qed.

Section WithSketch.
Context `{!CSVecSpec F T}.

Lemma accumulate_total (s : T) (m : list bool) grads :
  cs_d s = mask_count m ->
  Forall (fun g => length g = length m) grads ->
  exists s', accumulate s m grads = Some s' /\ cs_d s' = mask_count m.
Proof.
  intros Hd Hall. revert s Hd.
  induction Hall as [|g grads Hg _ IH]; intros s Hd; simpl.
  - by exists s.
  - unfold mask_select. rewrite bool_decide_eq_true_2 by done. simpl.
    destruct (cs_iadd_d s (select g m)) as (s1 & -> & Hd1).
    { rewrite length_select by done. by rewrite Hd. }
    simpl. apply IH. congruence.
Qed.

(** The aggregation completes on a non-empty list of full-length
    vectors. *)
Lemma all_reduce_update_total w grads :
  wf w -> grads <> [] ->
  Forall (fun g => length g = grad_size w) grads ->
  exists s wu,
    all_reduce_update w grads = Some (s, wu) /\
    length wu = grad_size w /\ cs_d s = mask_count (sketch_mask w).
Proof.
  intros Hwf Hne Hall.
  pose proof (wf_mask _ Hwf) as Hlm.
  destruct (accumulate_total (cs_zero (sketch w)) (sketch_mask w) grads)
    as (s & Hs & Hds).
  { rewrite cs_zero_d. apply Hwf. }
  { eapply Forall_impl; [done|]. simpl. congruence. }
  set (c0 := cs_unSketch s (p2 w * k w)).
  assert (Hlc0 : length c0 = mask_count (sketch_mask w)).
  { unfold c0. by rewrite cs_unSketch_length. }
  assert (Hcoords : Forall (fun i => i < length c0) (nonzero c0)).
  { apply Forall_forall. intros i. apply nonzero_lt. }
  destruct (mapM_total (fun g => index_select g (nonzero c0))
              (fun hh => length hh = length (nonzero c0)) grads)
    as (hhs & Hhhs & Hlhhs & Hnhhs).
  { eapply Forall_impl; [done|]. simpl. intros g Hg.
    apply index_select_total.
    eapply Forall_impl; [done|]. simpl. intros i Hi.
    pose proof (mask_count_le (sketch_mask w)). lia. }
  destruct (stack_sum_total hhs (length (nonzero c0))) as (sums & Hsums & Hls);
    [|done|].
  { intros ->. by destruct grads. }
  destruct (mapM_total
              (fun g => mask_select g (mask_not (sketch_mask w)))
              (fun r => length r = mask_count (mask_not (sketch_mask w)))
              grads) as (rows & Hrows & Hlrows & Hnrows).
  { eapply Forall_impl; [done|]. simpl. intros g Hg.
    unfold mask_select.
    rewrite bool_decide_eq_true_2 by (rewrite length_mask_not; congruence).
    eexists. split; [done|].
    apply length_select. rewrite length_mask_not. congruence. }
  destruct (stack_sum_total rows (mask_count (mask_not (sketch_mask w))))
    as (dense & Hdense & Hld); [|done|].
  { intros ->. by destruct grads. }
  unfold all_reduce_update, all_reduce_candidates.
  rewrite Hs. simpl. fold c0. rewrite Hhhs. simpl. rewrite Hsums. simpl.
  rewrite index_put_total by done. simpl.
  rewrite (mask_put_total (zeros (grad_size w)))
    by (rewrite ?length_zeros, ?length_topk, ?length_put; done).
  simpl. rewrite Hrows. simpl. rewrite Hdense. simpl.
  rewrite mask_put_total
    by (rewrite ?length_scatter, ?length_zeros, ?length_mask_not; done).
  simpl. eexists _, _. split; [done|].
  split; [|done]. by rewrite !length_scatter, length_zeros.
Qed.

Lemma set_sketch_wf w s :
  wf w -> cs_d s = mask_count (sketch_mask w) -> wf (set_sketch w s).
Proof. intros Hwf Hd. constructor; simpl; try apply Hwf. done. Qed.

(** [all_reduce_sketched] completes and keeps the state well formed. *)
Lemma all_reduce_sketched_total w grads :
  wf w -> grads <> [] ->
  Forall (fun g => length g = grad_size w) grads ->
  exists w', all_reduce_sketched w grads = Some w' /\ wf w'.
Proof.
  intros Hwf Hne Hall.
  destruct (all_reduce_update_total w grads Hwf Hne Hall)
    as (s & wu & Hup & Hlen & Hd).
  unfold all_reduce_sketched. rewrite Hup. simpl.
  apply apply_update_wf; [by apply set_sketch_wf|done].
Qed.

(** [set_optimizer] binds a well-formed state when every parameter of
    the model requires a gradient. *)
Lemma set_optimizer_wf w (model : list (Param (F:=F))) lr0 :
  model <> [] ->
  Forall (fun p => requires_grad p = true) model ->
  Forall (fun p => match grad p with
                   | Some g => length g = length (data p)
                   | None => True
                   end) model ->
  exists w', set_optimizer w model lr0 = Some w' /\ wf w'.
Proof.
  intros Hne Hreq Hgr. unfold set_optimizer.
  destruct model as [|p0 ps] eqn:Hm; [done|]. rewrite <- Hm in *.
  assert (Hf : filter (fun p => requires_grad p = true) model = model).
  { clear -Hreq. induction Hreq as [|p l Hp _ IH]; [done|].
    rewrite filter_cons, decide_True by done. by rewrite IH. }
  rewrite Hf. unfold cat_mask.
  destruct ((fun p => replicate (length (data p)) (do_sketching p)) <$> model)
    as [|m0 ms] eqn:Hms.
  { rewrite Hm in Hms. done. }
  rewrite <- Hms. simpl. eexists. split; [done|].
  assert (Hall : all_params [ {| lr := lr0; params := model |} ] = model).
  { unfold all_params. simpl. apply app_nil_r. }
  constructor; simpl.
  - apply length_zeros.
  - apply length_zeros.
  - rewrite length_join, <- list_fmap_compose.
    clear. induction model as [|p l IH]; [done|].
    rewrite !fmap_cons. simpl. by rewrite length_replicate, IH.
  - apply cs_new_d.
  - by rewrite Hall.
  - by rewrite Hall.
  - by rewrite Hall.
Qed.
End WithSketch.

Lemma add__length (t other t' : list F) :
  add_ t other = Some t' -> length t' = length t.
Proof.
  unfold add_. intros Hrun.
  destruct (broadcast_to (length t) other) as [o|] eqn:Ho; [|done].
  injection Hrun as <-. apply broadcast_to_length in Ho.
  rewrite length_zip_with. lia.
Qed.

(** [compute_grad] keeps the state well formed and returns a buffer of
    full length. *)
Lemma compute_grad_wf w w' r :
  wf w -> compute_grad w = Some (w', r) ->
  wf w' /\ r = v w' /\ length r = grad_size w.
Proof.
  intros Hwf. unfold compute_grad. intros Hrun.
  bind_inv Hrun raw Hraw. bind_inv Hrun gradient Hg.
  assert (Hshape : forall u' v', length u' = grad_size w ->
            length v' = grad_size w -> wf (set_u_v w u' v')).
  { intros u' v' Hu' Hv'. constructor; simpl; try apply Hwf; done. }
  destruct (nesterov w).
  - bind_inv Hrun u1 Hu1. bind_inv Hrun v1 Hv1. bind_inv Hrun v2 Hv2.
    injection Hrun as <- <-.
    apply add__length in Hu1, Hv1, Hv2.
    assert (length v2 = grad_size w).
    { rewrite Hv2, Hv1. apply Hwf. }
    split; [|done]. apply Hshape; [|done].
    rewrite length_mul_, Hu1. apply Hwf.
  - bind_inv Hrun u1 Hu1. bind_inv Hrun v1 Hv1.
    injection Hrun as <- <-.
    apply add__length in Hu1, Hv1.
    assert (length v1 = grad_size w).
    { rewrite Hv1. apply Hwf. }
    split; [|done]. apply Hshape; [|done].
    rewrite Hu1, length_mul_. apply Hwf.
Qed.

End Totality.

(** ** The coordinator *)

Section CoordinatorFacts.
Import Ray.
Context {Rng Loader Batch Arg : Type}.
Context (np_random_permutation : Rng -> nat -> list nat * Rng).
Context (next_batch : Loader -> option Batch).
Context (as_loaders : Arg -> option (list Loader)).

Local Abbreviation forward :=
  (FedSketchedModel.__call__ np_random_permutation next_batch as_loaders).
Local Abbreviation Call := (RemoteCall Batch Arg).

Implicit Types (m : FedSketchedModel.t) (g : Rng) (args : list Arg).

Lemma forward_calls_targets (pairs : list (WorkerHandle * Loader))
    (cs : list Call) :
  FedSketchedModel.forward_calls next_batch pairs = (cs, true) ->
  target <$> cs = pairs.*1.
Proof.
  revert cs. induction pairs as [|[c l] pairs IH]; intros cs; simpl.
  - by intros [= <-].
  - destruct (next_batch l) as [b|]; [|done].
    destruct (FedSketchedModel.forward_calls next_batch pairs) as [cs' ok].
    intros [= <- ->]. simpl. f_equal. by apply IH.
Qed.

(** A forward call in training mode that returns has appended the sample
    it drew, the first [size] entries of the drawn permutation, and has
    issued [model_call] to the sampled workers only. *)
Lemma forward_training_inv m g args r :
  FedSketchedModel.training m = true ->
  FedSketchedModel.returned (forward m g args) = Some r ->
  exists size idx,
    FedSketchedModel.sample_size m = Some size /\
    Py.choice_no_replace
      (np_random_permutation g (length (FedSketchedModel.workers m))).1
      (length (FedSketchedModel.workers m)) size = Some idx /\
    FedSketchedModel.model (forward m g args)
      = FedSketchedModel.append_round m idx /\
    FedSketchedModel.rng (forward m g args)
      = (np_random_permutation g (length (FedSketchedModel.workers m))).2 /\
    Py.take_idx (FedSketchedModel.workers m) idx
      = Some (target <$> FedSketchedModel.issued (forward m g args)) /\
    r = FedSketchedModel.outputs (FedSketchedModel.issued (forward m g args)).
Proof.
  intros Ht. unfold FedSketchedModel.__call__. rewrite Ht.
  destruct (FedSketchedModel.sample_size m) as [size|]; [|done].
  destruct (np_random_permutation g _) as [perm g'] eqn:Hperm. simpl.
  destruct (Py.choice_no_replace perm _ size) as [idx|] eqn:Hidx; [|done].
  destruct (Py.take_idx (FedSketchedModel.workers m) idx) as [pc|] eqn:Hpc;
    [|done].
  destruct (args !! 0 ≫= _) as [pl|] eqn:Hpl; [|done].
  destruct (FedSketchedModel.forward_calls next_batch (zip pc pl))
    as [cs ok] eqn:Hcs.
  simpl. destruct ok; [|done]. intros [= <-].
  exists size, idx. repeat split; try done.
  rewrite (forward_calls_targets _ _ Hcs), Hpc. f_equal.
  symmetry. apply fst_zip.
  unfold Py.take_idx in Hpc, Hpl.
  apply length_mapM in Hpc.
  destruct (args !! 0) as [a|]; [simpl in Hpl|done].
  destruct (as_loaders a) as [ls|]; [simpl in Hpl|done].
  apply length_mapM in Hpl. lia.
Qed.

(** C4 (amended).  A forward call in training mode that returns has
    appended exactly one entry to the round record; the entry consists of
    distinct worker indices, and their number is
    [int(num_workers * participation)], the product truncated toward
    zero. *)
Theorem forward_sample_count m g args r :
  (forall g n, (np_random_permutation g n).1 ≡ₚ seq 0 n) ->
  FedSketchedModel.training m = true ->
  FedSketchedModel.returned (forward m g args) = Some r ->
  exists idx,
    FedSketchedModel.rounds (FedSketchedModel.model (forward m g args))
      = FedSketchedModel.rounds m ++ [idx] /\
    NoDup idx /\
    Forall (fun i => i < length (FedSketchedModel.workers m)) idx /\
    Py.int (PrimFloat.mul
              (Py.float_of_nat (length (FedSketchedModel.workers m)))
              (FedSketchedModel.participation m))
      = Some (Z.of_nat (length idx)).
Proof.
  intros Hperm Ht Hr.
  destruct (forward_training_inv m g args r Ht Hr)
    as (size & idx & Hsize & Hidx & Hm & _).
  exists idx. rewrite Hm. split; [done|].
  unfold Py.choice_no_replace in Hidx.
  case_bool_decide as Hc; [done|]. injection Hidx as <-.
  specialize (Hperm g (length (FedSketchedModel.workers m))).
  set (perm := (np_random_permutation g _).1) in *.
  assert (Hnd : NoDup perm) by (rewrite Hperm; apply NoDup_seq).
  split; [|split].
  - rewrite <- (take_drop (Z.to_nat size) perm) in Hnd.
    by apply NoDup_app in Hnd as (? & _ & _).
  - apply Forall_forall. intros i (j & Hj & _)%elem_of_take.
    assert (Hi : i ∈ perm) by (apply list_elem_of_lookup; by exists j).
    rewrite Hperm in Hi. apply elem_of_seq in Hi. lia.
  - unfold FedSketchedModel.sample_size in Hsize. rewrite Hsize. f_equal.
    rewrite length_take, Hperm, length_seq. lia.
Qed.

Lemma forward_eval m g args :
  FedSketchedModel.training m = false ->
  forward m g args =
    match FedSketchedModel.workers m !! 0 with
    | None => FedSketchedModel.raised m g
    | Some w =>
        let c := {| target := w; method := model_call (positional args) |} in
        {| FedSketchedModel.model := m; FedSketchedModel.rng := g;
           FedSketchedModel.issued := [c];
           FedSketchedModel.returned := Some (FedSketchedModel.future c) |}
    end.
Proof. intros Ht. unfold FedSketchedModel.__call__. by rewrite Ht. Qed.

(** C10.  With training mode off, a model call leaves the coordinator,
    its round record and the random generator unchanged; it issues one
    [model_call], to worker 0 and with the positional arguments, and
    returns the future of that call, whereas a call in training mode
    returns the collected outputs. *)
Theorem eval_call_single_dispatch m g args :
  let m0 := FedSketchedModel.train m false in
  let out := forward m0 g args in
  FedSketchedModel.model out = m0 /\
  FedSketchedModel.rounds (FedSketchedModel.model out)
    = FedSketchedModel.rounds m /\
  FedSketchedModel.rng out = g /\
  match FedSketchedModel.workers m with
  | [] => FedSketchedModel.issued out = [] /\
          FedSketchedModel.returned out = None
  | w :: _ =>
      let c := {| target := w; method := model_call (positional args) |} in
      FedSketchedModel.issued out = [c] /\
      FedSketchedModel.returned out = Some (FedSketchedModel.future c)
  end /\
  match FedSketchedModel.returned
          (forward (FedSketchedModel.train m true) g args) with
  | Some r =>
      r = FedSketchedModel.outputs
            (FedSketchedModel.issued
               (forward (FedSketchedModel.train m true) g args))
  | None => True
  end.
Proof.
  cbn zeta.
  assert (Htrain :
    match FedSketchedModel.returned
            (forward (FedSketchedModel.train m true) g args) with
    | Some r =>
        r = FedSketchedModel.outputs
              (FedSketchedModel.issued
                 (forward (FedSketchedModel.train m true) g args))
    | None => True
    end).
  { destruct (FedSketchedModel.returned
                (forward (FedSketchedModel.train m true) g args))
      as [r|] eqn:Hr; [|done].
    by destruct (forward_training_inv (FedSketchedModel.train m true)
                   g args r eq_refl Hr)
      as (? & ? & _ & _ & _ & _ & _ & ->). }
  rewrite !forward_eval by done. simpl.
  destruct (FedSketchedModel.workers m) as [|w ws]; simpl; by repeat split.
Qed.

End CoordinatorFacts.

Section RoundFacts.
Import Ray.
Context {Rng Loader Batch Arg : Type}.
Context (np_random_permutation : Rng -> nat -> list nat * Rng).
Context (next_batch : Loader -> option Batch).
Context (as_loaders : Arg -> option (list Loader)).

Local Abbreviation forward :=
  (FedSketchedModel.__call__ np_random_permutation next_batch as_loaders).
Local Abbreviation Call := (RemoteCall Batch Arg).
Local Abbreviation step := (FedSketchedOptimizer.step (Batch:=Batch) (Arg:=Arg)).
Local Abbreviation _step := (FedSketchedOptimizer._step (Batch:=Batch) (Arg:=Arg)).
Local Abbreviation loss := (FedSketchedLoss.__call__ (Batch:=Batch) (Arg:=Arg)).

Implicit Types (m : FedSketchedModel.t) (o : FedSketchedOptimizer.t)
  (l : FedSketchedLoss.t).

Lemma last_item_append_round m idx :
  Py.last_item (FedSketchedModel.rounds (FedSketchedModel.append_round m idx))
    = Some idx.
Proof. apply last_snoc. Qed.

(** Both [_get_workers] read the entry appended last, whatever the record
    held before. *)
Lemma get_workers_append_round m o l idx :
  FedSketchedOptimizer._get_workers o (FedSketchedModel.append_round m idx)
    = Py.take_idx (FedSketchedOptimizer.workers o) idx /\
  FedSketchedLoss._get_workers l (FedSketchedModel.append_round m idx)
    = Py.take_idx (FedSketchedLoss.workers l) idx.
Proof.
  unfold FedSketchedOptimizer._get_workers, FedSketchedLoss._get_workers.
  by rewrite last_item_append_round.
Qed.

(** C6 (amended).  Whatever the round record held before, after a forward
    call in training mode that returned, the optimizer step and the loss
    evaluation called with no keyword argument and a number of positional
    arguments other than two take as participants the workers at the
    indices that this call appended, and at no other entry of the
    record: a further forward call replaces the subset they use. *)
Theorem participants_of_last_forward m g args r o l (largs : list Arg) :
  FedSketchedModel.training m = true ->
  FedSketchedModel.returned (forward m g args) = Some r ->
  length largs <> 2 ->
  exists idx,
    let m' := FedSketchedModel.model (forward m g args) in
    FedSketchedModel.rounds m' = FedSketchedModel.rounds m ++ [idx] /\
    FedSketchedOptimizer._get_workers o m'
      = Py.take_idx (FedSketchedOptimizer.workers o) idx /\
    FedSketchedLoss._get_workers l m'
      = Py.take_idx (FedSketchedLoss.workers l) idx /\
    step o m'
      = (train_workers ← Py.take_idx (FedSketchedOptimizer.workers o) idx;
         head ← FedSketchedOptimizer.workers o !! 0;
         Some (_step train_workers (train_workers ++ [head]))) /\
    loss l m' largs 0
      = (participating ← Py.take_idx (FedSketchedLoss.workers l) idx;
         match participating with
         | [] => None
         | _ =>
             Some (FedSketchedLoss.returned_result
                     {| FedSketchedLoss.results :=
                          FedSketchedLoss.remote_loss <$> participating;
                        FedSketchedLoss.result_workers := participating |})
         end).
Proof.
  intros Ht Hr Hargs.
  destruct (forward_training_inv _ _ _ m g args r Ht Hr)
    as (size & idx & _ & _ & Hm & _).
  exists idx. cbn zeta. rewrite Hm.
  destruct (get_workers_append_round m o l idx) as [Ho Hl].
  split; [done|]. split; [done|]. split; [done|]. split.
  - unfold FedSketchedOptimizer.step. by rewrite Ho.
  - unfold FedSketchedLoss.__call__.
    rewrite bool_decide_eq_false_2 by lia.
    rewrite bool_decide_eq_false_2 by done.
    by rewrite Hl.
Qed.

(** *** The optimizer step *)

Lemma step_inv o m (calls : list Call) :
  step o m = Some calls ->
  exists train_workers head,
    FedSketchedOptimizer._get_workers o m = Some train_workers /\
    FedSketchedOptimizer.workers o !! 0 = Some head /\
    calls = _step train_workers (train_workers ++ [head]).
Proof.
  unfold FedSketchedOptimizer.step. intros Hs.
  destruct (FedSketchedOptimizer._get_workers o m) as [tw|]; [|done].
  simpl in Hs.
  destruct (FedSketchedOptimizer.workers o !! 0) as [head|]; [|done].
  injection Hs as <-. by exists tw, head.
Qed.

Lemma filter_aggregation_step (x : WorkerHandle) (tw uw : list WorkerHandle) :
  aggregations_on x (_step tw uw) = length (filter (fun w => w = x) uw).
Proof.
  unfold aggregations_on, FedSketchedOptimizer._step.
  rewrite filter_app, length_app.
  assert (H1 : forall ws : list WorkerHandle,
    filter (fun c : Call => target c = x /\ is_aggregation c = true)
      ((fun w => {| target := w; method := compute_grad |}) <$> ws) = []).
  { induction ws as [|w ws IH]; [done|].
    rewrite fmap_cons, filter_cons, decide_False; [done|].
    intros [_ Hc]. done. }
  rewrite H1. simpl.
  induction uw as [|w uw IH]; [done|].
  rewrite fmap_cons, !filter_cons.
  destruct (decide (w = x)) as [->|Hne].
  - rewrite decide_True by done. simpl. by rewrite IH.
  - rewrite decide_False; [done|]. by intros [? _].
Qed.

(** Every aggregation issued by a step receives the same ordered list of
    gradient futures, one per training worker. *)
Lemma step_aggregation_inputs (tw uw : list WorkerHandle) :
  aggregation_inputs (_step tw uw) = replicate (length uw) tw.
Proof.
  unfold aggregation_inputs, FedSketchedOptimizer._step.
  rewrite omap_app.
  assert (H1 : forall ws : list WorkerHandle,
    omap (fun c : Call => match method c with
                          | all_reduce_sketched grads => Some grads
                          | _ => None
                          end)
      ((fun w => {| target := w; method := compute_grad |}) <$> ws) = []).
  { induction ws as [|w ws IH]; [done|]. by rewrite fmap_cons. }
  rewrite H1. simpl.
  induction uw as [|w uw IH]; [done|]. simpl. f_equal. apply IH.
Qed.

Lemma filter_eq_notin (x : WorkerHandle) (ws : list WorkerHandle) :
  x ∉ ws -> filter (fun w => w = x) ws = [].
Proof.
  induction ws as [|w ws IH]; [done|].
  intros [Hne Hx]%not_elem_of_cons.
  rewrite filter_cons, decide_False by done. by apply IH.
Qed.

Lemma filter_eq_nodup (x : WorkerHandle) (ws : list WorkerHandle) :
  NoDup ws -> x ∈ ws -> length (filter (fun w => w = x) ws) = 1.
Proof.
  induction ws as [|w ws IH]; intros Hnd Hx; [inversion Hx|].
  apply NoDup_cons in Hnd as [Hw Hnd].
  rewrite filter_cons. destruct (decide (w = x)) as [->|Hne].
  - simpl. by rewrite filter_eq_notin.
  - apply IH; [done|]. by apply elem_of_cons in Hx as [->|Hx].
Qed.

(** When the head worker is not among the sampled participants, every
    update worker runs the aggregation exactly once. *)
Lemma step_each_once o m (calls : list Call) tw head :
  step o m = Some calls ->
  FedSketchedOptimizer._get_workers o m = Some tw ->
  FedSketchedOptimizer.workers o !! 0 = Some head ->
  NoDup tw -> head ∉ tw ->
  forall x, x ∈ tw ++ [head] -> aggregations_on x calls = 1.
Proof.
  intros (tw' & head' & Htw & Hh & ->)%step_inv Htw' Hh' Hnd Hnin x Hx.
  assert (tw' = tw) as -> by congruence.
  assert (head' = head) as -> by congruence.
  rewrite filter_aggregation_step.
  assert (Hnd' : NoDup (tw ++ [head])).
  { apply NoDup_app. split; [done|]. split; [|apply NoDup_singleton].
    intros y Hy ->%list_elem_of_singleton. done. }
  by apply filter_eq_nodup.
Qed.

End RoundFacts.


(** ** The instances satisfy the contracts *)

Lemma Z_scalar_order : ScalarOrder Z.
Proof.
  constructor; simpl.
  - done.
  - intros x y. rewrite !Z.leb_le. lia.
  - intros x y z. rewrite !Z.leb_le. lia.
Qed.
#[export] Existing Instance Z_scalar_order.

Section ExactSketchFacts.
Context {F : Type} `{Scalar F} `{!ScalarOrder F}.
Import Torch ExactSketch.

Lemma exact_unSketch_length (t : list F) m : length (unSketch t m) = length t.
Proof. unfold unSketch. by rewrite length_put, length_zeros. Qed.

Lemma exact_unSketch_sparse (t : list F) m :
  length (nonzero (unSketch t m)) <= m.
Proof.
  unfold unSketch.
  set (idx := drop (length t - m) (sort (square t)).2).
  transitivity (length idx).
  - apply submseteq_length, NoDup_submseteq; [apply NoDup_nonzero|].
    intros i (x & Hx & Hz)%elem_of_nonzero.
    destruct (decide (i ∈ idx)) as [|Hn]; [done|].
    rewrite put_lookup_notin in Hx by done.
    apply lookup_replicate in Hx as [-> _].
    rewrite fis_zero_fzero in Hz. done.
  - unfold idx. rewrite length_drop, sort_indices_length.
    unfold square. rewrite length_fmap. lia.
Qed.

Lemma exact_sketch_spec : CSVecSpec F (list F).
Proof.
  constructor; simpl.
  - intros d _ _ _. apply length_zeros.
  - intros t. apply length_zeros.
  - intros t x Hx. unfold iadd. rewrite bool_decide_eq_true_2 by done.
    eexists. split; [done|]. rewrite length_zip_with. lia.
  - apply exact_unSketch_length.
  - apply exact_unSketch_sparse.
Qed.
#[export] Existing Instance exact_sketch_spec.
End ExactSketchFacts.

(** ** The statements at concrete configurations *)

Section Concrete.
Import Ray Torch Worker Examples ExactSketch.

Lemma worker_wf : wf Examples.worker.
Proof.
  constructor; try reflexivity; try done.
  repeat constructor.
Qed.

Lemma nesterov_worker_wf : wf nesterov_worker.
Proof.
  constructor; try reflexivity; try done.
  repeat constructor.
Qed.

(** C2 at [nesterov_worker] and the update [[0; 4; 4]]: coordinate 1 is
    reset in both buffers, coordinate 0 is kept. *)
Lemma apply_update_resets_buffers_witness :
  _apply_update nesterov_worker [0; 4; 4]%Z = Some updated_worker /\
  (u updated_worker !! 1 = Some 0%Z /\ v updated_worker !! 1 = Some 0%Z) /\
  u updated_worker !! 0 = u nesterov_worker !! 0.
Proof.
  assert (Hrun : _apply_update nesterov_worker [0; 4; 4]%Z
                 = Some updated_worker) by reflexivity.
  destruct (apply_update_resets_buffers _ _ _ Hrun) as (_ & _ & Hall).
  split; [exact Hrun|]. split.
  - apply (proj1 (Hall 1)). exists 4%Z. split; reflexivity.
  - apply (proj1 (proj2 (proj2 (Hall 0)))).
    intros (x & Hx & Hz). injection Hx as <-. discriminate Hz.
Defined.

(** C3 at [nesterov_worker]: weight decay 4 over 2 workers, momentum 3,
    Nesterov momentum. *)
Lemma compute_grad_spec_witness :
  wf nesterov_worker /\
  compute_grad nesterov_worker
    = Some (set_u_v nesterov_worker [66; 129; 192]%Z [92; 177; 262]%Z,
            [92; 177; 262]%Z).
Proof.
  split; [exact nesterov_worker_wf|].
  destruct (compute_grad_spec nesterov_worker nesterov_worker_wf)
    as (raw & pv & Hraw & Hpv & Hrun).
  - intros _. discriminate.
  - injection Hraw as <-. injection Hpv as <-. exact Hrun.
Defined.

(** C1.  With the mask [[1; 0; 1]] the second sketched coordinate is
    coordinate 2 of the full vectors, where the contributed vector
    [[1; 2; 3]] sums to 3; whenever the sketch surfaces it as a candidate,
    the value handed to [_topk] is 2, the entry of the dense coordinate
    1. *)
Theorem candidate_value_misaligned {T : Type} `{CSVec Z T}
    (w : Worker.t (F:=Z) (T:=T)) (s : T) coords c :
  sketch_mask w = [true; false; true] ->
  all_reduce_candidates w one_grad = Some (s, coords, c) ->
  1 ∈ coords ->
  unrank (sketch_mask w) 1 = Some 2 /\
  col_sum one_grad 2 = Some 3%Z /\
  c !! 1 = Some 2%Z.
Proof.
  intros Hm Hrun Hin. rewrite Hm. split; [done|]. split; [done|].
  by rewrite (candidates_value _ _ _ _ _ Hrun 1 Hin).
Qed.

(** C1 at [worker] with the collision-free sketch: the update carries 2,
    not 3, at coordinate 2. *)
Lemma candidate_value_misaligned_witness :
  all_reduce_candidates Examples.worker one_grad
    = Some ([1; 3]%Z, [1], [0; 2]%Z) /\
  all_reduce_update Examples.worker one_grad
    = Some ([1; 3]%Z, [0; 2; 2]%Z) /\
  col_sum one_grad 2 = Some 3%Z /\
  ([0; 2]%Z : list Z) !! 1 = Some 2%Z.
Proof.
  split; [reflexivity|]. split; [reflexivity|].
  apply (candidate_value_misaligned Examples.worker [1; 3]%Z [1] [0; 2]%Z).
  - reflexivity.
  - reflexivity.
  - apply list_elem_of_singleton. reflexivity.
Defined.

(** C7 at [worker] and [other_worker], which differ in parameters,
    buffers, momentum settings and sketch contents. *)
Lemma update_independent_of_worker_witness :
  u Examples.worker <> u other_worker /\
  sketch Examples.worker <> sketch other_worker /\
  all_reduce_update Examples.worker two_grads
    = all_reduce_update other_worker two_grads.
Proof.
  split; [discriminate|]. split; [discriminate|].
  apply update_independent_of_worker; reflexivity.
Defined.

(** C8 at [worker] and two contributed vectors: the dense coordinate 1
    carries [2 + 20]. *)
Lemma dense_coordinates_exact_witness :
  all_reduce_update Examples.worker two_grads
    = Some ([11; -37]%Z, [0; 22; 22]%Z) /\
  ([0; 22; 22]%Z : list Z) !! 1 = col_sum two_grads 1.
Proof.
  split; [reflexivity|].
  apply (dense_coordinates_exact Examples.worker two_grads
           [11; -37]%Z [0; 22; 22]%Z); reflexivity.
Defined.

(** The selection at [worker] and two contributed vectors, budget
    [k = 1]. *)
Lemma sketched_portion_topk_witness :
  all_reduce_update Examples.worker two_grads
    = Some ([11; -37]%Z, [0; 22; 22]%Z) /\
  all_reduce_candidates Examples.worker two_grads
    = Some ([11; -37]%Z, [1], [0; 22]%Z) /\
  length (nonzero (select [0; 22; 22]%Z (sketch_mask Examples.worker)))
    <= k Examples.worker.
Proof.
  split; [reflexivity|]. split; [reflexivity|].
  apply (sketched_portion_topk Examples.worker two_grads
           [11; -37]%Z [0; 22; 22]%Z [1] [0; 22]%Z); reflexivity.
Defined.

(** [_topk] with a zero budget returns its argument, with a budget of
    one the entry of largest square. *)
Example topk_zero_budget_example :
  _topk [3; -5; 1]%Z 0 = [3; -5; 1]%Z /\ _topk [3; -5; 1]%Z 1 = [0; -5; 0]%Z.
Proof. split; reflexivity. Qed.

(** Ties keep the larger index: of the two entries of square 25 the
    later one is kept. *)
Example topk_tie_example : _topk [5; 1; -5]%Z 1 = [0; 0; -5]%Z.
Proof. reflexivity. Qed.

(** *** The coordinator *)

Lemma reversing_permutation g n : (reversing g n).1 ≡ₚ seq 0 n.
Proof. simpl. apply reverse_Permutation. Qed.

(** C4: with three workers and a participation rate of one half the
    forward call samples one worker, while the ceiling of 1.5 is 2. *)
Lemma forward_sample_not_ceiling :
  let out := Examples.forward three_workers 0 [[100; 101; 102]] in
  FedSketchedModel.returned out <> None /\
  FedSketchedModel.rounds (FedSketchedModel.model out)
    = FedSketchedModel.rounds three_workers ++ [[2]] /\
  Py.ceil (PrimFloat.mul (Py.float_of_nat 3) 0.5%float) = Some 2%Z /\
  Z.of_nat (length [2]) <> 2%Z.
Proof. cbn zeta. split; [|split; [|split]]; done. Qed.

(** C4 (amended) at four workers and a participation rate of one half:
    two distinct indices are appended. *)
Lemma forward_sample_count_witness :
  exists idx,
    FedSketchedModel.rounds
      (FedSketchedModel.model
         (Examples.forward four_workers 0 [[100; 101; 102; 103]]))
      = [[0; 1]] ++ [idx] /\
    NoDup idx /\
    Forall (fun i => i < 4) idx /\
    Py.int (PrimFloat.mul (Py.float_of_nat 4) 0.5%float)
      = Some (Z.of_nat (length idx)).
Proof.
  apply (forward_sample_count reversing next_batch as_loaders
           four_workers 0 [[100; 101; 102; 103]]
           (FedSketchedModel.outputs
              [ {| target := 13; method := model_call (batch 103) |};
                {| target := 12; method := model_call (batch 102) |} ])).
  - exact reversing_permutation.
  - reflexivity.
  - reflexivity.
Defined.

(** C6: after a forward call that appended the index set [[3; 2]], a
    loss evaluation with two positional arguments refers to worker 0 of
    the population, not to the workers at the appended indices. *)
Lemma loss_two_arguments_ignores_round :
  let out := Examples.forward four_workers 0 [[100; 101; 102; 103]] in
  FedSketchedModel.rounds (FedSketchedModel.model out) = [[0; 1]; [3; 2]] /\
  FedSketchedLoss._get_workers criterion (FedSketchedModel.model out)
    = Some [13; 12] /\
  FedSketchedLoss.__call__ (Batch:=nat) criterion
    (FedSketchedModel.model out) [[1]; [2]] 0
    = Some (FedSketchedLoss.returned_result
              {| FedSketchedLoss.results := [FedSketchedLoss.remote_loss 10];
                 FedSketchedLoss.result_workers := [10] |}).
Proof. cbn zeta. split; [|split]; reflexivity. Qed.

(** C6 (amended) at the same forward call and a loss evaluation with one
    positional argument. *)
Lemma participants_of_last_forward_witness :
  exists idx,
    let m' := FedSketchedModel.model
                (Examples.forward four_workers 0 [[100; 101; 102; 103]]) in
    FedSketchedModel.rounds m' = [[0; 1]] ++ [idx] /\
    FedSketchedOptimizer._get_workers optimizer m'
      = Py.take_idx [10; 11; 12; 13] idx /\
    FedSketchedLoss._get_workers criterion m'
      = Py.take_idx [10; 11; 12; 13] idx.
Proof.
  destruct (participants_of_last_forward reversing next_batch as_loaders
              four_workers 0 [[100; 101; 102; 103]]
              (FedSketchedModel.outputs
                 [ {| target := 13; method := model_call (batch 103) |};
                   {| target := 12; method := model_call (batch 102) |} ])
              optimizer criterion [[1]])
    as (idx & Hr & Ho & Hl & _).
  - reflexivity.
  - reflexivity.
  - simpl. lia.
  - exists idx. split; [exact Hr|]. split; [exact Ho|exact Hl].
Defined.

(** C5.  With two workers, both sampled, the step issues
    [all_reduce_sketched] twice to worker 0, the head, and once to
    worker 1, each time with the same ordered list of gradient futures;
    run on two workers with equal parameters, the step leaves the head
    with parameters that differ from those of worker 1: it has applied
    the update twice. *)
Theorem head_sampled_aggregates_twice :
  exists calls c,
    FedSketchedOptimizer.step (Batch:=nat) (Arg:=list nat)
      two_worker_optimizer both_sampled = Some calls /\
    aggregations_on 0 calls = 2 /\
    aggregations_on 1 calls = 1 /\
    aggregation_inputs calls = [[1; 0]; [1; 0]; [1; 0]] /\
    params_of two_actors 0 = params_of two_actors 1 /\
    Cluster.run two_actors calls = Some c /\
    params_of c 1 = Some [10; 16; 26]%Z /\
    params_of c 0 = Some [10; 12; 22]%Z.
Proof.
  eexists _, _. split; [reflexivity|].
  split; [reflexivity|]. split; [reflexivity|]. split; [reflexivity|].
  split; [reflexivity|]. split; [vm_compute; reflexivity|].
  split; reflexivity.
Qed.

End Concrete.

(** ** Further properties of the worker *)

(** *** [_topk] at its boundary budgets *)

Section TopkBoundary.
Context {F : Type} `{Scalar F}.
Import Torch.

(** [_topk] returns its argument unchanged when the budget is zero (the
    slice [[-0:]] keeps every index) and when the budget is at least the
    length of the vector. *)
Theorem topk_budget_covers_all (vec : list F) (k : nat) :
  k = 0 \/ length vec <= k -> Worker._topk vec k = vec.
Proof.
  intros Hk. apply list_eq. intros i.
  destruct (decide (i < length vec)) as [Hi|Hi].
  - rewrite topk_lookup by done. rewrite decide_True; [done|].
    assert (Hall : topk_indices vec k = (sort (square vec)).2).
    { unfold topk_indices, Py.slice_last. destruct k as [|k]; [done|].
      rewrite sort_indices_length. unfold square at 1. rewrite length_fmap.
      replace (length vec - S k) with 0 by lia. done. }
    rewrite Hall. apply sort_indices_lt. unfold square.
    by rewrite length_fmap.
  - rewrite !(proj2 (lookup_ge_None _ _)); [done|lia|].
    rewrite length_topk. lia.
Qed.
End TopkBoundary.

(** *** The parameter update of [_apply_update] *)

Section ParameterUpdate.
Context {F T : Type} `{Scalar F} `{CSVec F T}.
Import Torch Worker.
Implicit Types (w : Worker.t (F:=F) (T:=T)) (ps : list (Param (F:=F)))
  (gs : list (ParamGroup (F:=F))) (wu vec : list F).

Lemma zip_with_neg (d s : list F) :
  zip_with fadd d (neg s) = zip_with descend d s.
Proof.
  revert s. induction d as [|x d IH]; intros [|y s]; simpl; try done.
  by rewrite <- IH.
Qed.

Lemma zip_with_split {A B C} (f : A -> B -> C) (d rest : list A) (l : list B) :
  zip_with f (d ++ rest) l
    = zip_with f d (take (length d) l) ++ zip_with f rest (drop (length d) l).
Proof.
  revert l. induction d as [|x d IH]; intros l; simpl.
  - by rewrite drop_0.
  - destruct l as [|y l]; simpl.
    + by destruct rest.
    + by rewrite IH.
Qed.

Lemma zip_with_take_length {A B C} (f : A -> B -> C) (d : list A)
    (l : list B) :
  zip_with f d (take (length d) l) = zip_with f d l.
Proof.
  revert l. induction d as [|x d IH]; intros [|y l]; simpl; try done.
  by rewrite IH.
Qed.

Lemma length_data_join ps :
  length (mjoin (data <$> ps)) = sum_list (numel <$> ps).
Proof. apply length_join_fmap. by apply Forall_forall. Qed.

Lemma data_join_cons (p : Param (F:=F)) ps :
  mjoin (data <$> p :: ps) = data p ++ mjoin (data <$> ps).
Proof. done. Qed.

(** The loop over one group: the concatenated data after the loop is the
    concatenated data before it, minus the entries of the update from the
    offset on. *)
Lemma update_params_data ps wu start ps' start' :
  update_params ps wu start = Some (ps', start') ->
  mjoin (data <$> ps') = zip_with descend (mjoin (data <$> ps)) (drop start wu)
  /\ start' = start + sum_list (numel <$> ps)
  /\ length ps' = length ps
  /\ (sum_list (numel <$> ps) = 0 \/ start + sum_list (numel <$> ps) <= length wu).
Proof.
  revert start ps' start'.
  induction ps as [|p ps IH]; intros start ps' start' Hrun.
  - injection Hrun as <- <-. simpl. split; [done|]. split; [lia|].
    split; [done|]. by left.
  - cbn [update_params] in Hrun.
    replace (start + length (data p) - start) with (length (data p))
      in Hrun by lia.
    case_bool_decide as Hs; [|done].
    destruct (update_params ps wu (start + length (data p)))
      as [[ps'' start'']|] eqn:Hrest; [|done].
    cbn in Hrun. injection Hrun as <- <-.
    destruct (IH _ _ _ Hrest) as (Hd & -> & Hl & Hsum).
    rewrite !data_join_cons, sum_numel_cons. cbn [data].
    change (numel p) with (length (data p)).
    rewrite length_take, length_drop in Hs.
    split; [|split; [lia|split; [simpl; lia|lia]]].
    rewrite zip_with_split, Hd, zip_with_neg, drop_drop. done.
Qed.

Lemma update_groups_data gs wu start gs' :
  update_groups gs wu start = Some gs' ->
  mjoin (data <$> all_params gs')
    = zip_with descend (mjoin (data <$> all_params gs)) (drop start wu)
  /\ length (all_params gs') = length (all_params gs)
  /\ lr <$> gs' = lr <$> gs
  /\ (sum_list (numel <$> all_params gs) = 0
      \/ start + sum_list (numel <$> all_params gs) <= length wu).
Proof.
  revert start gs'. induction gs as [|g gs IH]; intros start gs' Hrun.
  - injection Hrun as <-. split; [done|]. split; [done|]. split; [done|].
    by left.
  - cbn [update_groups] in Hrun.
    destruct (update_params (params g) wu start) as [[ps start']|] eqn:Hps;
      [|done].
    cbn in Hrun.
    destruct (update_groups gs wu start') as [gs''|] eqn:Hgs; [|done].
    cbn in Hrun. injection Hrun as <-.
    destruct (update_params_data _ _ _ _ _ Hps) as (Hd & -> & Hl & Hsum).
    destruct (IH _ _ Hgs) as (Hd' & Hl' & Hlr & Hsum').
    assert (Hall : forall (g0 : ParamGroup (F:=F)) gs0,
              all_params (g0 :: gs0) = params g0 ++ all_params gs0) by done.
    rewrite !Hall. cbn [params].
    rewrite !fmap_app, !join_app, !length_app, sum_list_with_app.
    split; [|split; [lia|split]].
    + rewrite zip_with_split, Hd, drop_drop, length_data_join, Hd'.
      f_equal. rewrite <- length_data_join. symmetry.
      apply zip_with_take_length.
    + rewrite !fmap_cons. by rewrite Hlr.
    + unfold sum_list in *. lia.
Qed.

(** For a worker with one parameter group, the flattened parameters after
    [_apply_update] are the flattened parameters before it minus the
    learning rate times the update, coordinate by coordinate. *)
Lemma apply_update_param_vec w w' (update : list F) g pv :
  param_groups w = [g] -> _getParamVec w = Some pv ->
  _apply_update w update = Some w' ->
  _getParamVec w'
    = Some (zip_with (fun x y => descend x (fmul y (lr g))) pv update)
  /\ lr <$> param_groups w' = [lr g].
Proof.
  intros Hg Hpv Hrun. unfold _apply_update in Hrun.
  bind_inv Hrun u' Hu. bind_inv Hrun v1 Hv1. bind_inv Hrun v' Hv'.
  unfold _getLRVec in Hrun. rewrite Hg in Hrun. simpl in Hrun.
  bind_inv Hrun gs Hgs. injection Hrun as <-.
  change (update_groups [g] (mul_scalar update (lr g)) 0 = Some gs) in Hgs.
  destruct (update_groups_data _ _ _ _ Hgs) as (Hd & Hl & Hlr & _).
  unfold _getParamVec in *. cbn [param_groups set_param_groups set_u_v].
  rewrite Hg in Hpv.
  assert (Hne : data <$> all_params [g] <> []).
  { intros Hnil. by rewrite Hnil in Hpv. }
  rewrite cat_fmap_Some in Hpv by (intros Hnil; by rewrite Hnil in Hne).
  injection Hpv as <-.
  rewrite cat_fmap_Some.
  - split; [|by rewrite Hlr]. f_equal. rewrite Hd, drop_0.
    unfold mul_scalar, mul_.
    generalize (mjoin (data <$> all_params [g])). intros d.
    clear. revert update.
    induction d as [|x d IH]; intros [|y update]; simpl; try done.
    by rewrite IH.
  - intros Hnil. rewrite Hnil in Hl. apply Hne.
    by destruct (all_params [g]).
Qed.

End ParameterUpdate.

Section AggregationEffects.
Context {F T : Type} `{Scalar F} `{CSVec F T}.
Import Torch Worker.
Implicit Types (w : Worker.t (F:=F) (T:=T)) (grads : list (list F)).

(** What [_apply_update] leaves untouched. *)
Lemma apply_update_frame w w' (update : list F) :
  _apply_update w update = Some w' ->
  k w' = k w /\ p2 w' = p2 w /\ sketch_mask w' = sketch_mask w /\
  grad_size w' = grad_size w /\ sketch w' = sketch w.
Proof.
  unfold _apply_update. intros Hrun.
  bind_inv Hrun u' Hu. bind_inv Hrun v1 Hv1. bind_inv Hrun v' Hv'.
  bind_inv Hrun lrVec Hlr. bind_inv Hrun wu Hwu. bind_inv Hrun gs Hgs.
  by injection Hrun as <-.
Qed.

Lemma all_reduce_sketched_inv w grads w' :
  all_reduce_sketched w grads = Some w' ->
  exists s wu,
    all_reduce_update w grads = Some (s, wu) /\
    _apply_update (set_sketch w s) wu = Some w'.
Proof.
  unfold all_reduce_sketched. intros Hrun.
  destruct (all_reduce_update w grads) as [[s wu]|]; [|done].
  by exists s, wu.
Qed.

(** After [all_reduce_sketched] on a worker with one parameter group, the
    flattened parameters are those before the call minus the learning rate
    times the aggregated weight update, coordinate by coordinate, and the
    worker holds the sketch of the contributed vectors. *)
Theorem aggregation_updates_parameters w grads w' g pv :
  param_groups w = [g] -> _getParamVec w = Some pv ->
  all_reduce_sketched w grads = Some w' ->
  exists s wu,
    all_reduce_update w grads = Some (s, wu) /\
    sketch w' = s /\
    _getParamVec w'
      = Some (zip_with (fun x y => descend x (fmul y (lr g))) pv wu).
Proof.
  intros Hg Hpv (s & wu & Hup & Hap)%all_reduce_sketched_inv.
  exists s, wu. split; [done|].
  destruct (apply_update_frame _ _ _ Hap) as (_ & _ & _ & _ & ->).
  split; [done|].
  by destruct (apply_update_param_vec (set_sketch w s) w' wu g pv Hg Hpv Hap).
Qed.

(** For a well-formed worker with one parameter group, [_apply_update]
    completes exactly when the update has at least [grad_size] entries and
    no non-zero entry at or beyond [grad_size]: entries beyond the
    parameters are ignored when they are zero, a shorter update raises. *)
Theorem apply_update_domain w (update : list F) g :
  wf w -> param_groups w = [g] ->
  is_Some (_apply_update w update) <->
  grad_size w <= length update /\
  Forall (fun i => i < grad_size w) (nonzero update).
Proof.
  intros Hwf Hg. split.
  - intros [w' Hrun]. unfold _apply_update in Hrun.
    bind_inv Hrun u' Hu. bind_inv Hrun v1 Hv1. bind_inv Hrun v' Hv'.
    unfold _getLRVec in Hrun. rewrite Hg in Hrun. simpl in Hrun.
    bind_inv Hrun gs Hgs.
    change (update_groups [g] (mul_scalar update (lr g)) 0 = Some gs) in Hgs.
    apply index_fill_Some in Hu as [_ Hall].
    rewrite (wf_u _ Hwf) in Hall. split; [|done].
    destruct (update_groups_data _ _ _ _ Hgs) as (_ & _ & _ & Hsum).
    rewrite <- Hg, (wf_size _ Hwf) in Hsum.
    unfold mul_scalar in Hsum. rewrite length_mul_ in Hsum. lia.
  - intros [Hlen Hall]. unfold _apply_update.
    destruct (index_fill_is_Some (u w) (nonzero update) fzero) as [u' ->].
    { by rewrite (wf_u _ Hwf). }
    destruct (index_fill_is_Some (v w) (nonzero update) fzero) as [v1 Hv1].
    { by rewrite (wf_v _ Hwf). }
    rewrite Hv1. simpl.
    pose proof (index_fill_length _ _ _ _ Hv1) as Hlv1.
    unfold mask_fill.
    rewrite bool_decide_eq_true_2
      by (rewrite length_mask_not, Hlv1, (wf_mask _ Hwf), (wf_v _ Hwf); done).
    simpl. unfold _getLRVec. rewrite Hg. simpl.
    destruct (update_groups_total [g] (mul_scalar update (lr g)) 0)
      as (gs & Hgs & _).
    { rewrite <- Hg, (wf_size _ Hwf). unfold mul_scalar.
      rewrite length_mul_. lia. }
    change (update_groups [g] (mul_scalar update (lr g)) 0)
      with (update_params (params g) (mul_scalar update (lr g)) 0
            ≫= (fun '(ps, _) => Some [ {| lr := lr g; params := ps |} ]))
      in Hgs.
    rewrite Hgs. done.
Qed.

(** Two workers with one parameter group each, the same learning rate, the
    same flattened parameters, sparsity settings and mask, and sketches
    that agree once zeroed, have the same flattened parameters after
    [all_reduce_sketched] on the same list of contributed vectors, whatever
    their buffers, gradients and earlier sketch contents are. *)
Theorem replicas_stay_in_sync w1 w2 grads w1' w2' g1 g2 :
  param_groups w1 = [g1] -> param_groups w2 = [g2] -> lr g1 = lr g2 ->
  is_Some (_getParamVec w1) -> _getParamVec w1 = _getParamVec w2 ->
  k w1 = k w2 -> p2 w1 = p2 w2 ->
  sketch_mask w1 = sketch_mask w2 -> grad_size w1 = grad_size w2 ->
  cs_zero (sketch w1) = cs_zero (sketch w2) ->
  all_reduce_sketched w1 grads = Some w1' ->
  all_reduce_sketched w2 grads = Some w2' ->
  _getParamVec w1' = _getParamVec w2'.
Proof.
  intros Hg1 Hg2 Hlr [pv Hpv1] Hpv Hk Hp Hm Hsz Hs
    (s1 & wu1 & Hup1 & Hap1)%all_reduce_sketched_inv
    (s2 & wu2 & Hup2 & Hap2)%all_reduce_sketched_inv.
  assert (Hsame : all_reduce_update w1 grads = all_reduce_update w2 grads).
  { unfold all_reduce_update, all_reduce_candidates.
    by rewrite Hk, Hp, Hm, Hsz, Hs. }
  rewrite Hup1, Hup2 in Hsame. injection Hsame as -> ->.
  rewrite Hpv1 in Hpv. symmetry in Hpv.
  destruct (apply_update_param_vec (set_sketch w1 s2) w1' wu2 g1 pv
              Hg1 Hpv1 Hap1) as [-> _].
  destruct (apply_update_param_vec (set_sketch w2 s2) w2' wu2 g2 pv
              Hg2 Hpv Hap2) as [-> _].
  by rewrite Hlr.
Qed.

End AggregationEffects.

(** *** The shape invariant *)

Section Invariant.
Context {F T : Type} `{Scalar F} `{CSVec F T}.
Import Torch Worker.
Implicit Types (w : Worker.t (F:=F) (T:=T)) (grads : list (list F)).

(** An aggregation that completes was given at least one vector, and only
    vectors of the length of the mask. *)
Lemma all_reduce_update_inputs w grads s wu :
  all_reduce_update w grads = Some (s, wu) ->
  grads <> [] /\ Forall (fun g => length g = grad_size w) grads.
Proof.
  intros (coords & c & rows & dense & weights
          & _ & Hrows & Hdense & Hl & _)%all_reduce_update_inv.
  split.
  - intros ->. simpl in Hrows. injection Hrows as <-. done.
  - apply mapM_Some in Hrows. clear Hdense.
    induction Hrows as [|g r grads rows Hg _ IH]; constructor; [|done].
    apply mask_select_Some in Hg as [_ Hlen].
    rewrite length_mask_not in Hlen. congruence.
Qed.

Lemma broadcast_to_None n (other : list F) :
  length other <> n -> length other <> 1 -> broadcast_to n other = None.
Proof.
  intros Hn H1. unfold broadcast_to. rewrite bool_decide_eq_false_2 by done.
  by destruct other as [|x [|y other]].
Qed.

Lemma add_scaled__length (t other t' : list F) a :
  add_scaled_ t a other = Some t' -> length t' = length t.
Proof.
  unfold add_scaled_. intros Hrun.
  destruct (broadcast_to (length t) other) as [o|] eqn:Ho; [|done].
  injection Hrun as <-. apply broadcast_to_length in Ho.
  rewrite length_zip_with. lia.
Qed.

Section WithSketch.
Context `{!CSVecSpec F T}.

(** On a well-formed worker [all_reduce_sketched] completes exactly on the
    non-empty lists of vectors of length [grad_size]: with no contributed
    vector, or with a vector of another length, it raises. *)
Theorem all_reduce_sketched_domain w grads :
  wf w ->
  is_Some (all_reduce_sketched w grads) <->
  grads <> [] /\ Forall (fun g => length g = grad_size w) grads.
Proof.
  intros Hwf. split.
  - intros [w' (s & wu & Hup & _)%all_reduce_sketched_inv].
    by eapply all_reduce_update_inputs.
  - intros [Hne Hall].
    destruct (all_reduce_sketched_total w grads Hwf Hne Hall) as (w' & -> & _).
    done.
Qed.

(** The shape invariant is kept by both methods that change the state:
    after [compute_grad] the worker is well formed and the returned buffer
    is its [v], of length [grad_size]; after [all_reduce_sketched] the
    worker is well formed, with the same mask and [grad_size]. *)
Theorem methods_keep_well_formed w :
  wf w ->
  (forall w' r, compute_grad w = Some (w', r) ->
     wf w' /\ r = v w' /\ length r = grad_size w') /\
  (forall grads w', all_reduce_sketched w grads = Some w' ->
     wf w' /\ sketch_mask w' = sketch_mask w /\ grad_size w' = grad_size w).
Proof.
  intros Hwf. split.
  - intros w' r Hrun.
    destruct (compute_grad_wf w w' r Hwf Hrun) as (Hwf' & -> & Hlen).
    split; [done|]. split; [done|]. by rewrite (wf_v _ Hwf').
  - intros grads w' Hrun.
    pose proof Hrun as (s & wu & Hup & Hap)%all_reduce_sketched_inv.
    destruct (all_reduce_update_inputs _ _ _ _ Hup) as [Hne Hall].
    destruct (all_reduce_sketched_total w grads Hwf Hne Hall)
      as (w'' & Hrun' & Hwf').
    assert (w'' = w') as -> by congruence.
    destruct (apply_update_frame _ _ _ Hap) as (_ & _ & Hm & Hg & _).
    done.
Qed.

(** [set_optimizer] on a model all of whose parameters require a gradient
    binds a well-formed state: one parameter group holding the model's
    parameters, [grad_size] their total size, a mask with one entry per
    coordinate carrying the parameter's [do_sketching] flag, a sketch with
    one coordinate per sketched coordinate, and zero buffers. *)
Theorem set_optimizer_binds w (model : list (Param (F:=F))) lr0 :
  model <> [] ->
  Forall (fun p => requires_grad p = true) model ->
  Forall (fun p => match grad p with
                   | Some g => length g = length (data p)
                   | None => True
                   end) model ->
  exists w',
    set_optimizer w model lr0 = Some w' /\ wf w' /\
    param_groups w' = [ {| lr := lr0; params := model |} ] /\
    grad_size w' = sum_list (numel <$> model) /\
    sketch_mask w'
      = mjoin ((fun p => replicate (numel p) (do_sketching p)) <$> model) /\
    cs_d (sketch w') = mask_count (sketch_mask w') /\
    u w' = zeros (grad_size w') /\ v w' = zeros (grad_size w').
Proof.
  intros Hne Hreq Hgr.
  destruct (set_optimizer_wf w model lr0 Hne Hreq Hgr) as (w' & Hrun & Hwf).
  exists w'. split; [done|]. split; [done|].
  unfold set_optimizer in Hrun.
  destruct model as [|p0 ps] eqn:Hm; [done|]. rewrite <- Hm in *.
  assert (Hf : filter (fun p => requires_grad p = true) model = model).
  { clear -Hreq. induction Hreq as [|p l Hp _ IH]; [done|].
    rewrite filter_cons, decide_True by done. by rewrite IH. }
  rewrite Hf in Hrun.
  assert (Hmask : cat_mask ((fun p => replicate (length (data p))
                                        (do_sketching p)) <$> model)
                  = Some (mjoin ((fun p => replicate (numel p)
                                             (do_sketching p)) <$> model))).
  { rewrite Hm. done. }
  rewrite Hmask in Hrun. cbn [mbind option_bind] in Hrun.
  injection Hrun as <-.
  cbn [param_groups grad_size sketch_mask sketch u v bind_optimizer].
  split; [done|]. split; [done|]. split; [done|]. split; [|done].
  apply cs_new_d.
Qed.
End WithSketch.

(** The momentum buffers take the gradient vector entry by entry: with a
    gradient vector of another length than [u] (and of more than one
    entry, which would be broadcast) [compute_grad] raises. *)
Lemma compute_grad_mismatch w raw :
  _getGradVec w = Some raw ->
  length raw <> length (u w) -> length raw <> 1 ->
  compute_grad w = None.
Proof.
  intros Hraw Hu Hone. unfold compute_grad. rewrite Hraw.
  cbn [mbind option_bind].
  assert (Hsteps : forall gradient : list F, length gradient = length raw ->
            broadcast_to (length (u w)) gradient = None
            /\ broadcast_to (length (mul_ (u w) (momentum w))) gradient = None).
  { intros gradient Hg. rewrite length_mul_.
    split; apply broadcast_to_None; congruence. }
  destruct (negb (fis_zero (weight_decay w))).
  - case_bool_decide; [done|].
    destruct (_getParamVec w) as [pv|]; [|done]. cbn [mbind option_bind].
    destruct (add_scaled_ raw _ pv) as [gradient|] eqn:Hg; [|done].
    cbn [mbind option_bind]. apply add_scaled__length in Hg.
    destruct (Hsteps gradient Hg) as [Hb1 Hb2].
    destruct (nesterov w); unfold add_; [by rewrite Hb1|by rewrite Hb2].
  - cbn [mbind option_bind]. destruct (Hsteps raw eq_refl) as [Hb1 Hb2].
    destruct (nesterov w); unfold add_; [by rewrite Hb1|by rewrite Hb2].
Qed.

(** A worker bound by [set_optimizer] to a model with parameters that do
    not require a gradient cannot compute a gradient: the buffers are sized
    from the trainable parameters while the gradient vector covers all
    parameters, so that [compute_grad] raises (unless the gradient vector
    has a single entry, which is broadcast). *)
Theorem frozen_parameters_break_compute_grad w w' (model : list (Param (F:=F)))
    lr0 :
  set_optimizer w model lr0 = Some w' ->
  Forall (fun p => match grad p with
                   | Some g => length g = length (data p)
                   | None => True
                   end) model ->
  sum_list (numel <$> filter (fun p => requires_grad p = true) model)
    <> sum_list (numel <$> model) ->
  sum_list (numel <$> model) <> 1 ->
  compute_grad w' = None.
Proof.
  intros Hrun Hgr Hfrozen Hone. unfold set_optimizer in Hrun.
  destruct model as [|p0 ps] eqn:Hm; [done|]. rewrite <- Hm in *.
  set (trainable := filter (fun p => requires_grad p = true) model) in *.
  destruct (cat_mask _) as [mask|]; [|done].
  simpl in Hrun. injection Hrun as <-.
  assert (Hall : all_params [ {| lr := lr0; params := model |} ] = model).
  { unfold all_params. simpl. apply app_nil_r. }
  assert (Hmodel : model <> []) by (by rewrite Hm).
  set (raw := mjoin ((fun p => match grad p with
                                 | None => zeros (length (data p))
                                 | Some g => g
                                 end) <$> model)).
  assert (Hraw : length raw = sum_list (numel <$> model)).
  { unfold raw. apply length_join_fmap.
    eapply Forall_impl; [exact Hgr|]. simpl. intros p Hp. unfold numel.
    destruct (grad p); [done|]. apply length_zeros. }
  apply (compute_grad_mismatch _ raw).
  - unfold _getGradVec. cbn [param_groups bind_optimizer]. rewrite Hall.
    by rewrite cat_fmap_Some.
  - cbn [u bind_optimizer]. rewrite length_zeros, Hraw.
    intros Heq. apply Hfrozen. symmetry. exact Heq.
  - congruence.
Qed.

End Invariant.

(** *** Reading and writing the flat vectors *)

Section FlatVectors.
Context {F T : Type} `{Scalar F} `{CSVec F T}.
Import Torch Worker.
Implicit Types (w : Worker.t (F:=F) (T:=T)) (vec : list F).
Implicit Types (ps : list (Param (F:=F))) (gs : list (ParamGroup (F:=F))).

Local Abbreviation shaped :=
  (fun p : Param (F:=F) => match grad p with
                           | Some g => length g = length (data p)
                           | None => True
                           end).

Local Abbreviation flat_grad :=
  (fun p : Param (F:=F) => match grad p with
                           | None => zeros (length (data p))
                           | Some g => g
                           end).

Lemma all_params_cons (g : ParamGroup (F:=F)) gs :
  all_params (g :: gs) = params g ++ all_params gs.
Proof. done. Qed.

(** A slice [vec[start:start + size]] has [size] entries exactly when it is
    empty or lies within the vector. *)
Lemma slice_fits vec start size :
  length (take size (drop start vec)) = size <->
  size = 0 \/ start + size <= length vec.
Proof. rewrite length_take, length_drop. lia. Qed.

Lemma same_shape_flat_grad ps ps' :
  Forall2 same_shape ps ps' -> flat_grad <$> ps' = flat_grad <$> ps.
Proof.
  induction 1 as [|p p' ps ps' [Hn Hg] _ IH]; [done|].
  rewrite !fmap_cons, IH. f_equal. rewrite Hg. unfold numel in Hn.
  destruct (grad p); [done|]. by rewrite Hn.
Qed.

Lemma sync_params_Some ps vec start ps' start' :
  Forall shaped ps ->
  sync_params ps vec start = Some (ps', start') ->
  start' = start + sum_list (numel <$> ps) /\
  (sum_list (numel <$> ps) = 0
   \/ start + sum_list (numel <$> ps) <= length vec) /\
  mjoin (data <$> ps') = take (sum_list (numel <$> ps)) (drop start vec) /\
  Forall2 same_shape ps ps'.
Proof.
  revert start ps'. induction ps as [|p ps IH]; intros start ps' Hsh Hrun.
  - injection Hrun as <- <-. simpl.
    split; [lia|]. split; [by left|]. split; [done|constructor].
  - apply Forall_cons in Hsh as [Hp Hsh]. cbn [sync_params] in Hrun.
    assert (Hshape : match grad p with
                     | None => length (data p)
                     | Some g => length g
                     end = length (data p)) by (by destruct (grad p)).
    rewrite Hshape in Hrun. case_bool_decide as Hfit; [|done].
    destruct (sync_params ps vec (start + length (data p)))
      as [[ps'' s'']|] eqn:Hrec; [|done].
    cbn in Hrun. injection Hrun as <- <-.
    destruct (IH _ _ Hsh Hrec) as (-> & Hsum & Hdata & Hsame).
    pose proof Hfit as Hfit'%slice_fits.
    rewrite sum_numel_cons. change (numel p) with (length (data p)).
    set (rest := sum_list (numel <$> ps)) in *.
    split; [lia|]. split; [lia|]. split.
    + rewrite data_join_cons. cbn [data]. rewrite Hdata.
      by rewrite <- take_take_drop, drop_drop.
    + constructor; [|done]. split; [|done]. unfold numel. cbn [data]. done.
Qed.

Lemma sync_params_total ps vec start :
  Forall shaped ps ->
  sum_list (numel <$> ps) = 0
  \/ start + sum_list (numel <$> ps) <= length vec ->
  is_Some (sync_params ps vec start).
Proof.
  revert start. induction ps as [|p ps IH]; intros start Hsh Hlen; [done|].
  apply Forall_cons in Hsh as [Hp Hsh]. cbn [sync_params].
  assert (Hshape : match grad p with
                   | None => length (data p)
                   | Some g => length g
                   end = length (data p)) by (by destruct (grad p)).
  rewrite Hshape. rewrite sum_numel_cons in Hlen.
  change (numel p) with (length (data p)) in Hlen.
  set (rest := sum_list (numel <$> ps)) in *.
  rewrite bool_decide_eq_true_2 by (apply slice_fits; lia).
  destruct (IH (start + length (data p)) Hsh) as [[ps' s'] ->]; [lia|].
  done.
Qed.

Lemma sync_groups_Some gs vec start gs' :
  Forall shaped (all_params gs) ->
  sync_groups gs vec start = Some gs' ->
  (sum_list (numel <$> all_params gs) = 0
   \/ start + sum_list (numel <$> all_params gs) <= length vec) /\
  mjoin (data <$> all_params gs')
    = take (sum_list (numel <$> all_params gs)) (drop start vec) /\
  Forall2 same_shape (all_params gs) (all_params gs').
Proof.
  revert start gs'. induction gs as [|g gs IH]; intros start gs' Hsh Hrun.
  - injection Hrun as <-. split; [by left|]. split; [done|constructor].
  - rewrite all_params_cons in Hsh. apply Forall_app in Hsh as [Hg Hsh].
    cbn [sync_groups] in Hrun.
    destruct (sync_params (params g) vec start) as [[ps s']|] eqn:Hps;
      [|done].
    cbn in Hrun.
    destruct (sync_groups gs vec s') as [gs''|] eqn:Hgs; [|done].
    cbn in Hrun. injection Hrun as <-.
    destruct (sync_params_Some _ _ _ _ _ Hg Hps) as (-> & Hsum & Hd & Hsame).
    destruct (IH _ _ Hsh Hgs) as (Hsum' & Hd' & Hsame').
    rewrite !all_params_cons. cbn [params].
    rewrite sum_numel_app, fmap_app, join_app, Hd, Hd'.
    split; [lia|]. split.
    + by rewrite <- take_take_drop, drop_drop.
    + by apply Forall2_app.
Qed.

Lemma sync_groups_total gs vec start :
  Forall shaped (all_params gs) ->
  sum_list (numel <$> all_params gs) = 0
  \/ start + sum_list (numel <$> all_params gs) <= length vec ->
  is_Some (sync_groups gs vec start).
Proof.
  revert start. induction gs as [|g gs IH]; intros start Hsh Hlen; [done|].
  rewrite all_params_cons in Hsh, Hlen.
  apply Forall_app in Hsh as [Hg Hsh]. rewrite sum_numel_app in Hlen.
  cbn [sync_groups].
  destruct (sync_params_total (params g) vec start Hg) as [[ps s'] Hps];
    [lia|].
  rewrite Hps. cbn.
  destruct (sync_params_Some _ _ _ _ _ Hg Hps) as (-> & _).
  destruct (IH (start + sum_list (numel <$> params g)) Hsh) as [gs' ->];
    [lia|].
  done.
Qed.

(** [sync] on a well-formed worker completes exactly when the vector has at
    least [grad_size] entries; the parameters then read back as the first
    [grad_size] entries of the vector, the gradients are as before, and the
    state is still well formed. *)
Theorem sync_sets_parameters w vec :
  wf w ->
  (is_Some (sync w vec) <-> grad_size w <= length vec) /\
  (forall w', sync w vec = Some w' ->
     _getParamVec w' = Some (take (grad_size w) vec) /\
     _getGradVec w' = _getGradVec w /\ wf w').
Proof.
  intros Hwf. pose proof (wf_grads _ Hwf) as Hsh.
  pose proof (wf_size _ Hwf) as Hsize. split; [split|].
  - intros [w' Hrun]. unfold sync in Hrun.
    destruct (sync_groups (param_groups w) vec 0) as [gs'|] eqn:Hgs; [|done].
    destruct (sync_groups_Some _ _ _ _ Hsh Hgs) as (Hsum & _). lia.
  - intros Hlen. unfold sync.
    destruct (sync_groups_total (param_groups w) vec 0 Hsh) as [gs' ->];
      [lia|].
    done.
  - intros w' Hrun. unfold sync in Hrun.
    destruct (sync_groups (param_groups w) vec 0) as [gs'|] eqn:Hgs; [|done].
    injection Hrun as <-.
    destruct (sync_groups_Some _ _ _ _ Hsh Hgs) as (Hsum & Hd & Hsame).
    assert (Hne : all_params gs' <> []).
    { intros Hnil. apply (wf_params _ Hwf).
      apply Forall2_length in Hsame. rewrite Hnil in Hsame.
      by apply length_zero_iff_nil. }
    unfold _getParamVec, _getGradVec. cbn [param_groups set_param_groups].
    rewrite !cat_fmap_Some by (done || apply Hwf).
    rewrite Hd, Hsize, (same_shape_flat_grad _ _ Hsame).
    split; [done|]. split; [done|].
    constructor; cbn [u v sketch_mask sketch grad_size param_groups
                        set_param_groups]; try apply Hwf; [done| |].
    + by rewrite (same_shape_sum _ _ Hsame).
    + by apply (same_shape_grads _ _ Hsame).
Qed.

Lemma all_params_map (f : Param (F:=F) -> Param (F:=F)) gs :
  all_params (map_params f gs) = f <$> all_params gs.
Proof.
  induction gs as [|g gs IH]; [done|].
  unfold map_params in *. rewrite fmap_cons, !all_params_cons, fmap_app, IH.
  done.
Qed.

Lemma join_fmap_cons {A} (f : A -> list F) (x : A) (l : list A) :
  mjoin (f <$> x :: l) = f x ++ mjoin (f <$> l).
Proof. done. Qed.

Lemma join_zeros ps :
  mjoin ((fun p : Param (F:=F) => zeros (length (flat_grad p))) <$> ps)
    = zeros (F:=F) (length (mjoin (flat_grad <$> ps))).
Proof.
  induction ps as [|p ps IH]; [done|].
  rewrite !join_fmap_cons, IH, length_app.
  unfold zeros. by rewrite replicate_add.
Qed.

(** After [_zero_grad] the gradient vector is the zero vector of the same
    length (and is missing exactly when it was missing, on a worker without
    parameters), and the parameter vector is as before. *)
Theorem zero_grad_clears_gradients w :
  _getGradVec (_zero_grad w)
    = (fun gv => zeros (length gv)) <$> _getGradVec w /\
  _getParamVec (_zero_grad w) = _getParamVec w.
Proof.
  unfold _getGradVec, _getParamVec, _zero_grad.
  cbn [param_groups set_param_groups]. rewrite all_params_map.
  set (ps := all_params (param_groups w)).
  destruct (decide (ps = [])) as [Hnil|Hne]; [by rewrite Hnil|].
  rewrite <- !list_fmap_compose.
  rewrite !cat_fmap_Some by done.
  split; [|done].
  assert (Hopt : forall x : list F,
            (fun gv : list F => zeros (F:=F) (length gv)) <$> Some x
            = Some (zeros (length x))) by done.
  rewrite Hopt, <- join_zeros. do 2 f_equal.
  apply list_fmap_ext. intros _ q _. cbn [compose grad data].
  destruct (grad q) as [g|]; cbn [fmap option_fmap option_map].
  - done.
  - by rewrite length_zeros.
Qed.

Local Abbreviation has_grad := (fun p : Param (F:=F) => is_Some (grad p)).

Lemma regrad_shaped ps ps' :
  Forall2 regrad ps ps' -> Forall shaped ps -> Forall shaped ps'.
Proof.
  induction 1 as [|p p' ps ps' [Hd Hg] _ IH]; [done|].
  intros [Hp Hps]%Forall_cons. constructor; [|by apply IH].
  rewrite Hd. destruct (grad p), (grad p'); simplify_eq/=; congruence.
Qed.

Lemma regrad_data ps ps' :
  Forall2 regrad ps ps' -> data <$> ps' = data <$> ps.
Proof.
  induction 1 as [|p p' ps ps' [Hd _] _ IH]; [done|].
  by rewrite !fmap_cons, Hd, IH.
Qed.

Lemma regrad_all_grads ps ps' :
  Forall2 regrad ps ps' -> Forall has_grad ps -> Forall has_grad ps'.
Proof.
  induction 1 as [|p p' ps ps' [_ Hg] _ IH]; [done|].
  intros [[g Hp] Hps]%Forall_cons. constructor; [|by apply IH].
  rewrite Hp in Hg. by destruct (grad p').
Qed.

Lemma filter_all {A} (P : A -> Prop) `{forall x, Decision (P x)} (l : list A) :
  Forall P l -> filter P l = l.
Proof.
  induction 1 as [|x l Hx _ IH]; [done|].
  by rewrite filter_cons_True, IH.
Qed.

Lemma set_grads_Some ps vec start ps' start' :
  Forall shaped ps ->
  set_grads ps vec start = Some (ps', start') ->
  start' = start + sum_list (numel <$> filter has_grad ps) /\
  (sum_list (numel <$> filter has_grad ps) = 0
   \/ start + sum_list (numel <$> filter has_grad ps) <= length vec) /\
  mjoin (flat_grad <$> filter has_grad ps')
    = fadd fzero <$> take (sum_list (numel <$> filter has_grad ps))
                       (drop start vec) /\
  Forall2 regrad ps ps'.
Proof.
  revert start ps'. induction ps as [|p ps IH]; intros start ps' Hsh Hrun.
  - injection Hrun as <- <-. simpl.
    split; [lia|]. split; [by left|]. split; [done|constructor].
  - apply Forall_cons in Hsh as [Hp Hsh]. cbn [set_grads] in Hrun.
    destruct (grad p) as [g|] eqn:Hg.
    + case_bool_decide as Hfit; [|done].
      destruct (set_grads ps vec (start + length (data p)))
        as [[ps'' s'']|] eqn:Hrec; [|done].
      cbn in Hrun. injection Hrun as <- <-.
      destruct (IH _ _ Hsh Hrec) as (-> & Hsum & Hgrads & Hsame).
      rewrite Hp in Hfit. pose proof Hfit as Hfit'%slice_fits.
      rewrite !filter_cons_True by (cbn [grad]; rewrite ?Hg; done).
      rewrite sum_numel_cons. change (numel p) with (length (data p)).
      set (rest := sum_list (numel <$> filter has_grad ps)) in *.
      split; [lia|]. split; [lia|]. split.
      * rewrite join_fmap_cons. cbn [grad]. rewrite Hgrads.
        unfold zeros. rewrite zip_with_replicate_l by lia.
        by rewrite <- take_take_drop, drop_drop, fmap_app.
      * constructor; [|done]. split; [done|]. cbn [grad].
        rewrite Hg. cbn. f_equal. rewrite length_zip_with, length_zeros. lia.
    + destruct (set_grads ps vec start) as [[ps'' s'']|] eqn:Hrec; [|done].
      cbn in Hrun. injection Hrun as <- <-.
      destruct (IH _ _ Hsh Hrec) as (-> & Hsum & Hgrads & Hsame).
      rewrite !filter_cons_False by (rewrite Hg; by intros [? ?]).
      split; [done|]. split; [done|]. split; [done|].
      constructor; [|done]. by split.
Qed.

Lemma set_grads_total ps vec start :
  Forall shaped ps ->
  sum_list (numel <$> filter has_grad ps) = 0
  \/ start + sum_list (numel <$> filter has_grad ps) <= length vec ->
  is_Some (set_grads ps vec start).
Proof.
  revert start. induction ps as [|p ps IH]; intros start Hsh Hlen; [done|].
  apply Forall_cons in Hsh as [Hp Hsh]. cbn [set_grads].
  destruct (grad p) as [g|] eqn:Hg.
  - rewrite filter_cons_True, sum_numel_cons in Hlen by (rewrite Hg; done).
    change (numel p) with (length (data p)) in Hlen.
    set (rest := sum_list (numel <$> filter has_grad ps)) in *.
    rewrite Hp. rewrite bool_decide_eq_true_2 by (apply slice_fits; lia).
    destruct (IH (start + length (data p)) Hsh) as [[ps' s'] ->]; [lia|].
    done.
  - rewrite filter_cons_False in Hlen by (rewrite Hg; by intros [? ?]).
    destruct (IH start Hsh Hlen) as [[ps' s'] ->]. done.
Qed.

Lemma set_group_grads_Some gs vec start gs' :
  Forall shaped (all_params gs) ->
  set_group_grads gs vec start = Some gs' ->
  (sum_list (numel <$> filter has_grad (all_params gs)) = 0
   \/ start + sum_list (numel <$> filter has_grad (all_params gs))
      <= length vec) /\
  mjoin (flat_grad <$> filter has_grad (all_params gs'))
    = fadd fzero <$> take (sum_list (numel <$> filter has_grad (all_params gs)))
                       (drop start vec) /\
  Forall2 regrad (all_params gs) (all_params gs').
Proof.
  revert start gs'. induction gs as [|g gs IH]; intros start gs' Hsh Hrun.
  - injection Hrun as <-. split; [by left|]. split; [done|constructor].
  - rewrite all_params_cons in Hsh. apply Forall_app in Hsh as [Hg Hsh].
    cbn [set_group_grads] in Hrun.
    destruct (set_grads (params g) vec start) as [[ps s']|] eqn:Hps; [|done].
    cbn in Hrun.
    destruct (set_group_grads gs vec s') as [gs''|] eqn:Hgs; [|done].
    cbn in Hrun. injection Hrun as <-.
    destruct (set_grads_Some _ _ _ _ _ Hg Hps) as (-> & Hsum & Hd & Hsame).
    destruct (IH _ _ Hsh Hgs) as (Hsum' & Hd' & Hsame').
    rewrite !all_params_cons. cbn [params].
    rewrite !list.filter_app, sum_numel_app, fmap_app, join_app, Hd, Hd'.
    split; [lia|]. split.
    + by rewrite <- take_take_drop, drop_drop, fmap_app.
    + by apply Forall2_app.
Qed.

Lemma set_group_grads_total gs vec start :
  Forall shaped (all_params gs) ->
  sum_list (numel <$> filter has_grad (all_params gs)) = 0
  \/ start + sum_list (numel <$> filter has_grad (all_params gs))
     <= length vec ->
  is_Some (set_group_grads gs vec start).
Proof.
  revert start. induction gs as [|g gs IH]; intros start Hsh Hlen; [done|].
  rewrite all_params_cons in Hsh, Hlen.
  apply Forall_app in Hsh as [Hg Hsh].
  rewrite list.filter_app, sum_numel_app in Hlen.
  cbn [set_group_grads].
  destruct (set_grads_total (params g) vec start Hg) as [[ps s'] Hps]; [lia|].
  rewrite Hps. cbn.
  destruct (set_grads_Some _ _ _ _ _ Hg Hps) as (-> & _).
  destruct (IH (start + sum_list (numel <$> filter has_grad (params g))) Hsh)
    as [gs' ->]; [lia|].
  done.
Qed.

(** [_setGradVec] consumes the vector over the parameters that have a
    gradient only: with [n] their total size, it completes exactly when the
    vector has at least [n] entries, and their gradients then hold the first
    [n] entries (added to zero), in order.  The parameter values are
    untouched and the state stays well formed; when every parameter has a
    gradient, [_getGradVec] reads the vector back. *)
Theorem setGradVec_fills_gradients w vec :
  wf w ->
  let n := sum_list (numel <$> filter has_grad (all_params (param_groups w))) in
  (is_Some (_setGradVec w vec) <-> n <= length vec) /\
  (forall w', _setGradVec w vec = Some w' ->
     mjoin (flat_grad <$> filter has_grad (all_params (param_groups w')))
       = fadd fzero <$> take n vec /\
     _getParamVec w' = _getParamVec w /\ wf w' /\
     (Forall has_grad (all_params (param_groups w)) ->
      _getGradVec w' = Some (fadd fzero <$> take (grad_size w) vec))).
Proof.
  intros Hwf n. pose proof (wf_grads _ Hwf) as Hsh.
  pose proof (wf_size _ Hwf) as Hsize. split; [split|].
  - intros [w' Hrun]. unfold _setGradVec in Hrun.
    destruct (set_group_grads (param_groups w) vec 0) as [gs'|] eqn:Hgs;
      [|done].
    destruct (set_group_grads_Some _ _ _ _ Hsh Hgs) as (Hsum & _).
    fold n in Hsum. lia.
  - intros Hlen. unfold _setGradVec.
    destruct (set_group_grads_total (param_groups w) vec 0 Hsh) as [gs' ->];
      [fold n; lia|].
    done.
  - intros w' Hrun. unfold _setGradVec in Hrun.
    destruct (set_group_grads (param_groups w) vec 0) as [gs'|] eqn:Hgs;
      [|done].
    injection Hrun as <-.
    destruct (set_group_grads_Some _ _ _ _ Hsh Hgs) as (Hsum & Hd & Hsame).
    fold n in Hsum, Hd.
    assert (Hne : all_params gs' <> []).
    { intros Hnil. apply (wf_params _ Hwf).
      apply Forall2_length in Hsame. rewrite Hnil in Hsame.
      by apply length_zero_iff_nil. }
    assert (Hnumel : numel <$> all_params gs'
                     = numel <$> all_params (param_groups w)).
    { clear -Hsame. induction Hsame as [|p p' ps ps' [Hd _] _ IH]; [done|].
      rewrite !fmap_cons, IH. unfold numel. by rewrite Hd. }
    cbn [param_groups set_param_groups]. split; [exact Hd|]. split; [|split].
    + unfold _getParamVec. cbn [param_groups set_param_groups].
      by rewrite (regrad_data _ _ Hsame).
    + constructor; cbn [u v sketch_mask sketch grad_size param_groups
                          set_param_groups]; try apply Hwf; [done| |].
      * by rewrite Hnumel.
      * by apply (regrad_shaped _ _ Hsame).
    + intros Hall. unfold _getGradVec. cbn [param_groups set_param_groups].
      rewrite cat_fmap_Some by done. f_equal.
      pose proof (regrad_all_grads _ _ Hsame Hall) as Hall'.
      rewrite (filter_all _ _ Hall') in Hd. rewrite Hd. unfold n.
      by rewrite (filter_all _ _ Hall), Hsize.
Qed.

Local Abbreviation stepped :=
  (fun p p' : Param (F:=F) =>
     same_shape p p' /\
     data p' = match grad p with
               | Some g => zip_with descend (data p) g
               | None => data p
               end).

Lemma add_own_grad_spec (p : Param (F:=F)) :
  shaped p -> exists p', add_own_grad p = Some p' /\ stepped p p'.
Proof.
  intros Hp. cbv beta in Hp. unfold add_own_grad.
  destruct (grad p) as [g|] eqn:Hg.
  - unfold add_, broadcast_to, neg.
    rewrite length_fmap, bool_decide_eq_true_2 by done.
    cbn [mbind option_bind]. eexists. split; [done|].
    fold (neg g). rewrite zip_with_neg.
    split; [|done]. split; [|done]. unfold numel. cbn [data].
    rewrite length_zip_with. lia.
  - exists p. split; [done|]. split; [|done]. by split.
Qed.

Lemma mapM_add_own_grad ps :
  Forall shaped ps ->
  exists ps', mapM add_own_grad ps = Some ps' /\ Forall2 stepped ps ps'.
Proof.
  induction 1 as [|p ps Hp _ (ps' & Hps & Hsame)].
  - exists []. split; [done|constructor].
  - destruct (add_own_grad_spec p Hp) as (p' & Hp' & Hstep).
    exists (p' :: ps'). cbn [mapM]. rewrite Hp', Hps.
    split; [done|]. by constructor.
Qed.

Lemma mapM_groups_add_own_grad gs :
  Forall shaped (all_params gs) ->
  exists gs',
    mapM (fun g => ps ← mapM add_own_grad (params g);
                   Some {| lr := lr g; params := ps |}) gs = Some gs' /\
    Forall2 stepped (all_params gs) (all_params gs').
Proof.
  induction gs as [|g gs IH]; intros Hsh.
  - exists []. split; [done|constructor].
  - rewrite all_params_cons in Hsh. apply Forall_app in Hsh as [Hg Hsh].
    destruct (mapM_add_own_grad _ Hg) as (ps' & Hps & Hstep).
    destruct (IH Hsh) as (gs' & Hgs & Hsteps).
    exists ({| lr := lr g; params := ps' |} :: gs').
    cbn [mapM]. rewrite Hps. cbn [mbind option_bind]. rewrite Hgs.
    split; [done|]. rewrite !all_params_cons. by apply Forall2_app.
Qed.

Lemma stepped_flat ps ps' :
  Forall2 stepped ps ps' -> Forall shaped ps -> Forall has_grad ps ->
  mjoin (data <$> ps')
    = zip_with descend (mjoin (data <$> ps)) (mjoin (flat_grad <$> ps)).
Proof.
  induction 1 as [|p p' ps ps' [_ Hd] _ IH]; [done|].
  intros [Hp Hsh]%Forall_cons [[g Hg] Hall]%Forall_cons.
  cbv beta in Hp.
  rewrite !join_fmap_cons, Hd, Hg, (IH Hsh Hall). rewrite Hg in Hp.
  by rewrite zip_with_app.
Qed.

Lemma stepped_same_shape ps ps' :
  Forall2 stepped ps ps' -> Forall2 same_shape ps ps'.
Proof.
  intros Hstep. eapply Forall2_impl; [exact Hstep|]. by intros p p' [Hs _].
Qed.

(** [_updateParamsWithGradVec] always completes on a well-formed worker:
    every parameter with a gradient has its gradient subtracted entry by
    entry, a parameter without one is left alone, and the gradients are
    kept.  When every parameter has a gradient, the parameter vector
    afterwards is the parameter vector minus the gradient vector. *)
Theorem updateParamsWithGradVec_descends w :
  wf w ->
  exists w',
    _updateParamsWithGradVec w = Some w' /\ wf w' /\
    _getGradVec w' = _getGradVec w /\
    Forall2 (fun p p' => data p' = match grad p with
                                   | Some g => zip_with descend (data p) g
                                   | None => data p
                                   end)
      (all_params (param_groups w)) (all_params (param_groups w')) /\
    (Forall has_grad (all_params (param_groups w)) ->
     forall pv gv, _getParamVec w = Some pv -> _getGradVec w = Some gv ->
       _getParamVec w' = Some (zip_with descend pv gv)).
Proof.
  intros Hwf. pose proof (wf_grads _ Hwf) as Hsh.
  destruct (mapM_groups_add_own_grad _ Hsh) as (gs' & Hgs & Hstep).
  pose proof (stepped_same_shape _ _ Hstep) as Hsame.
  exists (set_param_groups w gs'). unfold _updateParamsWithGradVec.
  rewrite Hgs. split; [done|].
  assert (Hne : all_params gs' <> []).
  { intros Hnil. apply (wf_params _ Hwf).
    apply Forall2_length in Hsame. rewrite Hnil in Hsame.
    by apply length_zero_iff_nil. }
  split; [|split; [|split]].
  - constructor; cbn [u v sketch_mask sketch grad_size param_groups
                        set_param_groups]; try apply Hwf; [done| |].
    + rewrite (same_shape_sum _ _ Hsame). apply Hwf.
    + by apply (same_shape_grads _ _ Hsame).
  - unfold _getGradVec. cbn [param_groups set_param_groups].
    by rewrite (same_shape_flat_grad _ _ Hsame).
  - cbn [param_groups set_param_groups].
    eapply Forall2_impl; [exact Hstep|]. by intros p p' [_ Hd].
  - intros Hall pv gv Hpv Hgv.
    unfold _getParamVec, _getGradVec in *.
    cbn [param_groups set_param_groups].
    rewrite cat_fmap_Some in Hpv, Hgv by apply Hwf.
    injection Hpv as <-. injection Hgv as <-.
    rewrite cat_fmap_Some by done. f_equal.
    by apply stepped_flat.
Qed.

End FlatVectors.

(** ** Further properties of the coordinator *)

Section Dispatch.
Import Ray.
Context {Rng Loader Batch Arg : Type}.
Context (np_random_permutation : Rng -> nat -> list nat * Rng).
Context (next_batch : Loader -> option Batch).
Context (as_loaders : Arg -> option (list Loader)).

Local Abbreviation forward :=
  (FedSketchedModel.__call__ np_random_permutation next_batch as_loaders).
Local Abbreviation forward_calls :=
  (FedSketchedModel.forward_calls (Batch:=Batch) (Arg:=Arg) next_batch).
Local Abbreviation Call := (RemoteCall Batch Arg).
Local Abbreviation step := (FedSketchedOptimizer.step (Batch:=Batch) (Arg:=Arg)).
Local Abbreviation _step := (FedSketchedOptimizer._step (Batch:=Batch) (Arg:=Arg)).
Local Abbreviation zero_grad :=
  (FedSketchedOptimizer.zero_grad (Batch:=Batch) (Arg:=Arg)).
Local Abbreviation loss := (FedSketchedLoss.__call__ (Batch:=Batch) (Arg:=Arg)).

Implicit Types (m : FedSketchedModel.t) (o : FedSketchedOptimizer.t)
  (l : FedSketchedLoss.t) (g : Rng) (args : list Arg).

(** The forward call in training mode, once the sample and the loaders are
    known. *)
Lemma forward_sampled m g args size idx pc a ls pl :
  FedSketchedModel.training m = true ->
  FedSketchedModel.sample_size m = Some size ->
  Py.choice_no_replace
    (np_random_permutation g (length (FedSketchedModel.workers m))).1
    (length (FedSketchedModel.workers m)) size = Some idx ->
  Py.take_idx (FedSketchedModel.workers m) idx = Some pc ->
  args !! 0 = Some a -> as_loaders a = Some ls ->
  Py.take_idx ls idx = Some pl ->
  forward m g args
  = {| FedSketchedModel.model := FedSketchedModel.append_round m idx;
       FedSketchedModel.rng :=
         (np_random_permutation g (length (FedSketchedModel.workers m))).2;
       FedSketchedModel.issued := (forward_calls (zip pc pl)).1;
       FedSketchedModel.returned :=
         if (forward_calls (zip pc pl)).2
         then Some (FedSketchedModel.outputs (forward_calls (zip pc pl)).1)
         else None |}.
Proof.
  intros Ht Hsize Hidx Hpc Ha Hls Hpl.
  unfold FedSketchedModel.__call__. rewrite Ht, Hsize.
  destruct (np_random_permutation g _) as [perm g'] eqn:Hperm.
  cbn [fst snd] in *. rewrite Hidx, Hpc, Ha. cbn [mbind option_bind].
  rewrite Hls. cbn [mbind option_bind]. rewrite Hpl.
  by destruct (FedSketchedModel.forward_calls next_batch (zip pc pl)).
Qed.

(** What a forward call in training mode that returns has gone through. *)
Lemma forward_returned_inv m g args r :
  FedSketchedModel.training m = true ->
  FedSketchedModel.returned (forward m g args) = Some r ->
  exists idx pc a ls pl,
    Py.take_idx (FedSketchedModel.workers m) idx = Some pc /\
    args !! 0 = Some a /\ as_loaders a = Some ls /\
    Py.take_idx ls idx = Some pl /\
    FedSketchedModel.model (forward m g args)
      = FedSketchedModel.append_round m idx /\
    forward_calls (zip pc pl)
      = (FedSketchedModel.issued (forward m g args), true).
Proof.
  intros Ht. unfold FedSketchedModel.__call__. rewrite Ht.
  destruct (FedSketchedModel.sample_size m) as [size|]; [|done].
  destruct (np_random_permutation g _) as [perm g'] eqn:Hperm. simpl.
  destruct (Py.choice_no_replace perm _ size) as [idx|] eqn:Hidx; [|done].
  destruct (Py.take_idx (FedSketchedModel.workers m) idx) as [pc|] eqn:Hpc;
    [|done].
  destruct (args !! 0) as [a|] eqn:Ha; [|done]. cbn [mbind option_bind].
  destruct (as_loaders a) as [ls|] eqn:Hls; [|done]. cbn [mbind option_bind].
  destruct (Py.take_idx ls idx) as [pl|] eqn:Hpl; [|done].
  destruct (FedSketchedModel.forward_calls next_batch (zip pc pl))
    as [cs ok] eqn:Hcs.
  simpl. destruct ok; [|done]. intros _.
  by exists idx, pc, a, ls, pl.
Qed.

Lemma forward_calls_batches (pairs : list (WorkerHandle * Loader))
    (cs : list Call) :
  forward_calls pairs = (cs, true) ->
  Forall2 (fun pl c => exists b, next_batch pl.2 = Some b /\
             c = {| target := pl.1; method := model_call (batch b) |})
    pairs cs.
Proof.
  revert cs. induction pairs as [|[c l] pairs IH]; intros cs; simpl.
  - intros [= <-]. constructor.
  - destruct (next_batch l) as [b|] eqn:Hb; [|done].
    destruct (FedSketchedModel.forward_calls next_batch pairs) as [cs' ok].
    intros [= <- ->]. constructor; [|by apply IH].
    by exists b.
Qed.

(** The invocations issued until a loader raises: one per pair before the
    first exhausted loader. *)
Lemma forward_calls_exhausted (pairs : list (WorkerHandle * Loader)) n w ld :
  pairs !! n = Some (w, ld) -> next_batch ld = None ->
  Forall (fun pl => is_Some (next_batch pl.2)) (take n pairs) ->
  (forward_calls pairs).2 = false /\
  target <$> (forward_calls pairs).1 = (take n pairs).*1.
Proof.
  revert n. induction pairs as [|[c l0] pairs IH]; intros n Hn Hld Hpre;
    [done|].
  destruct n as [|n]; simpl in Hn, Hpre; cbn [FedSketchedModel.forward_calls].
  - injection Hn as -> ->. by rewrite Hld.
  - apply Forall_cons in Hpre as [[b Hb] Hpre]. cbn [snd] in Hb. rewrite Hb.
    destruct (IH n Hn Hld Hpre) as [Hok Htargets].
    destruct (FedSketchedModel.forward_calls next_batch pairs) as [cs ok].
    cbn [fst snd] in *. split; [done|].
    rewrite firstn_cons, !fmap_cons. cbn [target fst]. by rewrite Htargets.
Qed.

(** In training mode the forward call pairs every sampled worker with its
    own loader: for the [i]-th sampled index [j], the [i]-th invocation
    goes to worker [j] and carries the first batch of loader [j] of the
    first argument. *)
Theorem forward_pairs_worker_with_loader m g args r :
  FedSketchedModel.training m = true ->
  FedSketchedModel.returned (forward m g args) = Some r ->
  exists idx a ls,
    args !! 0 = Some a /\ as_loaders a = Some ls /\
    FedSketchedModel.rounds (FedSketchedModel.model (forward m g args))
      = FedSketchedModel.rounds m ++ [idx] /\
    length (FedSketchedModel.issued (forward m g args)) = length idx /\
    forall i j, idx !! i = Some j ->
      exists w ld b,
        FedSketchedModel.workers m !! j = Some w /\
        ls !! j = Some ld /\ next_batch ld = Some b /\
        FedSketchedModel.issued (forward m g args) !! i
          = Some {| target := w; method := model_call (batch b) |}.
Proof.
  intros Ht Hr.
  destruct (forward_returned_inv m g args r Ht Hr)
    as (idx & pc & a & ls & pl & Hpc & Ha & Hls & Hpl & Hm & Hcs).
  exists idx, a, ls. rewrite Hm. split; [done|]. split; [done|].
  split; [done|].
  apply forward_calls_batches in Hcs.
  unfold Py.take_idx in Hpc, Hpl.
  pose proof (length_mapM _ _ _ Hpc) as Hlpc.
  pose proof (length_mapM _ _ _ Hpl) as Hlpl.
  apply mapM_Some in Hpc, Hpl. split.
  - apply Forall2_length in Hcs. rewrite <- Hcs, length_zip. lia.
  - intros i j Hij.
    destruct (Forall2_lookup_l _ _ _ _ _ Hpc Hij) as (w & Hw & Hwj).
    destruct (Forall2_lookup_l _ _ _ _ _ Hpl Hij) as (ld & Hld & Hldj).
    assert (Hz : zip pc pl !! i = Some (w, ld)).
    { rewrite lookup_zip_with, Hw. simpl. by rewrite Hld. }
    destruct (Forall2_lookup_l _ _ _ _ _ Hcs Hz) as (c & Hc & b & Hb & ->).
    by exists w, ld, b.
Qed.

(** A loader that is exhausted makes the forward call raise after the
    sample has been recorded: the round record holds the new entry, and the
    sampled workers before the one with the exhausted loader have been sent
    their batch. *)
Theorem exhausted_loader_keeps_round m g args size idx pc a ls pl n ld :
  FedSketchedModel.training m = true ->
  FedSketchedModel.sample_size m = Some size ->
  Py.choice_no_replace
    (np_random_permutation g (length (FedSketchedModel.workers m))).1
    (length (FedSketchedModel.workers m)) size = Some idx ->
  Py.take_idx (FedSketchedModel.workers m) idx = Some pc ->
  args !! 0 = Some a -> as_loaders a = Some ls ->
  Py.take_idx ls idx = Some pl ->
  pl !! n = Some ld -> next_batch ld = None ->
  Forall (fun ld' => is_Some (next_batch ld')) (take n pl) ->
  FedSketchedModel.returned (forward m g args) = None /\
  FedSketchedModel.rounds (FedSketchedModel.model (forward m g args))
    = FedSketchedModel.rounds m ++ [idx] /\
  target <$> FedSketchedModel.issued (forward m g args) = take n pc.
Proof.
  intros Ht Hsize Hidx Hpc Ha Hls Hpl Hn Hld Hpre.
  rewrite (forward_sampled m g args size idx pc a ls pl) by done.
  cbn [FedSketchedModel.returned FedSketchedModel.model
       FedSketchedModel.issued FedSketchedModel.rounds
       FedSketchedModel.append_round].
  assert (Hlen : length pc = length pl).
  { unfold Py.take_idx in Hpc, Hpl.
    apply length_mapM in Hpc, Hpl. lia. }
  assert (Hw : exists w, pc !! n = Some w).
  { apply lookup_lt_is_Some. rewrite Hlen. by eapply lookup_lt_Some. }
  destruct Hw as [w Hw].
  destruct (forward_calls_exhausted (zip pc pl) n w ld) as [Hok Htargets].
  - rewrite lookup_zip_with, Hw. simpl. by rewrite Hn.
  - done.
  - rewrite zip_with_take. apply Forall_forall.
    intros [w' ld'] Hin. simpl.
    apply (list_elem_of_fmap_2 snd) in Hin. cbn [snd] in Hin. rewrite snd_zip in Hin.
    + rewrite Forall_forall in Hpre. by apply Hpre.
    + rewrite !length_take. lia.
  - rewrite Hok, Htargets. split; [done|]. split; [done|].
    rewrite zip_with_take. apply fst_zip. rewrite !length_take. lia.
Qed.

(** The dispatch of the optimizer step: with [tw] the participants of the
    last round and [head] the first worker, the step issues
    [2 * len(tw) + 1] invocations, [compute_grad] to the participants first
    and then the aggregations; a worker is sent one aggregation per
    occurrence among the participants, and the head one more; every
    aggregation takes the futures of all participants, in order. *)
Theorem step_dispatch o m (calls : list Call) :
  step o m = Some calls ->
  exists tw head,
    FedSketchedOptimizer._get_workers o m = Some tw /\
    FedSketchedOptimizer.workers o !! 0 = Some head /\
    length calls = 2 * length tw + 1 /\
    take (length tw) calls
      = (fun w => {| target := w; method := compute_grad |}) <$> tw /\
    Forall (fun c => is_aggregation c = true) (drop (length tw) calls) /\
    (forall x, aggregations_on x calls
               = length (filter (fun w => w = x) tw)
                 + (if decide (head = x) then 1 else 0)) /\
    aggregation_inputs calls = replicate (S (length tw)) tw.
Proof.
  intros (tw & head & Htw & Hhead & ->)%step_inv.
  exists tw, head. split; [done|]. split; [done|].
  split; [|split; [|split; [|split]]].
  - unfold FedSketchedOptimizer._step.
    rewrite length_app, !length_fmap, length_app. cbn [length]. lia.
  - unfold FedSketchedOptimizer._step.
    rewrite take_app_length'; [done|]. by rewrite length_fmap.
  - unfold FedSketchedOptimizer._step.
    rewrite drop_app_length'; [|by rewrite length_fmap].
    apply Forall_fmap, Forall_forall. by intros w _.
  - intros x. rewrite filter_aggregation_step, list.filter_app, length_app.
    f_equal. rewrite filter_cons, filter_nil.
    by destruct (decide (head = x)).
  - rewrite step_aggregation_inputs, length_app.
    f_equal. cbn [length]. lia.
Qed.


End Dispatch.

Section Rounds.
Import Ray.
Context {F T : Type} `{Scalar F} `{CSVec F T}.
Context {Rng Loader Batch Arg : Type}.
Context (np_random_permutation : Rng -> nat -> list nat * Rng).
Context (next_batch : Loader -> option Batch).
Context (as_loaders : Arg -> option (list Loader)).

Local Abbreviation forward :=
  (FedSketchedModel.__call__ np_random_permutation next_batch as_loaders).
Local Abbreviation Call := (RemoteCall Batch Arg).
Local Abbreviation step := (FedSketchedOptimizer.step (Batch:=Batch) (Arg:=Arg)).
Local Abbreviation _step := (FedSketchedOptimizer._step (Batch:=Batch) (Arg:=Arg)).
Local Abbreviation zero_grad :=
  (FedSketchedOptimizer.zero_grad (Batch:=Batch) (Arg:=Arg)).
Local Abbreviation loss := (FedSketchedLoss.__call__ (Batch:=Batch) (Arg:=Arg)).

Implicit Types (m : FedSketchedModel.t) (o : FedSketchedOptimizer.t)
  (l : FedSketchedLoss.t) (g : Rng) (args : list Arg).

(** An aggregation over no vector raises on every worker. *)
Lemma all_reduce_sketched_nil (w : Worker.t (F:=F) (T:=T)) :
  Worker.all_reduce_sketched w [] = None.
Proof.
  destruct (Worker.all_reduce_sketched w []) as [w'|] eqn:Hrun; [|done].
  apply all_reduce_sketched_inv in Hrun as (s & wu & Hup & _).
  by apply all_reduce_update_inputs in Hup as [Hne _].
Qed.

(** When the optimizer and the loss hold the workers of the model, a
    forward call in training mode that returned fixes the workers of the
    round: the step and [zero_grad] are dispatched, without raising, to
    exactly the workers that were sent the forward call, in the same order;
    the loss reads the same workers: it raises for an empty sample, and a
    result it returns holds one loss call per such worker and refers to
    these workers. *)
Theorem round_follows_forward m g args r o l (largs : list Arg) head :
  FedSketchedModel.training m = true ->
  FedSketchedModel.returned (forward m g args) = Some r ->
  FedSketchedOptimizer.workers o = FedSketchedModel.workers m ->
  FedSketchedLoss.workers l = FedSketchedModel.workers m ->
  FedSketchedModel.workers m !! 0 = Some head ->
  length largs <> 2 ->
  let m' := FedSketchedModel.model (forward m g args) in
  let tw := target <$> FedSketchedModel.issued (forward m g args) in
  step o m' = Some (_step tw (tw ++ [head])) /\
  zero_grad o m' = Some (FedSketchedOptimizer._zero_grad tw) /\
  FedSketchedLoss._get_workers l m' = Some tw /\
  (tw = [] -> loss l m' largs 0 = None) /\
  (forall res, loss l m' largs 0 = Some res ->
     res = FedSketchedLoss.returned_result
             {| FedSketchedLoss.results :=
                  FedSketchedLoss.remote_loss <$> tw;
                FedSketchedLoss.result_workers := tw |}).
Proof.
  intros Ht Hr Ho Hl Hhead Hargs m' tw.
  destruct (forward_training_inv _ _ _ m g args r Ht Hr)
    as (size & idx & _ & _ & Hm & _ & Htw & _).
  fold tw in Htw. subst m'. rewrite Hm.
  destruct (get_workers_append_round m o l idx) as [Hgo Hgl].
  unfold FedSketchedOptimizer.step, FedSketchedOptimizer.zero_grad,
    FedSketchedLoss.__call__.
  rewrite Hgo, Hgl, Ho, Hl, Htw, Hhead. cbn [mbind option_bind].
  split; [done|]. split; [done|]. split; [done|].
  rewrite bool_decide_eq_false_2 by lia.
  rewrite bool_decide_eq_false_2 by done.
  split.
  - by intros ->.
  - intros res Hres. destruct tw; [done|]. by injection Hres as <-.
Qed.

(** A participation rate so small that the sample is empty: the forward
    call returns no output and records an empty round; the step that
    follows issues a single aggregation, to the head worker and over no
    gradient, which raises on the worker; the loss raises as well. *)
Theorem empty_sample_round m g args a ls o head :
  FedSketchedModel.training m = true ->
  FedSketchedModel.sample_size m = Some 0%Z ->
  args !! 0 = Some a -> as_loaders a = Some ls ->
  FedSketchedOptimizer.workers o !! 0 = Some head ->
  let out := forward m g args in
  let agg : Call := {| target := head; method := all_reduce_sketched [] |} in
  FedSketchedModel.returned out = Some (FedSketchedModel.outputs []) /\
  FedSketchedModel.issued out = [] /\
  FedSketchedModel.rounds (FedSketchedModel.model out)
    = FedSketchedModel.rounds m ++ [[]] /\
  step o (FedSketchedModel.model out) = Some [agg] /\
  (forall c : Cluster.t (F:=F) (T:=T), Cluster.run c [agg] = None) /\
  (forall l (largs : list Arg), length largs <> 2 ->
     loss l (FedSketchedModel.model out) largs 0 = None).
Proof.
  intros Ht Hsize Ha Hls Hhead out agg. subst out.
  assert (Hidx : Py.choice_no_replace
            (np_random_permutation g (length (FedSketchedModel.workers m))).1
            (length (FedSketchedModel.workers m)) 0 = Some []).
  { unfold Py.choice_no_replace. by rewrite bool_decide_eq_false_2 by lia. }
  rewrite (forward_sampled _ _ _ m g args 0%Z [] [] a ls []
             Ht Hsize Hidx eq_refl Ha Hls eq_refl).
  cbn [FedSketchedModel.returned FedSketchedModel.model
       FedSketchedModel.issued FedSketchedModel.rounds
       FedSketchedModel.append_round FedSketchedModel.forward_calls
       zip zip_with fst snd].
  split; [done|]. split; [done|]. split; [done|].
  assert (Hgo : forall o',
            FedSketchedOptimizer._get_workers o'
              (FedSketchedModel.append_round m []) = Some []).
  { intros o'. unfold FedSketchedOptimizer._get_workers.
    by rewrite last_item_append_round. }
  split; [|split].
  - unfold FedSketchedOptimizer.step. rewrite Hgo. cbn [mbind option_bind].
    by rewrite Hhead.
  - intros c. subst agg. cbn [Cluster.run Cluster.exec method target].
    destruct (Cluster.actors c !! head) as [w|]; [|done].
    cbn [mbind option_bind mapM mret option_ret].
    by rewrite all_reduce_sketched_nil.
  - intros l largs Hargs. unfold FedSketchedLoss.__call__.
    rewrite bool_decide_eq_false_2 by lia.
    rewrite bool_decide_eq_false_2 by done.
    unfold FedSketchedLoss._get_workers.
    by rewrite last_item_append_round.
Qed.

End Rounds.

(** ** The top-k selection against exact values *)

Section TopkExactness.
Import Torch Worker Examples MoreExamples ExactSketch.

(** C9.  With the mask [[1; 0; 1]], budget [k = 1] and the contributed
    vector [[5; 9; 3]], whenever the sketch surfaces both sketched
    coordinates as candidates: the exact-valued candidates are 5 (coordinate
    0) and 3 (coordinate 2), of which the specification keeps the first;
    the sketched portion of the weight update keeps the second instead, and
    writes 9 there, the entry of the dense coordinate 1, while coordinate 2
    sums to 3. *)
Theorem sketched_topk_not_exact {T : Type} `{CSVec Z T} `{!CSVecSpec Z T}
    (w : Worker.t (F:=Z) (T:=T)) (s : T) wu coords c :
  sketch_mask w = [true; false; true] -> k w = 1 ->
  cs_d (sketch w) = 2 ->
  all_reduce_update w misleading_grad = Some (s, wu) ->
  all_reduce_candidates w misleading_grad = Some (s, coords, c) ->
  0 ∈ coords -> 1 ∈ coords ->
  spec_exact_candidates (sketch_mask w) misleading_grad coords 2
    = [5; 3]%Z /\
  spec_sketched_portion (sketch_mask w) (k w) misleading_grad coords
    = [5; 0]%Z /\
  select wu (sketch_mask w) = [0; 9]%Z /\
  col_sum misleading_grad 2 = Some 3%Z.
Proof.
  intros Hm Hk Hd Hup Hcand H0 H1.
  assert (Hexact : spec_exact_candidates (sketch_mask w) misleading_grad
                     coords 2 = [5; 3]%Z).
  { unfold spec_exact_candidates. rewrite Hm. cbn [seq fmap list_fmap].
    by rewrite !bool_decide_eq_true_2 by done. }
  split; [exact Hexact|]. split; [|split; [|done]].
  - unfold spec_sketched_portion. rewrite Hm, Hk.
    change (mask_count [true; false; true]) with 2.
    rewrite <- Hm at 1. by rewrite Hexact.
  - assert (Hc : c = [5; 9]%Z).
    { pose proof (candidates_length w misleading_grad s coords c) as Hlen.
      rewrite Hm in Hlen. specialize (Hlen Hd Hcand).
      pose proof (candidates_value _ _ _ _ _ Hcand 0 H0) as Hc0.
      pose proof (candidates_value _ _ _ _ _ Hcand 1 H1) as Hc1.
      destruct c as [|x [|y [|z c]]]; try done.
      by injection Hc0 as ->; injection Hc1 as ->. }
    pose proof (update_sketched_portion _ _ _ _ _ _ Hup Hcand) as Hsel.
    rewrite Hm, Hk, Hc in Hsel. rewrite Hm. by injection Hsel as <-.
Qed.

(** C9 at [wide_worker] with the collision-free sketch: the update is
    [[0; 9; 9]], where the exact-valued selection gives [[5; 9; 0]]. *)
Lemma sketched_topk_not_exact_witness :
  all_reduce_candidates wide_worker misleading_grad
    = Some ([5; 3]%Z, [0; 1], [5; 9]%Z) /\
  all_reduce_update wide_worker misleading_grad
    = Some ([5; 3]%Z, [0; 9; 9]%Z) /\
  spec_sketched_portion (sketch_mask wide_worker) (k wide_worker)
    misleading_grad [0; 1] = [5; 0]%Z /\
  select [0; 9; 9]%Z (sketch_mask wide_worker) = [0; 9]%Z.
Proof.
  split; [reflexivity|]. split; [reflexivity|].
  destruct (sketched_topk_not_exact wide_worker [5; 3]%Z [0; 9; 9]%Z
              [0; 1] [5; 9]%Z) as (_ & Hspec & Hcode & _);
    try reflexivity.
  - apply list_elem_of_here.
  - apply list_elem_of_further, list_elem_of_here.
  - split; [exact Hspec|exact Hcode].
Defined.

End TopkExactness.

(** ** The further properties on concrete workers and rounds *)

Section MoreConcrete.
Import Ray Torch Worker Examples MoreExamples ExactSketch.

Lemma drifted_worker_wf : wf drifted_worker.
Proof.
  constructor; try reflexivity; try done.
  repeat constructor.
Qed.

(** A budget of five covers the three entries. *)
Lemma topk_budget_covers_all_witness :
  _topk [3; -5; 1]%Z 5 = [3; -5; 1]%Z.
Proof. apply (topk_budget_covers_all [3; -5; 1]%Z 5). right. simpl. lia. Defined.

(** [worker] after the aggregation of two contributed vectors. *)
Lemma aggregation_updates_parameters_witness :
  exists s wu,
    all_reduce_update Examples.worker two_grads = Some (s, wu) /\
    sketch aggregated_worker = s /\
    _getParamVec aggregated_worker
      = Some (zip_with (fun x y => descend x (fmul y 1%Z))
                [10; 20; 30]%Z wu).
Proof.
  apply (aggregation_updates_parameters Examples.worker two_grads
           aggregated_worker tiny_group [10; 20; 30]%Z); reflexivity.
Defined.

(** The updates [worker] accepts. *)
Lemma apply_update_domain_witness :
  is_Some (_apply_update Examples.worker [0; 4; 4]%Z) <->
  3 <= length [0; 4; 4]%Z /\
  Forall (fun i => i < 3) (nonzero [0; 4; 4]%Z).
Proof.
  apply (apply_update_domain Examples.worker [0; 4; 4]%Z tiny_group).
  - exact worker_wf.
  - reflexivity.
Defined.

(** [worker] and [drifted_worker] hold the same parameters before and
    after the aggregation. *)
Lemma replicas_stay_in_sync_witness :
  u Examples.worker <> u drifted_worker /\
  _getParamVec aggregated_worker = _getParamVec aggregated_drifted.
Proof.
  split; [discriminate|].
  apply (replicas_stay_in_sync Examples.worker drifted_worker two_grads
           aggregated_worker aggregated_drifted tiny_group drifted_group);
    try reflexivity.
  by eexists.
Defined.

(** The lists of vectors [worker] aggregates. *)
Lemma all_reduce_sketched_domain_witness :
  is_Some (all_reduce_sketched Examples.worker two_grads) <->
  two_grads <> [] /\ Forall (fun g => length g = 3) two_grads.
Proof.
  apply (all_reduce_sketched_domain Examples.worker two_grads worker_wf).
Defined.

(** The invariant along the methods of [worker]. *)
Lemma methods_keep_well_formed_witness :
  (forall w' r, compute_grad Examples.worker = Some (w', r) ->
     wf w' /\ r = v w' /\ length r = grad_size w') /\
  (forall grads w', all_reduce_sketched Examples.worker grads = Some w' ->
     wf w' /\ sketch_mask w' = sketch_mask Examples.worker /\
     grad_size w' = grad_size Examples.worker).
Proof. apply (methods_keep_well_formed Examples.worker worker_wf). Defined.

(** Binding the tiny model. *)
Lemma set_optimizer_binds_witness :
  exists w',
    set_optimizer (unbound 1 1 2%Z 0%Z false)
      (tiny_model 10 20 30 [1; 2; 3]%Z) 1%Z = Some w' /\ wf w' /\
    param_groups w' = [tiny_group] /\
    grad_size w' = 3 /\
    sketch_mask w' = [true; false; true] /\
    cs_d (sketch w') = mask_count (sketch_mask w') /\
    u w' = zeros (grad_size w') /\ v w' = zeros (grad_size w').
Proof.
  apply (set_optimizer_binds (unbound 1 1 2%Z 0%Z false)
           (tiny_model 10 20 30 [1; 2; 3]%Z) 1%Z).
  - discriminate.
  - repeat constructor.
  - repeat constructor.
Defined.

(** With the bias frozen the buffers have two entries and the gradient
    vector three. *)
Lemma frozen_parameters_break_compute_grad_witness :
  length (u frozen_worker) = 2 /\ compute_grad frozen_worker = None.
Proof.
  split; [reflexivity|].
  apply (frozen_parameters_break_compute_grad (unbound 1 1 2%Z 0%Z false)
           frozen_worker frozen_model 1%Z).
  - reflexivity.
  - repeat constructor.
  - simpl. lia.
  - simpl. lia.
Defined.

(** [sync] of [worker] with a vector of four entries. *)
Lemma sync_sets_parameters_witness :
  (is_Some (sync Examples.worker [7; 8; 9; 10]%Z) <-> 3 <= 4) /\
  (forall w', sync Examples.worker [7; 8; 9; 10]%Z = Some w' ->
     _getParamVec w' = Some [7; 8; 9]%Z /\
     _getGradVec w' = _getGradVec Examples.worker /\ wf w').
Proof.
  apply (sync_sets_parameters Examples.worker [7; 8; 9; 10]%Z worker_wf).
Defined.

(** [_setGradVec] of [worker] with a vector of four entries. *)
Lemma setGradVec_fills_gradients_witness :
  is_Some (_setGradVec Examples.worker [7; 8; 9; 10]%Z) <-> 3 <= 4.
Proof.
  apply (setGradVec_fills_gradients Examples.worker [7; 8; 9; 10]%Z
           worker_wf).
Defined.

(** [worker] after subtracting its gradients [[1; 2; 3]]. *)
Lemma updateParamsWithGradVec_descends_witness :
  exists w',
    _updateParamsWithGradVec Examples.worker = Some w' /\
    _getParamVec w' = Some [9; 18; 27]%Z.
Proof.
  destruct (updateParamsWithGradVec_descends Examples.worker worker_wf)
    as (w' & Hrun & _ & _ & _ & Hflat).
  exists w'. split; [exact Hrun|].
  apply (Hflat ltac:(repeat constructor; by eexists)
           [10; 20; 30]%Z [1; 2; 3]%Z); reflexivity.
Defined.

(** The forward call of [four_workers]: the sampled workers 13 and 12 get
    the batches of the loaders 103 and 102. *)
Lemma forward_pairs_worker_with_loader_witness :
  exists idx a ls,
    [[100; 101; 102; 103]] !! 0 = Some a /\ as_loaders a = Some ls /\
    FedSketchedModel.rounds
      (FedSketchedModel.model
         (Examples.forward four_workers 0 [[100; 101; 102; 103]]))
      = [[0; 1]] ++ [idx] /\
    length (FedSketchedModel.issued
              (Examples.forward four_workers 0 [[100; 101; 102; 103]]))
      = length idx /\
    forall i j, idx !! i = Some j ->
      exists w ld b,
        [10; 11; 12; 13] !! j = Some w /\
        ls !! j = Some ld /\ next_batch ld = Some b /\
        FedSketchedModel.issued
          (Examples.forward four_workers 0 [[100; 101; 102; 103]]) !! i
          = Some {| target := w; method := model_call (batch b) |}.
Proof.
  apply (forward_pairs_worker_with_loader reversing next_batch as_loaders
           four_workers 0 [[100; 101; 102; 103]] four_workers_outputs);
    reflexivity.
Defined.

(** With loader 102 exhausted the forward call of [four_workers] raises
    after worker 13 was sent its batch, and the round is recorded. *)
Lemma exhausted_loader_keeps_round_witness :
  FedSketchedModel.returned
    (forward_but_102 four_workers 0 [[100; 101; 102; 103]]) = None /\
  FedSketchedModel.rounds
    (FedSketchedModel.model
       (forward_but_102 four_workers 0 [[100; 101; 102; 103]]))
    = [[0; 1]] ++ [[3; 2]] /\
  target <$> FedSketchedModel.issued
               (forward_but_102 four_workers 0 [[100; 101; 102; 103]])
    = take 1 [13; 12].
Proof.
  apply (exhausted_loader_keeps_round reversing next_batch_but_102 as_loaders
           four_workers 0 [[100; 101; 102; 103]] 2%Z [3; 2] [13; 12]
           [100; 101; 102; 103] [100; 101; 102; 103] [103; 102] 1 102);
    try reflexivity.
  repeat constructor. by eexists.
Defined.

(** The step of [two_worker_optimizer] on the round [[1; 0]]. *)
Lemma step_dispatch_witness :
  exists tw head,
    FedSketchedOptimizer._get_workers two_worker_optimizer both_sampled
      = Some tw /\
    FedSketchedOptimizer.workers two_worker_optimizer !! 0 = Some head /\
    length both_sampled_step = 2 * length tw + 1 /\
    take (length tw) both_sampled_step
      = (fun w => {| target := w; method := Ray.compute_grad |}) <$> tw /\
    Forall (fun c => is_aggregation c = true)
      (drop (length tw) both_sampled_step) /\
    (forall x, aggregations_on x both_sampled_step
               = length (filter (fun w => w = x) tw)
                 + (if decide (head = x) then 1 else 0)) /\
    aggregation_inputs both_sampled_step = replicate (S (length tw)) tw.
Proof.
  apply (step_dispatch two_worker_optimizer both_sampled both_sampled_step).
  reflexivity.
Defined.


(** The round after the forward call of [four_workers]. *)
Lemma round_follows_forward_witness :
  let m' := FedSketchedModel.model
              (Examples.forward four_workers 0 [[100; 101; 102; 103]]) in
  FedSketchedOptimizer.step (Batch:=nat) (Arg:=list nat) optimizer m'
    = Some (FedSketchedOptimizer._step [13; 12] ([13; 12] ++ [10])) /\
  FedSketchedOptimizer.zero_grad (Batch:=nat) (Arg:=list nat) optimizer m'
    = Some (FedSketchedOptimizer._zero_grad [13; 12]) /\
  FedSketchedLoss._get_workers criterion m' = Some [13; 12] /\
  ([13; 12] = [] ->
   FedSketchedLoss.__call__ (Batch:=nat) criterion m' [[1]] 0 = None) /\
  (forall res,
     FedSketchedLoss.__call__ (Batch:=nat) criterion m' [[1]] 0 = Some res ->
     res = FedSketchedLoss.returned_result
             {| FedSketchedLoss.results :=
                  FedSketchedLoss.remote_loss <$> [13; 12];
                FedSketchedLoss.result_workers := [13; 12] |}).
Proof.
  apply (round_follows_forward reversing next_batch as_loaders
           four_workers 0 [[100; 101; 102; 103]] four_workers_outputs
           optimizer criterion [[1]] 10); try reflexivity.
  simpl. lia.
Defined.

(** Three workers at a participation rate of one eighth: nobody is
    sampled. *)
Lemma empty_sample_round_witness :
  let out := Examples.forward eighth_of_three 0 [[100; 101; 102]] in
  let agg : RemoteCall nat (list nat) :=
    {| target := 10; method := Ray.all_reduce_sketched [] |} in
  FedSketchedModel.returned out = Some (FedSketchedModel.outputs []) /\
  FedSketchedModel.issued out = [] /\
  FedSketchedModel.rounds (FedSketchedModel.model out) = [[0]] ++ [[]] /\
  FedSketchedOptimizer.step optimizer (FedSketchedModel.model out)
    = Some [agg] /\
  (forall c : Cluster.t (F:=Z) (T:=list Z), Cluster.run c [agg] = None) /\
  (forall l (largs : list (list nat)), length largs <> 2 ->
     FedSketchedLoss.__call__ (Batch:=nat) l (FedSketchedModel.model out)
       largs 0 = None).
Proof.
  apply (empty_sample_round (F:=Z) (T:=list Z) reversing next_batch
           as_loaders eighth_of_three 0 [[100; 101; 102]]
           [100; 101; 102] [100; 101; 102] optimizer 10); reflexivity.
Defined.

End MoreConcrete.
